(** * Futoshiki CSP solver: propagators and grid models

    A shallow embedding of [propagators.py] and [futoshiki_csp.py].
    Python objects of class [Variable] live in a store indexed by object
    identity; constraints and the CSP are immutable while a propagator runs
    and are plain records. *)

From Stdlib Require Import String Ascii DecimalString.
From Stdlib Require Import ZArith Lia Bool Arith PeanoNat List.
Import ListNotations.

Set Implicit Arguments.

(** ** Python values found in grids and domains: ints and strs *)

Inductive value : Type :=
| VInt (z : Z)
| VStr (s : string).

Definition value_eq_dec (a b : value) : {a = b} + {a <> b}.
Proof.
  decide equality; [apply Z.eq_dec | apply string_dec].
Defined.

(** Python [==] on ints and strs: an int never equals a str. *)
Definition value_eqb (a b : value) : bool :=
  if value_eq_dec a b then true else false.

Definition opt_value_eq_dec (a b : option value) : {a = b} + {a <> b}.
Proof.
  decide equality; apply value_eq_dec.
Defined.

(** Membership test, Python [x in l]. *)
Definition mem (v : value) (l : list value) : bool := existsb (value_eqb v) l.

(** ** cspbase: variables, constraints, CSP *)

(** Identity of a [Variable] object. *)
Definition var_id := nat.

(** Modelled from the spec: the class [Variable] of cspbase (spec 3 and
    4.1; [Variable] is a reserved word here, hence [Var]): a name, the
    original domain fixed at construction, the current domain that pruning
    shrinks, and the value assigned by search, if any. *)
Record Var : Type := mkVar {
  name : string;
  original_domain : list value;
  current_domain : list value;
  assigned_value : option value
}.

(** The store maps each object identity to the state of that object. *)
Definition store := var_id -> Var.

Definition upd (st : store) (x : var_id) (o : Var) : store :=
  fun y => if Nat.eqb y x then o else st y.

(** Modelled from the spec: the class [Constraint] of cspbase (spec 3 and
    4.2): an ordered scope and the satisfying tuples, aligned with it. *)
Record Constraint : Type := mkConstraint {
  cname : string;
  scope : list var_id;
  satisfying_tuples : list (list value)
}.

(** Modelled from the spec: the class [CSP] of cspbase (spec 3 and 4.3).
    The index from variables to constraints is "always consistent with the
    constraint scopes", so it is read off the scopes. *)
Record CSP : Type := mkCSP {
  csp_name : string;
  csp_vars : list var_id;
  csp_cons : list Constraint
}.

(** Modelled from the spec: [Variable.is_assigned] (4.1). *)
Definition is_assigned (st : store) (x : var_id) : bool :=
  match assigned_value (st x) with Some _ => true | None => false end.

(** Modelled from the spec: [Variable.get_assigned_value] (4.1, 6);
    Python [None] when there is none. *)
Definition get_assigned_value (st : store) (x : var_id) : option value :=
  assigned_value (st x).

(** Modelled from the spec: [Variable.cur_domain] (4.1): "ordered sequence
    of currently valid values (or [assigned_value] if assigned)", a fresh
    list. *)
Definition cur_domain (st : store) (x : var_id) : list value :=
  match assigned_value (st x) with
  | Some v => [v]
  | None => current_domain (st x)
  end.

(** A run of stateful code: the result and the new store, or [None] when
    an exception is raised. *)
Definition M (A : Type) : Type := store -> option (A * store).

Definition ret {A} (a : A) : M A := fun st => Some (a, st).

Definition bind {A B} (m : M A) (k : A -> M B) : M B :=
  fun st => match m st with
            | Some (a, st') => k a st'
            | None => None
            end.

Definition gets {A} (f : store -> A) : M A := fun st => Some (f st, st).

Definition raise {A} : M A := fun _ => None.

Declare Scope m_scope.
Delimit Scope m_scope with M.
Notation "x <- m ;; k" := (bind m (fun x => k))
  (at level 61, m at next level, right associativity) : m_scope.
Notation "m ;;; k" := (bind m (fun _ => k))
  (at level 61, right associativity) : m_scope.

(** Modelled from the spec: [Variable.prune_value] (4.1): "removes v from
    current domain; fails (logic error) if v already absent". An emptied
    domain is left for the caller to detect. *)
Definition prune_value (x : var_id) (v : value) : M unit :=
  fun st =>
    let o := st x in
    if mem v (current_domain o) then
      Some (tt, upd st x (mkVar (name o) (original_domain o)
                            (remove value_eq_dec v (current_domain o))
                            (assigned_value o)))
    else raise st.

(** Modelled from the spec: [Constraint.get_scope] (3). *)
Definition get_scope (c : Constraint) : list var_id := scope c.

(** Modelled from the spec: [Constraint.check] (4.2): "True iff tuple is
    in satisfying_tuples". The argument may hold Python [None]. *)
Definition check (c : Constraint) (vals : list (option value)) : bool :=
  existsb (fun t => if list_eq_dec opt_value_eq_dec (map Some t) vals
                    then true else false)
          (satisfying_tuples c).

(** Modelled from the spec: [Constraint.get_unasgn_vars] (4.2): "scope
    variables not yet assigned". *)
Definition get_unasgn_vars (st : store) (c : Constraint) : list var_id :=
  filter (fun x => negb (is_assigned st x)) (scope c).

(** Modelled from the spec: [Constraint.get_n_unasgn] (4.2): "count of
    same". *)
Definition get_n_unasgn (st : store) (c : Constraint) : nat :=
  length (get_unasgn_vars st c).

(** A tuple is consistent with [x = v] and the current domains of the
    other scope variables, position by position. *)
Fixpoint tuple_consistent (st : store) (sc : list var_id) (t : list value)
         (x : var_id) (v : value) : bool :=
  match sc, t with
  | [], [] => true
  | y :: sc', u :: t' =>
      (if Nat.eqb y x then value_eqb u v else mem u (cur_domain st y))
      && tuple_consistent st sc' t' x v
  | _, _ => false
  end.

(** Modelled from the spec: [Constraint.has_support] (4.2): "True iff there
    exists at least one tuple in satisfying_tuples consistent with var=val
    AND with every other scope variable's current domain". *)
Definition has_support (st : store) (c : Constraint) (x : var_id) (v : value) : bool :=
  existsb (fun t => tuple_consistent st (scope c) t x v) (satisfying_tuples c).

(** Modelled from the spec: [CSP.get_all_cons] and [CSP.get_all_vars]
    (4.3): "full listings", fresh lists that the caller may change. *)
Definition get_all_cons (csp : CSP) : list Constraint := csp_cons csp.
Definition get_all_vars (csp : CSP) : list var_id := csp_vars csp.

(** Modelled from the spec: [CSP.get_cons_with_var] (4.3): "all constraints
    whose scope contains v". *)
Definition get_cons_with_var (csp : CSP) (x : var_id) : list Constraint :=
  filter (fun c => existsb (Nat.eqb x) (scope c)) (csp_cons csp).

(** Modelled from the spec: [CSP.add_var] and [CSP.add_constraint] (4.3),
    used at build time only. *)
Definition add_var (csp : CSP) (x : var_id) : CSP :=
  mkCSP (csp_name csp) (csp_vars csp ++ [x]) (csp_cons csp).
Definition add_constraint (csp : CSP) (c : Constraint) : CSP :=
  mkCSP (csp_name csp) (csp_vars csp) (csp_cons csp ++ [c]).

(** Modelled from the spec: [Constraint.add_satisfying_tuples] (6): the
    tuples enumerated by the model builder become the satisfying tuples. *)
Definition add_satisfying_tuples (c : Constraint) (ts : list (list value)) : Constraint :=
  mkConstraint (cname c) (scope c) (satisfying_tuples c ++ ts).

(** ** propagators.py *)

(** A prune record: the (Variable, Value) pairs removed by one call. *)
Definition prunes := list (var_id * value).

Local Open Scope m_scope.

(** *** prop_BT *)

(** [vals] of lines 82-85: the assigned values along the scope. *)
Definition assigned_vals (st : store) (c : Constraint) : list (option value) :=
  map (get_assigned_value st) (get_scope c).

(** The loop of lines 80-87; [false] is the early [return False, []]. *)
Fixpoint BT_loop (cs : list Constraint) : M (bool * prunes) :=
  match cs with
  | [] => ret (true, [])
  | c :: cs' =>
      n <- gets (fun st => get_n_unasgn st c) ;;
      if Nat.eqb n 0 then
        vals <- gets (fun st => assigned_vals st c) ;;
        if negb (check c vals) then ret (false, []) else BT_loop cs'
      else BT_loop cs'
  end.

Definition prop_BT (csp : CSP) (newVar : option var_id) : M (bool * prunes) :=
  match newVar with
  | None => ret (true, [])
  | Some x => BT_loop (get_cons_with_var csp x)
  end.

(** *** prop_FC *)

(** Lines 102-105: the loop over the snapshot [var.cur_domain()]. *)
Fixpoint FC_values (c : Constraint) (x : var_id) (vals : list value)
         (pruned : prunes) : M prunes :=
  match vals with
  | [] => ret pruned
  | v :: vals' =>
      s <- gets (fun st => has_support st c x v) ;;
      if negb s then
        prune_value x v ;;;
        FC_values c x vals' (pruned ++ [(x, v)])
      else FC_values c x vals' pruned
  end.

(** Lines 99-108: the loop over the scope; the flag is [false] on the
    early [return False, pruned]. *)
Fixpoint FC_scope (c : Constraint) (xs : list var_id) (pruned : prunes)
  : M (bool * prunes) :=
  match xs with
  | [] => ret (true, pruned)
  | x :: xs' =>
      a <- gets (fun st => is_assigned st x) ;;
      if negb a then
        vals <- gets (fun st => cur_domain st x) ;;
        pruned' <- FC_values c x vals pruned ;;
        d <- gets (fun st => cur_domain st x) ;;
        if Nat.eqb (length d) 0 then ret (false, pruned')
        else FC_scope c xs' pruned'
      else FC_scope c xs' pruned
  end.

(** Lines 97-110: the loop over the constraints. *)
Fixpoint FC_cons (cs : list Constraint) (pruned : prunes) : M (bool * prunes) :=
  match cs with
  | [] => ret (true, pruned)
  | c :: cs' =>
      n <- gets (fun st => get_n_unasgn st c) ;;
      if Nat.eqb n 1 then
        r <- FC_scope c (get_scope c) pruned ;;
        if fst r then FC_cons cs' (snd r) else ret (false, snd r)
      else FC_cons cs' pruned
  end.

Definition prop_FC (csp : CSP) (newVar : option var_id) : M (bool * prunes) :=
  FC_cons (match newVar with
           | None => get_all_cons csp
           | Some x => get_cons_with_var csp x
           end) [].

(** *** prop_GAC *)

(** Lines 126-130: as [FC_values], with the flag [pruned_from]. *)
Fixpoint GAC_values (c : Constraint) (x : var_id) (vals : list value)
         (pruned : prunes) (pruned_from : bool) : M (prunes * bool) :=
  match vals with
  | [] => ret (pruned, pruned_from)
  | v :: vals' =>
      s <- gets (fun st => has_support st c x v) ;;
      if negb s then
        prune_value x v ;;;
        GAC_values c x vals' (pruned ++ [(x, v)]) true
      else GAC_values c x vals' pruned pruned_from
  end.

(** Lines 122-137: the loop over the unassigned variables of one
    constraint. [queue] is the part of [constraint_queue] that the outer
    loop has not reached yet; line 137 appends to it. The flag is [false]
    on the early [return False, pruned]. *)
Fixpoint GAC_vars (csp : CSP) (c : Constraint) (xs : list var_id)
         (pruned : prunes) (queue : list Constraint)
  : M (bool * prunes * list Constraint) :=
  match xs with
  | [] => ret (true, pruned, queue)
  | x :: xs' =>
      vals <- gets (fun st => cur_domain st x) ;;
      r <- GAC_values c x vals pruned false ;;
      d <- gets (fun st => cur_domain st x) ;;
      if Nat.eqb (length d) 0 then ret (false, fst r, queue)
      else if snd r then GAC_vars csp c xs' (fst r) (queue ++ get_cons_with_var csp x)
      else GAC_vars csp c xs' (fst r) queue
  end.

(** What a call of a function with an unbounded loop does. *)
Inductive run (A : Type) : Type :=
| Returns (a : A) (st : store)
| Raises
| OutOfFuel.
Arguments Raises {A}.
Arguments OutOfFuel {A}.

(** Lines 121-139. The [for] loop walks a list that grows while it is
    walked: its cursor leaves the visited constraints behind, so the loop
    is a function of the pending part of the list, and one unit of fuel
    pays for one constraint taken from it. *)
Fixpoint GAC_loop (fuel : nat) (csp : CSP) (queue : list Constraint)
         (pruned : prunes) (st : store) : run (bool * prunes) :=
  match queue with
  | [] => Returns (true, pruned) st
  | c :: queue' =>
      match fuel with
      | O => OutOfFuel
      | S fuel' =>
          match GAC_vars csp c (get_unasgn_vars st c) pruned queue' st with
          | None => Raises
          | Some ((true, pruned', queue''), st') =>
              GAC_loop fuel' csp queue'' pruned' st'
          | Some ((false, pruned', _), st') => Returns (false, pruned') st'
          end
      end
  end.

Definition prop_GAC (fuel : nat) (csp : CSP) (newVar : option var_id)
           (st : store) : run (bool * prunes) :=
  GAC_loop fuel csp
           (match newVar with
            | None => get_all_cons csp
            | Some x => get_cons_with_var csp x
            end) [] st.

(** *** ord_mrv *)

(** Lines 149-151: counting the values one by one. *)
Definition count_values (l : list value) : nat :=
  fold_left (fun count _ => count + 1) l 0.

(** Lines 148-155; [dom_count] is [None] while it is [math.inf]. *)
Fixpoint mrv_loop (st : store) (xs : list var_id) (dom_count : option nat)
         (mrv : var_id) : var_id :=
  match xs with
  | [] => mrv
  | x :: xs' =>
      let count := count_values (cur_domain st x) in
      match dom_count with
      | None => mrv_loop st xs' (Some count) x
      | Some d =>
          if Nat.ltb count d then mrv_loop st xs' (Some count) x
          else mrv_loop st xs' dom_count mrv
      end
  end.

(** [pop(0)] raises IndexError on an empty list; the popped list is a
    listing of its own, the loop walks a second, full one. *)
Definition ord_mrv (csp : CSP) (st : store) : option var_id :=
  match get_all_vars csp with
  | [] => None
  | x0 :: _ => Some (mrv_loop st (get_all_vars csp) None x0)
  end.

(** ** futoshiki_csp.py *)

Local Open Scope string_scope.
Local Open Scope list_scope.

(** A board: rows of cells, ints and strs mixed. *)
Definition grid := list (list value).

(** Python's ["{}".format] of an int and of a str. *)
Definition fmt_Z (z : Z) : string := NilZero.string_of_int (Z.to_int z).
Definition fmt_nat (n : nat) : string := fmt_Z (Z.of_nat n).
Definition fmt_value (v : value) : string :=
  match v with
  | VInt z => fmt_Z z
  | VStr s => s
  end.

(** Python's [l[i]]: a negative index counts from the end, an index out
    of range raises IndexError. *)
Definition py_nth {A} (l : list A) (i : Z) : option A :=
  if (i <? 0)%Z then
    if (i + Z.of_nat (length l) <? 0)%Z then None
    else nth_error l (Z.to_nat (i + Z.of_nat (length l)))
  else nth_error l (Z.to_nat i).

(** [futo_grid[row][col]] *)
Definition grid_at (futo_grid : grid) (row col : nat) : option value :=
  match nth_error futo_grid row with
  | Some r => nth_error r col
  | None => None
  end.

(** [futo_grid[row][col]] where [col] is the value of an expression that
    may be negative, such as [col - 1]. *)
Definition grid_at_py (futo_grid : grid) (row : nat) (col : Z) : option value :=
  match nth_error futo_grid row with
  | Some r => py_nth r col
  | None => None
  end.

(** Python's [<] and [>]: ints by value, strs in lexicographic order, an
    int against a str raises TypeError. *)
Definition py_lt (a b : value) : option bool :=
  match a, b with
  | VInt x, VInt y => Some (x <? y)%Z
  | VStr s, VStr t => Some (String.ltb s t)
  | _, _ => None
  end.
Definition py_gt (a b : value) : option bool :=
  match a, b with
  | VInt x, VInt y => Some (x >? y)%Z
  | VStr s, VStr t => Some (String.ltb t s)
  | _, _ => None
  end.

(** The objects allocated so far and the identity of the next one. *)
Record heap : Type := mkHeap {
  objects : store;
  next_id : var_id
}.

(** Modelled from the spec: the constructor [Variable(name, domain)]
    (spec 3): a new object, unassigned, whose current domain is its
    original domain. *)
Definition new_Variable (h : heap) (nm : string) (domain : list value) : var_id * heap :=
  (next_id h,
   mkHeap (upd (objects h) (next_id h) (mkVar nm domain domain None))
          (S (next_id h))).

(** Modelled from the spec: the constructors [Constraint(name, scope)] and
    [CSP(name)] (spec 3): no tuples, no variables, no constraints yet. *)
Definition new_Constraint (nm : string) (sc : list var_id) : Constraint :=
  mkConstraint nm sc [].
Definition new_CSP (nm : string) : CSP := mkCSP nm [] [].

(** A [for] loop whose body may raise. *)
Fixpoint for_each {S A : Type} (l : list A) (body : A -> S -> option S) (s : S)
  : option S :=
  match l with
  | [] => Some s
  | a :: l' =>
      match body a s with
      | Some s' => for_each l' body s'
      | None => None
      end
  end.

(** [ll[i].append(a)] *)
Fixpoint append_at {A : Type} (i : nat) (a : A) (ll : list (list A))
  : option (list (list A)) :=
  match ll, i with
  | [], _ => None
  | l :: ll', O => Some ((l ++ [a]) :: ll')
  | l :: ll', S i' =>
      match append_at i' a ll' with
      | Some r => Some (l :: r)
      | None => None
      end
  end.

(** Python's [range(a, b)]. *)
Definition range (a b : nat) : list nat := seq a (b - a).

(** *** var_setup *)
Definition var_setup (h : heap) (futo_grid : grid) (var_domain : list value)
           (row col : nat) : option (var_id * heap) :=
  let var_name := ("V" ++ fmt_nat row ++ fmt_nat (col / 2))%string in
  match grid_at futo_grid row col with
  | None => None
  | Some cell =>
      if value_eqb cell (VInt 0) then Some (new_Variable h var_name var_domain)
      else Some (new_Variable h var_name [cell])
  end.

(** *** ineq_constraint *)

(** Lines 131-134; the [or] of line 133 evaluates a single comparison. *)
Definition ineq_tuples (greater_than : bool) (d1 d2 : list value)
  : option (list (list value)) :=
  for_each d1 (fun val1 =>
    for_each d2 (fun val2 sat_tuples =>
      match (if greater_than then py_gt val1 val2 else py_lt val1 val2) with
      | Some true => Some (sat_tuples ++ [[val1; val2]])
      | Some false => Some sat_tuples
      | None => None
      end)) [].

(** Lines 128-136. The name reads [futo_grid[row][col - 1]] and prints
    [int(col/2) - 1]: at [col = 0] these are the last entry of the row and
    [-1]. *)
Definition ineq_constraint (h : heap) (csp : CSP) (futo_grid : grid)
           (var1 var2 : var_id) (greater_than : bool) (row col : nat)
  : option CSP :=
  match grid_at_py futo_grid row (Z.of_nat col - 1) with
  | None => None
  | Some sym =>
      let con := new_Constraint
                   ("C " ++ fmt_nat row ++ fmt_Z (Z.of_nat (col / 2) - 1)
                         ++ fmt_value sym ++ fmt_nat row ++ fmt_nat (col / 2))%string
                   [var1; var2] in
      match ineq_tuples greater_than (cur_domain (objects h) var1)
                        (cur_domain (objects h) var2) with
      | None => None
      | Some sat_tuples =>
          Some (add_constraint csp (add_satisfying_tuples con sat_tuples))
      end
  end.

(** *** binary_constraint *)

(** Lines 148-152. *)
Definition neq_tuples (d1 d2 : list value) : list (list value) :=
  fold_left (fun sat val1 =>
    fold_left (fun sat' val2 =>
      if negb (value_eqb val1 val2) then sat' ++ [[val1; val2]] else sat')
      d2 sat) d1 [].

Definition binary_constraint (h : heap) (csp : CSP) (variables : list (list var_id))
           (row_constraint : bool) (row col1 col2 col row1 row2 : nat)
  : option CSP :=
  let pick r c :=
    match nth_error variables r with
    | Some l => nth_error l c
    | None => None
    end in
  let finish con var1 var2 :=
    add_constraint csp
      (add_satisfying_tuples con
         (neq_tuples (cur_domain (objects h) var1) (cur_domain (objects h) var2))) in
  if row_constraint then
    match pick row col1, pick row col2 with
    | Some var1, Some var2 =>
        Some (finish (new_Constraint
                        ("C " ++ fmt_nat row ++ fmt_nat col1 ++ "!="
                              ++ fmt_nat row ++ fmt_nat col2)%string [var1; var2])
                     var1 var2)
    | _, _ => None
    end
  else
    match pick row1 col, pick row2 col with
    | Some var1, Some var2 =>
        Some (finish (new_Constraint
                        ("C " ++ fmt_nat row1 ++ fmt_nat col ++ "!="
                              ++ fmt_nat row2 ++ fmt_nat col)%string [var1; var2])
                     var1 var2)
    | _, _ => None
    end.

(** *** all_diff_constraint *)

(** Lines 100-103: the cross product of the domains. *)
Definition every_tuple (domains : list (list value)) : list (list value) :=
  fold_left (fun acc pool =>
               flat_map (fun x => map (fun y => x ++ [y]) pool) acc)
            domains [[]].

(** Lines 106-110: the flag [valid] of one tuple; no [break], so every
    pair of positions below [num_vars] is read. *)
Definition tuple_valid (possible_tuple : list value) (num_vars : nat) : option bool :=
  for_each (range 0 num_vars) (fun i =>
    for_each (range (i + 1) num_vars) (fun j valid =>
      match nth_error possible_tuple i, nth_error possible_tuple j with
      | Some a, Some b => Some (if value_eqb a b then false else valid)
      | _, _ => None
      end)) true.

(** Lines 105-112. *)
Definition all_diff_tuples (domains : list (list value)) (num_vars : nat)
  : option (list (list value)) :=
  for_each (every_tuple domains) (fun possible_tuple sat_tuples =>
    match tuple_valid possible_tuple num_vars with
    | Some true => Some (sat_tuples ++ [possible_tuple])
    | Some false => Some sat_tuples
    | None => None
    end) [].

Definition all_diff_constraint (csp : CSP) (vars : list var_id)
           (domains : list (list value)) (num_vars : nat) : option CSP :=
  let con := new_Constraint ":()" vars in
  match all_diff_tuples domains num_vars with
  | Some sat_tuples => Some (add_constraint csp (add_satisfying_tuples con sat_tuples))
  | None => None
  end.

(** *** futoshiki_csp_model_1 and futoshiki_csp_model_2 *)

(** The test of lines 46 and 80, at a column that is not a cell of its
    own: [col > 0 and (futo_grid[row][col - 1] == '<' or ... == '>')]. *)
Definition ineq_here (futo_grid : grid) (row col : nat) : option bool :=
  if Nat.ltb 0 col then
    match grid_at futo_grid row (col - 1) with
    | Some sym => Some (value_eqb sym (VStr "<") || value_eqb sym (VStr ">"))
    | None => None
    end
  else Some false.

(** The call of lines 48 and 82, with its arguments
    [variables[row][int(col/2) - 1]], [variables[row][int(col/2)]] and
    [futo_grid[row][col - 1] == '>']. *)
Definition ineq_call (h : heap) (csp : CSP) (futo_grid : grid)
           (variables : list (list var_id)) (row col : nat) : option CSP :=
  match nth_error variables row, grid_at_py futo_grid row (Z.of_nat col - 1) with
  | Some vrow, Some sym =>
      match py_nth vrow (Z.of_nat (col / 2) - 1), py_nth vrow (Z.of_nat (col / 2)) with
      | Some var1, Some var2 =>
          ineq_constraint h csp futo_grid var1 var2 (value_eqb sym (VStr ">")) row col
      | _, _ => None
      end
  | _, _ => None
  end.

(** Lines 36-38 and 68-71: [var_domain] and the empty rows. *)
Definition init_lists (n : nat) : list value * list (list var_id) :=
  fold_left (fun acc i => (fst acc ++ [VInt (Z.of_nat i + 1)], snd acc ++ [[]]))
            (range 0 n) ([], []).

Definition init_row_domains (n : nat) : list (list (list value)) :=
  fold_left (fun acc (_ : nat) => acc ++ [[]]) (range 0 n) [].

(** What model 1 has built so far: objects, CSP and [variables]. *)
Definition build1 : Type := (heap * CSP * list (list var_id))%type.

(** Lines 42-48: one column of one row. *)
Definition model_1_cell (futo_grid : grid) (var_domain : list value)
           (row col : nat) (s : build1) : option build1 :=
  let '(h, csp, variables) := s in
  if Nat.eqb (col mod 2) 0 then
    match var_setup h futo_grid var_domain row col with
    | Some (var, h') =>
        match append_at row var variables with
        | Some variables' => Some (h', add_var csp var, variables')
        | None => None
        end
    | None => None
    end
  else
    match ineq_here futo_grid row col with
    | Some true =>
        match ineq_call h csp futo_grid variables row col with
        | Some csp' => Some (h, csp', variables)
        | None => None
        end
    | Some false => Some s
    | None => None
    end.

(** Lines 51-55: the binary not-equal constraints of rows and columns. *)
Definition model_1_cons (h : heap) (variables : list (list var_id)) (n : nat)
           (csp : CSP) : option CSP :=
  for_each (range 0 n) (fun i =>
    for_each (range 0 n) (fun j =>
      for_each (range (j + 1) n) (fun k csp0 =>
        match binary_constraint h csp0 variables true i j k i j k with
        | Some csp1 => binary_constraint h csp1 variables false i j k i j k
        | None => None
        end))) csp.

Definition futoshiki_csp_model_1 (h : heap) (futo_grid : grid)
  : option (CSP * list (list var_id) * heap) :=
  let n := length futo_grid in
  match futo_grid with
  | [] => None
  | row0 :: _ =>
      let num_col := length row0 in
      let csp := new_CSP ("Futoshiki CSCP Model 1 - " ++ fmt_nat n ++ "x" ++ fmt_nat n)%string in
      let '(var_domain, variables) := init_lists n in
      match for_each (range 0 n) (fun row =>
              for_each (range 0 num_col) (model_1_cell futo_grid var_domain row))
              (h, csp, variables) with
      | Some (h', csp', variables') =>
          match model_1_cons h' variables' n csp' with
          | Some csp'' => Some (csp'', variables', h')
          | None => None
          end
      | None => None
      end
  end.

(** What model 2 has built so far: as model 1, and [row_domains]. *)
Definition build2 : Type :=
  (heap * CSP * list (list var_id) * list (list (list value)))%type.

(** Lines 75-82: one column of one row. *)
Definition model_2_cell (futo_grid : grid) (var_domain : list value)
           (row col : nat) (s : build2) : option build2 :=
  let '(h, csp, variables, row_domains) := s in
  if Nat.eqb (col mod 2) 0 then
    match var_setup h futo_grid var_domain row col with
    | Some (var, h') =>
        match append_at row var variables with
        | Some variables' =>
            match append_at row (cur_domain (objects h') var) row_domains with
            | Some row_domains' => Some (h', add_var csp var, variables', row_domains')
            | None => None
            end
        | None => None
        end
    | None => None
    end
  else
    match ineq_here futo_grid row col with
    | Some true =>
        match ineq_call h csp futo_grid variables row col with
        | Some csp' => Some (h, csp', variables, row_domains)
        | None => None
        end
    | Some false => Some s
    | None => None
    end.

(** Lines 88-90: [col_vars] and [col_domains] of column [i]. *)
Definition column (h : heap) (variables : list (list var_id)) (n i : nat)
  : option (list var_id * list (list value)) :=
  for_each (range 0 n) (fun j acc =>
    match nth_error variables j with
    | Some vrow =>
        match nth_error vrow i with
        | Some var => Some (fst acc ++ [var], snd acc ++ [cur_domain (objects h) var])
        | None => None
        end
    | None => None
    end) ([], []).

(** Lines 84-93: the all-different constraints of rows and columns. *)
Definition model_2_cons (h : heap) (variables : list (list var_id))
           (row_domains : list (list (list value))) (n : nat) (csp : CSP)
  : option CSP :=
  for_each (range 0 n) (fun i csp0 =>
    match column h variables n i with
    | Some (col_vars, col_domains) =>
        match nth_error variables i, nth_error row_domains i with
        | Some vrow, Some drow =>
            match all_diff_constraint csp0 vrow drow n with
            | Some csp1 => all_diff_constraint csp1 col_vars col_domains n
            | None => None
            end
        | _, _ => None
        end
    | None => None
    end) csp.

Definition futoshiki_csp_model_2 (h : heap) (futo_grid : grid)
  : option (CSP * list (list var_id) * heap) :=
  let n := length futo_grid in
  match futo_grid with
  | [] => None
  | row0 :: _ =>
      let num_col := length row0 in
      let csp := new_CSP ("Futoshiki CSCP Model 2 - " ++ fmt_nat n ++ "x" ++ fmt_nat n)%string in
      let '(var_domain, variables) := init_lists n in
      let row_domains := init_row_domains n in
      match for_each (range 0 n) (fun row =>
              for_each (range 0 num_col) (model_2_cell futo_grid var_domain row))
              (h, csp, variables, row_domains) with
      | Some (h', csp', variables', row_domains') =>
          match model_2_cons h' variables' row_domains' n csp' with
          | Some csp'' => Some (csp'', variables', h')
          | None => None
          end
      | None => None
      end
  end.

(** A board of three rows with no inequality and no given value. *)
Definition empty_row : list value :=
  [VInt 0; VStr "."; VInt 0; VStr "."; VInt 0].
Definition empty3 : grid := [empty_row; empty_row; empty_row].

Definition void : Var := mkVar "" [] [] None.
Definition heap0 : heap := mkHeap (fun _ => void) 0.

(** ** Notions used to state the properties *)

(** Membership of a (Variable, Value) pair in a prune record. *)
Definition pmem (p : var_id * value) (l : prunes) : bool :=
  existsb (fun q => Nat.eqb (fst q) (fst p) && value_eqb (snd q) (snd p)) l.

(** The data-model invariant of a domain: "a finite set" of values, no
    value held twice. *)
Definition store_wf (st : store) : Prop :=
  forall y, NoDup (current_domain (st y)).

(** [pruned] is the exact journal of what turned [st0] into [st]: no pair
    twice, every pair a value that the current domain of an unassigned
    variable held in [st0], every current domain of [st] what is left of
    the one of [st0] once the pairs of [pruned] are taken out, nothing else
    changed. *)
Definition journal_exact (st0 : store) (pruned : prunes) (st : store) : Prop :=
  NoDup pruned /\
  (forall y v, In (y, v) pruned ->
               In v (current_domain (st0 y)) /\ is_assigned st0 y = false) /\
  (forall y, current_domain (st y) =
             filter (fun v => negb (pmem (y, v) pruned)) (current_domain (st0 y))) /\
  (forall y, name (st y) = name (st0 y) /\
             original_domain (st y) = original_domain (st0 y) /\
             assigned_value (st y) = assigned_value (st0 y)).

(** ** A small CSP to run the propagators on *)

Definition dom123 : list value := [VInt 1; VInt 2; VInt 3].

(** Variable 0 is assigned 1, variables 1 and 2 are not assigned; the
    constraints say [0 != 1] and [1 != 2]. *)
Definition ex_st : store :=
  fun x => match x with
           | 0 => mkVar "x0" dom123 dom123 (Some (VInt 1))
           | 1 => mkVar "x1" dom123 dom123 None
           | 2 => mkVar "x2" dom123 [VInt 1; VInt 2] None
           | _ => void
           end.

Definition ex_csp : CSP :=
  mkCSP "ex" [0; 1; 2]
        [mkConstraint "C 0!=1" [0; 1] (neq_tuples dom123 dom123);
         mkConstraint "C 1!=2" [1; 2] (neq_tuples dom123 dom123)].

(** The number of values left, counted along the scopes of the
    constraints of the CSP. *)
Definition weight (csp : CSP) (st : store) : nat :=
  list_sum (map (fun c => list_sum (map (fun x => length (current_domain (st x)))
                                        (scope c)))
                (csp_cons csp)).

(** Every value left to [x] has support in [c]. *)
Definition supported (st : store) (c : Constraint) (x : var_id) : Prop :=
  forall v, In v (cur_domain st x) -> has_support st c x v = true.

(** [c] is generalized arc consistent in [st]. *)
Definition arc_consistent (st : store) (c : Constraint) : Prop :=
  forall x, In x (get_unasgn_vars st c) -> supported st c x.

(** [st'] is [st] with some values pruned: the same assignments, and no
    value in a current domain that was not there before. *)
Definition pruning (st st' : store) : Prop :=
  (forall z, assigned_value (st' z) = assigned_value (st z)) /\
  (forall z v, In v (current_domain (st' z)) -> In v (current_domain (st z))).

(** [c] is a constraint that forward checking looks at, and [y] its sole
    unassigned variable: a constraint of the CSP, touching the new
    variable if there is one, with one unassigned variable left. *)
Definition frontier (csp : CSP) (newVar : option var_id) (st : store)
           (c : Constraint) (y : var_id) : Prop :=
  In c (csp_cons csp) /\
  (forall x, newVar = Some x -> In x (scope c)) /\
  get_unasgn_vars st c = [y].

(** Positions [i] and [j] of the tuple hold the same value. *)
Definition clash (t : list value) (i j : nat) : bool :=
  match nth_error t i, nth_error t j with
  | Some a, Some b => value_eqb a b
  | _, _ => false
  end.

(** The original domain that a cell holding [cell] must get on a board of
    [n] rows: [[1, ..., n]] for 0, the given value alone otherwise. *)
Definition cell_domain (n : nat) (cell : value) : list value :=
  if value_eqb cell (VInt 0) then map (fun i => VInt (Z.of_nat i)) (seq 1 n)
  else [cell].


(** Three unassigned variables with 3, 1 and 2 values left. *)
Definition st_312 : store :=
  fun x => match x with
           | 0 => mkVar "a" [VInt 1; VInt 2; VInt 3] [VInt 1; VInt 2; VInt 3] None
           | 1 => mkVar "b" [VInt 1; VInt 2; VInt 3] [VInt 2] None
           | 2 => mkVar "c" [VInt 1; VInt 2; VInt 3] [VInt 1; VInt 3] None
           | _ => void
           end.
Definition csp_312 : CSP := mkCSP "sizes 3 1 2" [0; 1; 2] [].

(** How many cells of row [row] have their variable once the rows below
    [r] and the columns below [c] of row [r] are done. *)
Definition filled (num_col r c row : nat) : nat :=
  if Nat.ltb row r then (num_col + 1) / 2
  else if Nat.eqb row r then (c + 1) / 2
  else 0.

(** What the loop over the cells has built at row [r], column [c]. *)
Definition cells_inv (futo_grid : grid) (num_col r c : nat) (s : build1) : Prop :=
  let '(h, csp, variables) := s in
  length variables = length futo_grid /\
  (forall row vrow, nth_error variables row = Some vrow ->
                    length vrow = filled num_col r c row) /\
  (forall row vrow k x,
      nth_error variables row = Some vrow -> nth_error vrow k = Some x ->
      x < next_id h /\ In x (csp_vars csp) /\
      exists cell,
        grid_at futo_grid row (2 * k) = Some cell /\
        objects h x = mkVar ("V" ++ fmt_nat row ++ fmt_nat k)%string
                            (cell_domain (length futo_grid) cell)
                            (cell_domain (length futo_grid) cell) None).

(** ** Solutions and Latin squares *)

(** A full assignment [a] satisfies every constraint of the CSP: [check]
    on the values it gives to the scope. *)
Definition satisfies (csp : CSP) (a : var_id -> value) : bool :=
  forallb (fun c => check c (map (fun x => Some (a x)) (get_scope c)))
          (csp_cons csp).

Fixpoint nodupb (l : list value) : bool :=
  match l with
  | [] => true
  | v :: l' => negb (mem v l') && nodupb l'
  end.

(** [a] fills the board [variables] with a Latin square of order [n]:
    values among [1..n], no value twice in a row, none twice in a column. *)
Definition latin_squareb (n : nat) (variables : list (list var_id))
           (a : var_id -> value) : bool :=
  forallb (fun row =>
             forallb (fun x => mem (a x) (map (fun i => VInt (Z.of_nat i)) (seq 1 n)))
                     row) variables
  && forallb (fun row => nodupb (map a row)) variables
  && forallb (fun j => nodupb (map (fun row => a (nth j row 0)) variables))
             (seq 0 n).

(** The assignment that gives variable [x] the value at position [x]. *)
Definition of_list (l : list value) : var_id -> value :=
  fun x => nth x l (VStr "").

(** A board with a given value and an inequality sign. *)
Definition given3 : grid :=
  [[VInt 2; VStr "<"; VInt 0; VStr "."; VInt 0]; empty_row; empty_row].

(** What the two models build from the empty board of three rows. *)
Definition csp1_3 : CSP := Eval vm_compute in
  match futoshiki_csp_model_1 heap0 empty3 with
  | Some (csp, _, _) => csp
  | None => new_CSP ""
  end.
Definition csp2_3 : CSP := Eval vm_compute in
  match futoshiki_csp_model_2 heap0 empty3 with
  | Some (csp, _, _) => csp
  | None => new_CSP ""
  end.
Definition vars_3 : list (list var_id) := [[0; 1; 2]; [3; 4; 5]; [6; 7; 8]].

(** The values of [vals] that the loop removes, judged in store [st]. *)
Definition unsupported (st : store) (c : Constraint) (x : var_id)
           (vals : list value) : list value :=
  filter (fun v => negb (has_support st c x v)) vals.

(** The satisfying tuples of [c] are exactly the tuples that take, at each
    position, a value of the current domain of the variable at that
    position of the scope, and hold no value twice. *)
Definition all_different (st : store) (c : Constraint) : Prop :=
  forall t, In t (satisfying_tuples c) <->
            Forall2 (fun v x => In v (cur_domain st x)) t (scope c) /\ NoDup t.

(** What model 2 keeps true while it walks the cells: [row_domains] lists
    the current domains of [variables], and no constraint built so far
    bears the name of the all-different constraints. *)
Definition build2_inv (s : build2) : Prop :=
  let '(h, csp, variables, row_domains) := s in
  length row_domains = length variables /\
  (forall row vrow drow,
      nth_error variables row = Some vrow ->
      nth_error row_domains row = Some drow ->
      drow = map (cur_domain (objects h)) vrow) /\
  (forall c, In c (csp_cons csp) -> cname c <> ":()").

(** ** Notions used for the further properties *)

(** The full assignment [a] is still possible in [st]: it gives every
    variable of every scope a value of its current domain (for an assigned
    variable, the assigned value). *)
Definition extends (csp : CSP) (st : store) (a : var_id -> value) : Prop :=
  forall c x, In c (csp_cons csp) -> In x (scope c) -> In (a x) (cur_domain st x).

(** No pair of the prune record takes from a variable the value that [a]
    gives it. *)
Definition spares (pruned : prunes) (a : var_id -> value) : Prop :=
  forall y v, In (y, v) pruned -> v <> a y.

(** [c] is settled in [st]: every value left to each of its unassigned
    variables has support in [c], and each of them has a value left. *)
Definition stable (st : store) (c : Constraint) : Prop :=
  forall x, In x (get_unasgn_vars st c) ->
            supported st c x /\ cur_domain st x <> [].

(** [c] is one of the constraints a propagator starts from: a constraint
    of the CSP, touching the new variable if there is one. *)
Definition starts_from (csp : CSP) (newVar : option var_id) (c : Constraint) : Prop :=
  In c (csp_cons csp) /\ (forall x, newVar = Some x -> In x (scope c)).

(** A solution of [ex_csp] that [ex_st] still allows. *)
Definition ex_sol : var_id -> value := of_list [VInt 1; VInt 2; VInt 1].

(** Variables 0 and 1 are both assigned 1, against [0 != 1]. *)
Definition clash_st : store :=
  fun x => match x with
           | 0 => mkVar "x0" dom123 dom123 (Some (VInt 1))
           | 1 => mkVar "x1" dom123 dom123 (Some (VInt 1))
           | _ => void
           end.
Definition clash_csp : CSP :=
  mkCSP "clash" [0; 1] [mkConstraint "C 0!=1" [0; 1] (neq_tuples dom123 dom123)].

(** [a] and [b] are ints in the order that an inequality constraint asks
    for: [a > b] when [greater_than], [a < b] otherwise. *)
Definition int_ordered (greater_than : bool) (a b : value) : Prop :=
  match a, b with
  | VInt x, VInt y => if greater_than then (y < x)%Z else (x < y)%Z
  | _, _ => False
  end.

(** [variables[r][c]] *)
Definition cell_var (variables : list (list var_id)) (r c : nat) : option var_id :=
  match nth_error variables r with
  | Some l => nth_error l c
  | None => None
  end.

(** The satisfying tuples of [c] are the pairs of distinct values of the
    current domains of [var1] and [var2]. *)
Definition not_equal (st : store) (var1 var2 : var_id) (c : Constraint) : Prop :=
  scope c = [var1; var2] /\
  forall t, In t (satisfying_tuples c) <->
            exists a b, t = [a; b] /\ In a (cur_domain st var1) /\
                        In b (cur_domain st var2) /\ a <> b.

(** The comparison of line 133 on two ints. *)
Definition int_cmp (greater_than : bool) (a b : value) : bool :=
  match a, b with
  | VInt x, VInt y => if greater_than then (x >? y)%Z else (x <? y)%Z
  | _, _ => false
  end.

(** Some objects for [ineq_constraint]: the variables of [ex_st]. *)
Definition ex_heap : heap := mkHeap ex_st 3.

(** Two boards of the same height and width that hold the same entries
    at the even columns, where the cells are. *)
Definition same_cells (g g' : grid) : Prop :=
  length g = length g' /\
  length (hd [] g) = length (hd [] g') /\
  forall row col, col mod 2 = 0 -> grid_at g row col = grid_at g' row col.

(** [given3] with its inequality sign taken out. *)
Definition given3_no_sign : grid :=
  [[VInt 2; VStr "."; VInt 0; VStr "."; VInt 0]; empty_row; empty_row].

(** The variables that the cell loop has made are numbered in a row from
    [next_id h0] on, in the order of [variables], they are the variables
    of the CSP, and the objects that were there before are as they were. *)
Definition ids_inv (h0 : heap) (s : build1) : Prop :=
  let '(h, csp, variables) := s in
  next_id h0 <= next_id h /\
  concat variables = seq (next_id h0) (next_id h - next_id h0) /\
  csp_vars csp = concat variables /\
  forall y, y < next_id h0 -> objects h y = objects h0 y.

(** The number of cells of a row of the board. *)
Definition cells_per_row (futo_grid : grid) : nat :=
  (length (hd [] futo_grid) + 1) / 2.

(** [variables] has the shape of the board, and the board has an entry
    at every cell that the builders read. *)
Definition board_shape (futo_grid : grid) (variables : list (list var_id)) : Prop :=
  length variables = length futo_grid /\
  (forall row vrow, nth_error variables row = Some vrow ->
                    length vrow = cells_per_row futo_grid) /\
  (forall row col, row < length futo_grid -> col < length (hd [] futo_grid) ->
                   col mod 2 = 0 -> grid_at futo_grid row col <> None).

(** The variables of the board are new objects, numbered in a row in
    row-major order; they are the variables of the CSP, in that order; the
    objects that were there before are as they were. *)
Definition fresh_variables (h : heap) (futo_grid : grid) (csp : CSP)
           (variables : list (list var_id)) (h' : heap) : Prop :=
  csp_vars csp = concat variables /\
  concat variables
  = seq (next_id h) (length futo_grid * cells_per_row futo_grid) /\
  next_id h' = next_id h + length futo_grid * cells_per_row futo_grid /\
  forall y, y < next_id h -> objects h' y = objects h y.

(** ** Notions used to describe the solutions of the two models *)

(** Every cell of the board holds an int. *)
Definition int_cells (g : grid) : Prop :=
  forall row col cell,
    col mod 2 = 0 -> grid_at g row col = Some cell -> exists z, cell = VInt z.

(** [a] gives [x] and [y] two different values of their current domains. *)
Definition pair_ok (st : store) (a : var_id -> value) (x y : var_id) : Prop :=
  In (a x) (cur_domain st x) /\ In (a y) (cur_domain st y) /\ a x <> a y.

(** The cells at [(r1, c1)] and [(r2, c2)] exist and [a] gives them two
    different values of their domains. *)
Definition cells_differ (st : store) (variables : list (list var_id))
           (a : var_id -> value) (r1 c1 r2 c2 : nat) : Prop :=
  exists x y, cell_var variables r1 c1 = Some x /\
              cell_var variables r2 c2 = Some y /\ pair_ok st a x y.

(** What the two constraints that model 1 builds for [i], [j], [k] ask of
    [a]: cells [j] and [k] of row [i] differ, and so do cells [j] and [k]
    of column [i]. *)
Definition model_1_cond (st : store) (variables : list (list var_id))
           (a : var_id -> value) (i j k : nat) : Prop :=
  cells_differ st variables a i j i k /\ cells_differ st variables a j i k i.

(** The first [n] cells of a line (a row or a column, given by its cells
    in order) exist, and [a] gives them values of their domains, no two
    the same. *)
Definition line_ok (st : store) (a : var_id -> value)
           (cells : nat -> option var_id) (n : nat) : Prop :=
  (forall j, j < n -> exists x, cells j = Some x /\ In (a x) (cur_domain st x)) /\
  (forall j1 j2 x y, j1 < j2 -> j2 < n ->
                     cells j1 = Some x -> cells j2 = Some y -> a x <> a y).

(** [a] gives to the variable of every cell the value that [v] gives to
    the cell: [v] is an assignment by position on the board. *)
Definition gives (variables : list (list var_id)) (a : var_id -> value)
           (v : nat -> nat -> value) : Prop :=
  forall r c x, cell_var variables r c = Some x -> a x = v r c.

(** The assignment to nine variables numbered from [0] in row-major order
    that fills a board of three rows with [v]. *)
Definition fill3 (v : nat -> nat -> value) (x : var_id) : value :=
  v (x / 3) (x mod 3).

(** A Latin square of order three, by position. *)
Definition latin3 (r c : nat) : value :=
  VInt (Z.of_nat ((r + c) mod 3 + 1)).

(** ** Notions used to state where forward checking stops *)

(** The constraints that [prop_FC] walks, in the order it walks them
    (line 97). *)
Definition FC_start (csp : CSP) (newVar : option var_id) : list Constraint :=
  match newVar with
  | None => get_all_cons csp
  | Some x => get_cons_with_var csp x
  end.

(** [v] is a value of the current domain of [y] without support in a
    constraint of [cs] that has [y] as its one unassigned variable. *)
Definition lacks_support (st : store) (cs : list Constraint) (y : var_id)
           (v : value) : Prop :=
  exists c, In c cs /\ get_unasgn_vars st c = [y] /\
            In v (cur_domain st y) /\ has_support st c y v = false.

(** Forward checking over [cs] leaves [y] no value. *)
Definition wiped_out (st : store) (cs : list Constraint) (y : var_id) : Prop :=
  forall v, In v (cur_domain st y) -> lacks_support st cs y v.

(** Variable 0 is assigned 1; variable 1 has the one value 1 left;
    variables 2 and 3 have 1 and 2. The constraints say [0 != 2],
    [0 != 1] and [0 != 3], in that order. *)
Definition wipe_st : store :=
  fun x => match x with
           | 0 => mkVar "x0" dom123 dom123 (Some (VInt 1))
           | 1 => mkVar "x1" dom123 [VInt 1] None
           | 2 => mkVar "x2" dom123 [VInt 1; VInt 2] None
           | 3 => mkVar "x3" dom123 [VInt 1; VInt 2] None
           | _ => void
           end.

Definition wipe_csp : CSP :=
  mkCSP "wipe" [0; 1; 2; 3]
        [mkConstraint "C 0!=2" [0; 2] (neq_tuples dom123 dom123);
         mkConstraint "C 0!=1" [0; 1] (neq_tuples dom123 dom123);
         mkConstraint "C 0!=3" [0; 3] (neq_tuples dom123 dom123)].

(** A board of two rows of three cells: not square. *)
Definition wide2 : grid := [empty_row; empty_row].

(** * Properties *)

(** ** Running the monad *)

Lemma in_get_cons_with_var csp x c :
  In c (get_cons_with_var csp x) <-> In c (csp_cons csp) /\ In x (scope c).
Proof.
  unfold get_cons_with_var. rewrite filter_In, existsb_exists.
  split; intros [H1 H2]; split; trivial.
  - destruct H2 as [y [Hy E]]. apply Nat.eqb_eq in E. now subst.
  - exists x. split; trivial. apply Nat.eqb_refl.
Qed.

(** ** prop_BT *)

Lemma BT_loop_spec cs st :
  exists b, BT_loop cs st = Some ((b, []), st) /\
    (b = false <->
     exists c, In c cs /\ get_n_unasgn st c = 0 /\ check c (assigned_vals st c) = false).
Proof.
  induction cs as [|c cs IH]; simpl.
  - exists true. split; [reflexivity|]. split; [discriminate|]. now intros [c [[] _]].
  - unfold bind, gets. destruct (Nat.eqb_spec (get_n_unasgn st c) 0) as [E|E].
    + destruct (check c (assigned_vals st c)) eqn:K; simpl.
      * destruct IH as [b [R Hb]]. exists b. split; [exact R|].
        rewrite Hb. split; intros [d [Hd [H0 H1]]]; exists d.
        -- auto.
        -- destruct Hd as [->|Hd]; [congruence|auto].
      * exists false. split; [reflexivity|]. split; [|reflexivity].
        intros _. exists c. auto.
    + destruct IH as [b [R Hb]]. exists b. split; [exact R|].
      rewrite Hb. split; intros [d [Hd [H0 H1]]]; exists d.
      * auto.
      * destruct Hd as [->|Hd]; [contradiction|auto].
Qed.

(** C5. [prop_BT] with no new variable returns [(True, [])]; with a newly
    assigned variable [x] it returns [False] exactly when some constraint
    of the CSP whose scope contains [x] has no unassigned variable and
    fails [check] on the assigned values of its scope; the prune list is
    always empty and the store is left as it was. *)
Theorem prop_BT_checks_full_constraints (csp : CSP) (newVar : option var_id) (st : store) :
  exists b, prop_BT csp newVar st = Some ((b, []), st) /\
    match newVar with
    | None => b = true
    | Some x =>
        b = false <->
        exists c, (In c (csp_cons csp) /\ In x (scope c)) /\
                  get_n_unasgn st c = 0 /\
                  check c (map (get_assigned_value st) (get_scope c)) = false
    end.
Proof.
  destruct newVar as [x|]; simpl.
  - destruct (BT_loop_spec (get_cons_with_var csp x) st) as [b [R Hb]].
    exists b. split; [exact R|]. rewrite Hb.
    split; intros [c [Hc H]]; exists c; (split; [|exact H]);
      now apply in_get_cons_with_var.
  - now exists true.
Qed.

(** ** ord_mrv *)

Lemma count_values_length l : count_values l = length l.
Proof.
  unfold count_values.
  assert (G : forall n, fold_left (fun count (_ : value) => count + 1) l n = n + length l).
  { induction l as [|a l IH]; intros n; simpl; [lia|]. rewrite IH. lia. }
  apply (G 0).
Qed.

Section MRV.
Variable st : store.

Let size (x : var_id) : nat := length (cur_domain st x).

Lemma mrv_loop_Some xs : forall d m,
  let r := mrv_loop st xs (Some d) m in
  (r = m /\ forall y, In y xs -> d <= size y) \/
  (exists pre post, xs = pre ++ r :: post /\ size r < d /\
     (forall y, In y pre -> size r < size y) /\
     (forall y, In y post -> size r <= size y)).
Proof.
  induction xs as [|x xs IH]; intros d m; simpl.
  - left. split; [reflexivity|]. intros y [].
  - rewrite count_values_length. fold (size x).
    destruct (Nat.ltb_spec (size x) d) as [L|L].
    + right. destruct (IH (size x) x) as [[E H]|[pre [post [E [H1 [H2 H3]]]]]].
      * exists [], xs. rewrite E. simpl. repeat split; auto. intros y [].
      * exists (x :: pre), post. simpl. rewrite <- E.
        repeat split; auto; [lia|]. intros y [<-|Hy]; auto.
    + destruct (IH d m) as [[E H]|[pre [post [E [H1 [H2 H3]]]]]].
      * left. split; [exact E|]. intros y [<-|Hy]; auto.
      * right. exists (x :: pre), post. simpl. rewrite <- E.
        repeat split; auto. intros y [<-|Hy]; auto. lia.
Qed.

Lemma mrv_loop_None x xs m :
  exists pre post, x :: xs = pre ++ mrv_loop st (x :: xs) None m :: post /\
    (forall y, In y pre -> size (mrv_loop st (x :: xs) None m) < size y) /\
    (forall y, In y post -> size (mrv_loop st (x :: xs) None m) <= size y).
Proof.
  simpl. rewrite count_values_length. fold (size x).
  destruct (mrv_loop_Some xs (size x) x) as [[E H]|[pre [post [E [H1 [H2 H3]]]]]].
  - exists [], xs. rewrite E. simpl. repeat split; auto. intros y [].
  - exists (x :: pre), post. simpl. rewrite <- E. repeat split; auto.
    intros y [<-|Hy]; auto.
Qed.
End MRV.

(** C6. On a CSP with at least one variable [ord_mrv] returns a variable
    of the listing [get_all_vars] (assigned ones included, none filtered
    out) whose current domain is no larger than that of any variable after
    it and strictly smaller than that of every variable before it: the
    smallest current domain, the first one on ties. *)
Theorem ord_mrv_first_minimum (csp : CSP) (st : store) :
  get_all_vars csp <> [] ->
  exists pre x post,
    ord_mrv csp st = Some x /\
    get_all_vars csp = pre ++ x :: post /\
    (forall y, In y pre -> length (cur_domain st x) < length (cur_domain st y)) /\
    (forall y, In y post -> length (cur_domain st x) <= length (cur_domain st y)).
Proof.
  intros NE. unfold ord_mrv.
  destruct (get_all_vars csp) as [|x0 xs] eqn:E; [congruence|].
  destruct (mrv_loop_None st x0 xs x0) as [pre [post [H1 [H2 H3]]]].
  exists pre, (mrv_loop st (x0 :: xs) None x0), post. auto.
Qed.

Lemma ord_mrv_312 : ord_mrv csp_312 st_312 = Some 1.
Proof. reflexivity. Qed.

Lemma ord_mrv_first_minimum_witness :
  exists pre x post,
    ord_mrv csp_312 st_312 = Some x /\
    get_all_vars csp_312 = pre ++ x :: post /\
    (forall y, In y pre ->
               length (cur_domain st_312 x) < length (cur_domain st_312 y)) /\
    (forall y, In y post ->
               length (cur_domain st_312 x) <= length (cur_domain st_312 y)).
Proof.
  apply (ord_mrv_first_minimum csp_312 st_312). simpl. discriminate.
Defined.

(** ** Values, membership and pruning *)

Lemma value_eqb_eq a b : value_eqb a b = true <-> a = b.
Proof.
  unfold value_eqb. destruct (value_eq_dec a b); split; congruence.
Qed.

Lemma value_eqb_refl a : value_eqb a a = true.
Proof. now apply value_eqb_eq. Qed.

Lemma mem_In v l : mem v l = true <-> In v l.
Proof.
  unfold mem. rewrite existsb_exists. split.
  - intros [u [Hu E]]. apply value_eqb_eq in E. now subst.
  - intros H. exists v. split; [exact H | apply value_eqb_refl].
Qed.

Lemma remove_filter v l :
  remove value_eq_dec v l = filter (fun u => negb (mem u [v])) l.
Proof.
  induction l as [|u l IH]; simpl; [reflexivity|].
  unfold value_eqb. destruct (value_eq_dec v u) as [->|N].
  - destruct (value_eq_dec u u); [simpl; exact IH | congruence].
  - destruct (value_eq_dec u v); [congruence|]. simpl. now rewrite IH.
Qed.

Lemma filter_filter {A} (f g : A -> bool) l :
  filter f (filter g l) = filter (fun a => g a && f a) l.
Proof.
  induction l as [|a l IH]; simpl; [reflexivity|].
  destruct (g a); simpl; [destruct (f a)|]; now rewrite IH.
Qed.

Lemma filter_all {A} (f : A -> bool) l :
  (forall a, In a l -> f a = true) -> filter f l = l.
Proof.
  induction l as [|a l IH]; simpl; intros H; [reflexivity|].
  rewrite (H a (or_introl eq_refl)). f_equal. apply IH. auto.
Qed.

Lemma upd_same st x o : upd st x o x = o.
Proof. unfold upd. now rewrite Nat.eqb_refl. Qed.

Lemma upd_other st x o y : y <> x -> upd st x o y = st y.
Proof. unfold upd. intros N. apply Nat.eqb_neq in N. now rewrite N. Qed.

(** ** Support depends on the other variables of the scope only *)

Lemma tuple_consistent_agree st st' x v sc :
  (forall z, In z sc -> z <> x -> cur_domain st' z = cur_domain st z) ->
  forall t, tuple_consistent st' sc t x v = tuple_consistent st sc t x v.
Proof.
  induction sc as [|y sc IH]; intros H t; destruct t as [|u t]; simpl; trivial.
  rewrite IH by (intros z Hz; apply H; now right). f_equal.
  destruct (Nat.eqb_spec y x) as [E|N]; [reflexivity|].
  rewrite H; [reflexivity | now left | exact N].
Qed.

Lemma has_support_agree st st' c x v :
  (forall z, In z (scope c) -> z <> x -> cur_domain st' z = cur_domain st z) ->
  has_support st' c x v = has_support st c x v.
Proof.
  intros H. unfold has_support.
  induction (satisfying_tuples c) as [|t ts IH]; simpl; [reflexivity|].
  rewrite IH. f_equal. now apply tuple_consistent_agree.
Qed.

(** ** The loops over the values of one variable *)

Lemma prune_value_Some x v st st1 :
  prune_value x v st = Some (tt, st1) ->
  In v (current_domain (st x)) /\
  (forall y, y <> x -> st1 y = st y) /\
  name (st1 x) = name (st x) /\
  original_domain (st1 x) = original_domain (st x) /\
  assigned_value (st1 x) = assigned_value (st x) /\
  current_domain (st1 x) = filter (fun u => negb (mem u [v])) (current_domain (st x)).
Proof.
  unfold prune_value. destruct (mem v (current_domain (st x))) eqn:E; [|discriminate].
  intros H. injection H as <-. apply mem_In in E.
  split; [exact E|]. split; [intros y N; now apply upd_other|].
  rewrite upd_same. simpl. repeat split. apply remove_filter.
Qed.

Lemma cur_domain_frame st st1 x z :
  (forall y, y <> x -> st1 y = st y) -> z <> x -> cur_domain st1 z = cur_domain st z.
Proof. intros H N. unfold cur_domain. now rewrite H. Qed.

Lemma GAC_values_spec c x vals : forall pruned pf st pruned' pf' st',
  GAC_values c x vals pruned pf st = Some ((pruned', pf'), st') ->
  let removed := unsupported st c x vals in
  pruned' = pruned ++ map (pair x) removed /\
  pf' = (pf || negb (Nat.eqb (length removed) 0)) /\
  (removed = [] -> st' = st) /\
  (forall y, y <> x -> st' y = st y) /\
  name (st' x) = name (st x) /\
  original_domain (st' x) = original_domain (st x) /\
  assigned_value (st' x) = assigned_value (st x) /\
  current_domain (st' x) =
    filter (fun u => negb (mem u removed)) (current_domain (st x)) /\
  NoDup removed /\
  (forall v, In v removed -> In v (current_domain (st x))).
Proof.
  induction vals as [|v vals IH]; intros pruned pf st pruned' pf' st' H; simpl in *.
  - injection H as <- <- <-. rewrite app_nil_r, orb_false_r.
    repeat split; auto; [|constructor|intros v []].
    symmetry. now apply filter_all.
  - unfold bind, gets in H. unfold unsupported. simpl.
    destruct (has_support st c x v) eqn:S; simpl in H |- *.
    + now apply IH in H.
    + destruct (prune_value x v st) as [[[] st1]|] eqn:P; [|discriminate].
      apply prune_value_Some in P. destruct P as (P1 & P2 & P3 & P4 & P5 & P6).
      apply IH in H. cbv zeta in H.
      assert (E : unsupported st1 c x vals = unsupported st c x vals).
      { unfold unsupported. apply filter_ext. intros u. f_equal.
        apply has_support_agree. intros z _ N. now apply cur_domain_frame with x. }
      rewrite E in H. fold (unsupported st c x vals).
      destruct H as (H1 & H2 & _ & H4 & H5 & H6 & H7 & H8 & H9 & H10).
      split; [rewrite H1, <- app_assoc; reflexivity|].
      split; [rewrite H2; simpl; now rewrite orb_true_r|].
      split; [discriminate|].
      split; [intros y N; rewrite H4, P2; trivial|].
      split; [congruence|]. split; [congruence|]. split; [congruence|].
      split.
      { rewrite H8, P6, filter_filter. apply filter_ext. intros u. simpl.
        rewrite orb_false_r. destruct (value_eqb u v); reflexivity. }
      split.
      { constructor; [|exact H9]. intros K. apply H10 in K. rewrite P6 in K.
        apply filter_In in K. destruct K as [_ K]. simpl in K.
        now rewrite value_eqb_refl in K. }
      intros u [<-|K]; [exact P1|]. apply H10 in K. rewrite P6 in K.
      now apply filter_In in K.
Qed.

(** [prop_FC] runs the same loop, without the flag. *)
Lemma FC_values_GAC c x vals : forall pruned pf st,
  FC_values c x vals pruned st =
  match GAC_values c x vals pruned pf st with
  | Some ((pruned', _), st') => Some (pruned', st')
  | None => None
  end.
Proof.
  induction vals as [|v vals IH]; intros pruned pf st; simpl; [reflexivity|].
  unfold bind, gets. destruct (has_support st c x v); simpl.
  - apply IH.
  - destruct (prune_value x v st) as [[[] st1]|]; [apply IH | reflexivity].
Qed.

(** The loop raises only if it is handed a value that is not in the
    current domain, or the same value twice. *)
Lemma GAC_values_total c x vals : forall pruned pf st,
  NoDup vals -> (forall v, In v vals -> In v (current_domain (st x))) ->
  exists r, GAC_values c x vals pruned pf st = Some r.
Proof.
  induction vals as [|v vals IH]; intros pruned pf st ND Sub; simpl.
  - eexists. reflexivity.
  - inversion ND as [|? ? Nv ND']. subst. unfold bind, gets.
    destruct (has_support st c x v); simpl.
    + apply IH; auto. intros u Hu. apply Sub. now right.
    + unfold prune_value at 1.
      assert (Hm : mem v (current_domain (st x)) = true)
        by (apply mem_In, Sub; now left).
      rewrite Hm. apply IH; [exact ND'|]. intros u Hu.
      rewrite upd_same. simpl. apply in_in_remove.
      * intros ->. contradiction.
      * apply Sub. now right.
Qed.

(** ** The prune record is exact *)

Lemma pmem_In p l : pmem p l = true <-> In p l.
Proof.
  unfold pmem. rewrite existsb_exists. destruct p as [y v]. simpl. split.
  - intros [[z u] [Hq E]]. simpl in E. apply andb_true_iff in E.
    destruct E as [E1 E2]. apply Nat.eqb_eq in E1. apply value_eqb_eq in E2.
    now subst.
  - intros H. exists (y, v). split; [exact H|]. simpl.
    now rewrite Nat.eqb_refl, value_eqb_refl.
Qed.

Lemma pmem_app p l1 l2 : pmem p (l1 ++ l2) = pmem p l1 || pmem p l2.
Proof. unfold pmem. apply existsb_app. Qed.

Lemma pmem_map_other x y v l : y <> x -> pmem (y, v) (map (pair x) l) = false.
Proof.
  intros N. destruct (pmem (y, v) (map (pair x) l)) eqn:E; [|reflexivity].
  apply pmem_In, in_map_iff in E. destruct E as [u [E _]]. congruence.
Qed.

Lemma pmem_map_same x v l : pmem (x, v) (map (pair x) l) = mem v l.
Proof.
  induction l as [|u l IH]; [reflexivity|].
  change (pmem (x, v) (map (pair x) (u :: l)))
    with ((Nat.eqb x x && value_eqb u v) || pmem (x, v) (map (pair x) l)).
  rewrite IH, Nat.eqb_refl. simpl. f_equal.
  unfold value_eqb. destruct (value_eq_dec u v), (value_eq_dec v u); congruence.
Qed.

Lemma NoDup_map_pair (x : var_id) (l : list value) :
  NoDup l -> NoDup (map (pair x) l).
Proof.
  induction 1 as [|v l Nv ND IH]; simpl; constructor; trivial.
  rewrite in_map_iff. intros [u [E Hu]]. injection E as ->. contradiction.
Qed.

Lemma journal_exact_nil st : journal_exact st [] st.
Proof.
  split; [constructor|]. split; [intros y v []|].
  split; [|now intros y]. intros y. symmetry. now apply filter_all.
Qed.

Lemma journal_exact_assigned st0 pruned st x :
  journal_exact st0 pruned st -> is_assigned st x = is_assigned st0 x.
Proof.
  intros (_ & _ & _ & H). unfold is_assigned. destruct (H x) as (_ & _ & ->).
  reflexivity.
Qed.

Lemma journal_exact_values c x vals pruned pf st0 st pruned' pf' st' :
  journal_exact st0 pruned st ->
  is_assigned st x = false ->
  GAC_values c x vals pruned pf st = Some ((pruned', pf'), st') ->
  journal_exact st0 pruned' st'.
Proof.
  intros J U H. assert (U0 : is_assigned st0 x = false)
    by now rewrite <- (journal_exact_assigned x J).
  destruct J as (J1 & J2 & J3 & J4).
  apply GAC_values_spec in H. cbv zeta in H.
  destruct H as (H1 & _ & _ & H4 & H5 & H6 & H7 & H8 & H9 & H10).
  set (removed := unsupported st c x vals) in *.
  assert (Hin : forall v, In v removed ->
                  In v (current_domain (st0 x)) /\ pmem (x, v) pruned = false).
  { intros v Hv. apply H10 in Hv. rewrite J3 in Hv. apply filter_In in Hv.
    destruct Hv as [Hv K]. split; [exact Hv|]. now apply negb_true_iff in K. }
  subst pruned'. split; [|split; [|split]].
  - apply NoDup_app; [exact J1 | now apply NoDup_map_pair |].
    intros [y v] Hp Hm. apply in_map_iff in Hm. destruct Hm as [u [E Hu]].
    injection E as <- <-. apply Hin in Hu. destruct Hu as [_ K].
    apply pmem_In in Hp. congruence.
  - intros y v H. apply in_app_or in H. destruct H as [H|H]; [now apply J2|].
    apply in_map_iff in H. destruct H as [u [E Hu]]. injection E as <- <-.
    split; [now apply Hin | exact U0].
  - intros y. destruct (Nat.eq_dec y x) as [->|N].
    + rewrite H8, J3, filter_filter. apply filter_ext. intros u.
      now rewrite pmem_app, pmem_map_same, negb_orb.
    + rewrite H4, J3 by exact N. apply filter_ext. intros u.
      now rewrite pmem_app, (pmem_map_other u removed N), orb_false_r.
  - intros y. destruct (Nat.eq_dec y x) as [->|N].
    + rewrite H5, H6, H7. apply J4.
    + rewrite H4 by exact N. apply J4.
Qed.

Lemma journal_exact_GAC_vars csp c st0 xs : forall pruned queue st b pruned' queue' st',
  journal_exact st0 pruned st ->
  (forall x, In x xs -> is_assigned st0 x = false) ->
  GAC_vars csp c xs pruned queue st = Some ((b, pruned', queue'), st') ->
  journal_exact st0 pruned' st'.
Proof.
  induction xs as [|x xs IH]; intros pruned queue st b pruned' queue' st' J U H;
    simpl in H.
  - injection H as <- <- <- <-. exact J.
  - unfold bind, gets in H.
    destruct (GAC_values c x (cur_domain st x) pruned false st)
      as [[[p1 f1] st1]|] eqn:V; [|discriminate].
    assert (J1 : journal_exact st0 p1 st1).
    { eapply journal_exact_values; [exact J| |exact V].
      rewrite (journal_exact_assigned x J). apply U. now left. }
    simpl in H. destruct (Nat.eqb (length (cur_domain st1 x)) 0).
    + injection H as <- <- <- <-. exact J1.
    + destruct f1; (eapply IH; [exact J1| |exact H]); intros y Hy; apply U; now right.
Qed.

Lemma get_unasgn_vars_unassigned st c x :
  In x (get_unasgn_vars st c) -> In x (scope c) /\ is_assigned st x = false.
Proof.
  unfold get_unasgn_vars. rewrite filter_In, negb_true_iff. tauto.
Qed.

Lemma journal_exact_GAC_loop csp st0 fuel : forall queue pruned st b pruned' st',
  journal_exact st0 pruned st ->
  GAC_loop fuel csp queue pruned st = Returns (b, pruned') st' ->
  journal_exact st0 pruned' st'.
Proof.
  induction fuel as [|fuel IH]; intros queue pruned st b pruned' st' J H;
    destruct queue as [|c queue]; simpl in H; try discriminate.
  - injection H as <- <- <-. exact J.
  - injection H as <- <- <-. exact J.
  - destruct (GAC_vars csp c (get_unasgn_vars st c) pruned queue st)
      as [[[[b1 p1] q1] st1]|] eqn:V; [|discriminate].
    assert (J1 : journal_exact st0 p1 st1).
    { eapply journal_exact_GAC_vars; [exact J| |exact V].
      intros x Hx. rewrite <- (journal_exact_assigned x J).
      now apply get_unasgn_vars_unassigned in Hx. }
    destruct b1.
    + eapply IH; eassumption.
    + injection H as <- <- <-. exact J1.
Qed.

Lemma journal_exact_FC_scope c st0 xs : forall pruned st b pruned' st',
  journal_exact st0 pruned st ->
  FC_scope c xs pruned st = Some ((b, pruned'), st') ->
  journal_exact st0 pruned' st'.
Proof.
  induction xs as [|x xs IH]; intros pruned st b pruned' st' J H; simpl in H.
  - injection H as <- <- <-. exact J.
  - unfold bind, gets in H. destruct (is_assigned st x) eqn:A; simpl in H.
    + eapply IH; eassumption.
    + rewrite (FC_values_GAC c x (cur_domain st x) pruned false st) in H.
      destruct (GAC_values c x (cur_domain st x) pruned false st)
        as [[[p1 f1] st1]|] eqn:V; [|discriminate].
      assert (J1 : journal_exact st0 p1 st1)
        by (eapply journal_exact_values; eassumption).
      destruct (Nat.eqb (length (cur_domain st1 x)) 0).
      * injection H as <- <- <-. exact J1.
      * eapply IH; eassumption.
Qed.

Lemma journal_exact_FC_cons st0 cs : forall pruned st b pruned' st',
  journal_exact st0 pruned st ->
  FC_cons cs pruned st = Some ((b, pruned'), st') ->
  journal_exact st0 pruned' st'.
Proof.
  induction cs as [|c cs IH]; intros pruned st b pruned' st' J H; simpl in H.
  - injection H as <- <- <-. exact J.
  - unfold bind, gets in H. destruct (Nat.eqb (get_n_unasgn st c) 1).
    + destruct (FC_scope c (get_scope c) pruned st) as [[[b1 p1] st1]|] eqn:V;
        [|discriminate].
      assert (J1 : journal_exact st0 p1 st1)
        by (eapply journal_exact_FC_scope; eassumption).
      simpl in H. destruct b1.
      * eapply IH; eassumption.
      * injection H as <- <- <-. exact J1.
    + eapply IH; eassumption.
Qed.

(** C2. Whatever [prop_FC] or [prop_GAC] returns, [True] or [False], the
    returned list is the exact record of the prunes of that call: no pair
    twice, every pair a value that was in the current domain of an
    unassigned variable when the call began, and every current domain at
    the end is the one at the beginning less the pairs of the list, so
    every removal, also one made before a wipeout, is in the list. *)
Theorem prune_list_exact (csp : CSP) (newVar : option var_id) (st : store) :
  (forall b pruned st',
      prop_FC csp newVar st = Some ((b, pruned), st') ->
      journal_exact st pruned st') /\
  (forall fuel b pruned st',
      prop_GAC fuel csp newVar st = Returns (b, pruned) st' ->
      journal_exact st pruned st').
Proof.
  split.
  - intros b pruned st' H. eapply journal_exact_FC_cons; [|exact H].
    apply journal_exact_nil.
  - intros fuel b pruned st' H. eapply journal_exact_GAC_loop; [|exact H].
    apply journal_exact_nil.
Qed.

Lemma prune_list_exact_witness :
  (exists b pruned st',
      prop_FC ex_csp (Some 0) ex_st = Some ((b, pruned), st') /\
      journal_exact ex_st pruned st') /\
  (exists b pruned st',
      prop_GAC 5 ex_csp (Some 0) ex_st = Returns (b, pruned) st' /\
      journal_exact ex_st pruned st').
Proof.
  split.
  - eexists _, _, _. split; [vm_compute; reflexivity|].
    eapply (proj1 (prune_list_exact ex_csp (Some 0) ex_st)). vm_compute. reflexivity.
  - eexists _, _, _. split; [vm_compute; reflexivity|].
    eapply (proj2 (prune_list_exact ex_csp (Some 0) ex_st) 5). vm_compute. reflexivity.
Defined.

(** ** prune_value is never handed an absent value *)

Lemma store_wf_exact st0 pruned st :
  store_wf st0 -> journal_exact st0 pruned st -> store_wf st.
Proof.
  intros W (_ & _ & J & _) y. rewrite J. apply NoDup_filter, W.
Qed.

Lemma cur_domain_unassigned st x :
  is_assigned st x = false -> cur_domain st x = current_domain (st x).
Proof.
  unfold is_assigned, cur_domain. now destruct (assigned_value (st x)).
Qed.

Lemma GAC_values_runs c x st0 pruned pf st :
  store_wf st0 -> journal_exact st0 pruned st -> is_assigned st x = false ->
  exists r, GAC_values c x (cur_domain st x) pruned pf st = Some r.
Proof.
  intros W J U. rewrite (cur_domain_unassigned _ _ U).
  apply GAC_values_total; [|auto]. now apply (store_wf_exact W J).
Qed.

Lemma GAC_vars_runs csp c st0 xs : forall pruned queue st,
  store_wf st0 -> journal_exact st0 pruned st ->
  (forall x, In x xs -> is_assigned st0 x = false) ->
  exists r, GAC_vars csp c xs pruned queue st = Some r.
Proof.
  induction xs as [|x xs IH]; intros pruned queue st W J U; simpl.
  - eexists. reflexivity.
  - unfold bind, gets.
    assert (Ux : is_assigned st x = false)
      by (rewrite (journal_exact_assigned x J); apply U; now left).
    destruct (@GAC_values_runs c x st0 pruned false st W J Ux) as [[[p1 f1] st1] V].
    rewrite V. simpl.
    assert (J1 : journal_exact st0 p1 st1)
      by (eapply journal_exact_values; eassumption).
    destruct (Nat.eqb (length (cur_domain st1 x)) 0); [eexists; reflexivity|].
    destruct f1; apply IH; auto; intros y Hy; apply U; now right.
Qed.

Lemma GAC_loop_no_raise csp st0 fuel : forall queue pruned st,
  store_wf st0 -> journal_exact st0 pruned st ->
  GAC_loop fuel csp queue pruned st <> Raises.
Proof.
  induction fuel as [|fuel IH]; intros queue pruned st W J;
    destruct queue as [|c queue]; simpl; try discriminate.
  assert (U : forall x, In x (get_unasgn_vars st c) -> is_assigned st0 x = false).
  { intros x Hx. rewrite <- (journal_exact_assigned x J).
    now apply get_unasgn_vars_unassigned in Hx. }
  destruct (@GAC_vars_runs csp c st0 _ pruned queue st W J U)
    as [[[[b1 p1] q1] st1] V].
  rewrite V. destruct b1; [|discriminate].
  apply IH; [exact W|]. eapply journal_exact_GAC_vars; eassumption.
Qed.

Lemma FC_scope_runs c st0 xs : forall pruned st,
  store_wf st0 -> journal_exact st0 pruned st ->
  exists r, FC_scope c xs pruned st = Some r.
Proof.
  induction xs as [|x xs IH]; intros pruned st W J; simpl.
  - eexists. reflexivity.
  - unfold bind, gets. destruct (is_assigned st x) eqn:A; simpl; [now apply IH|].
    rewrite (FC_values_GAC c x (cur_domain st x) pruned false st).
    destruct (@GAC_values_runs c x st0 pruned false st W J A) as [[[p1 f1] st1] V].
    rewrite V.
    destruct (Nat.eqb (length (cur_domain st1 x)) 0); [eexists; reflexivity|].
    apply IH; [exact W|]. eapply journal_exact_values; eassumption.
Qed.

Lemma FC_cons_runs st0 cs : forall pruned st,
  store_wf st0 -> journal_exact st0 pruned st ->
  exists r, FC_cons cs pruned st = Some r.
Proof.
  induction cs as [|c cs IH]; intros pruned st W J; simpl.
  - eexists. reflexivity.
  - unfold bind, gets. destruct (Nat.eqb (get_n_unasgn st c) 1); [|now apply IH].
    destruct (@FC_scope_runs c st0 (get_scope c) pruned st W J) as [[[b1 p1] st1] V].
    rewrite V. simpl. destruct b1; [|eexists; reflexivity].
    apply IH; [exact W|]. eapply journal_exact_FC_scope; eassumption.
Qed.

(** C7. In the model [prune_value] raises exactly when it is handed a
    value that its variable's current domain does not hold, and a raise
    ends the call. On a store whose domains hold no value twice [prop_FC]
    returns and [prop_GAC] never raises, however long it is run: every
    [prune_value] of the call was handed a value present at that moment;
    and no pair is in the returned list twice. *)
Theorem prune_value_always_on_present_value
        (csp : CSP) (newVar : option var_id) (st : store) :
  store_wf st ->
  (exists b pruned st',
      prop_FC csp newVar st = Some ((b, pruned), st') /\ NoDup pruned) /\
  (forall fuel,
      match prop_GAC fuel csp newVar st with
      | Returns (_, pruned) _ => NoDup pruned
      | Raises => False
      | OutOfFuel => True
      end).
Proof.
  intros W. split.
  - destruct (@FC_cons_runs st (match newVar with
                                 | None => get_all_cons csp
                                 | Some x => get_cons_with_var csp x
                                 end) [] st W (journal_exact_nil st))
      as [[[b p] st'] R].
    exists b, p, st'. split; [exact R|].
    eapply journal_exact_FC_cons in R; [|apply journal_exact_nil]. apply R.
  - intros fuel. destruct (prop_GAC fuel csp newVar st) as [[b p] st'| |] eqn:R;
      trivial.
    + eapply journal_exact_GAC_loop in R; [|apply journal_exact_nil]. apply R.
    + exact (@GAC_loop_no_raise csp st fuel _ [] st W (journal_exact_nil st) R).
Qed.

Lemma prune_value_always_on_present_value_witness :
  (exists b pruned st',
      prop_FC ex_csp (Some 0) ex_st = Some ((b, pruned), st') /\ NoDup pruned) /\
  (forall fuel,
      match prop_GAC fuel ex_csp (Some 0) ex_st with
      | Returns (_, pruned) _ => NoDup pruned
      | Raises => False
      | OutOfFuel => True
      end).
Proof.
  apply (@prune_value_always_on_present_value ex_csp (Some 0) ex_st).
  intros [|[|[|y]]]; simpl; repeat constructor; simpl; intuition discriminate.
Defined.

(** ** prop_GAC terminates *)

Lemma filter_length_lt {A} (f : A -> bool) l a :
  In a l -> f a = false -> length (filter f l) < length l.
Proof.
  induction l as [|b l IH]; simpl; intros H E; [contradiction|].
  destruct H as [->|H].
  - rewrite E. pose proof (filter_length_le f l). lia.
  - specialize (IH H E). destruct (f b); simpl; lia.
Qed.

Section Weight.
Variable csp : CSP.
Variables st st' : store.
Hypothesis shrink : forall y,
  length (current_domain (st' y)) <= length (current_domain (st y)).

Lemma scope_sum_le sc :
  list_sum (map (fun x => length (current_domain (st' x))) sc)
  <= list_sum (map (fun x => length (current_domain (st x))) sc).
Proof.
  induction sc as [|y sc IH]; simpl; [lia|]. specialize (shrink y). lia.
Qed.

Lemma scope_sum_lt sc x :
  In x sc ->
  length (current_domain (st' x)) < length (current_domain (st x)) ->
  list_sum (map (fun x => length (current_domain (st' x))) sc)
  < list_sum (map (fun x => length (current_domain (st x))) sc).
Proof.
  induction sc as [|y sc IH]; simpl; intros H L; [contradiction|].
  destruct H as [->|H].
  - pose proof (scope_sum_le sc). lia.
  - specialize (IH H L). specialize (shrink y). lia.
Qed.

Lemma cons_sum_le cs :
  list_sum (map (fun c => list_sum (map (fun x => length (current_domain (st' x)))
                                        (scope c))) cs)
  <= list_sum (map (fun c => list_sum (map (fun x => length (current_domain (st x)))
                                           (scope c))) cs).
Proof.
  induction cs as [|c cs IH]; simpl; [lia|].
  pose proof (scope_sum_le (scope c)). lia.
Qed.

Lemma weight_le : weight csp st' <= weight csp st.
Proof. apply cons_sum_le. Qed.

Lemma weight_lt c x :
  In c (csp_cons csp) -> In x (scope c) ->
  length (current_domain (st' x)) < length (current_domain (st x)) ->
  weight csp st' < weight csp st.
Proof.
  unfold weight. induction (csp_cons csp) as [|d cs IH]; simpl;
    intros Hc Hx L; [contradiction|].
  destruct Hc as [->|Hc].
  - pose proof (scope_sum_lt (scope c) x Hx L).
    pose proof (cons_sum_le cs). lia.
  - specialize (IH Hc Hx L). pose proof (scope_sum_le (scope d)). lia.
Qed.
End Weight.

(** One pass over the values of [x] leaves the store as it is, with the
    flag down, or takes values away, with the flag up. *)
Lemma GAC_values_progress csp c x vals pruned st pruned' pf' st' :
  In c (csp_cons csp) -> In x (scope c) ->
  GAC_values c x vals pruned false st = Some ((pruned', pf'), st') ->
  (st' = st /\ pf' = false) \/
  (weight csp st' < weight csp st /\ pf' = true).
Proof.
  intros Hc Hx H. apply GAC_values_spec in H. cbv zeta in H.
  destruct H as (_ & H2 & H3 & H4 & _ & _ & _ & H8 & _ & H10).
  destruct (unsupported st c x vals) as [|v removed] eqn:E.
  - left. split; [now apply H3 | exact H2].
  - right. split; [|exact H2].
    assert (L : length (current_domain (st' x)) < length (current_domain (st x))).
    { rewrite H8. apply filter_length_lt with v; [apply H10; now left|].
      simpl. now rewrite value_eqb_refl. }
    apply weight_lt with c x; trivial.
    intros y. destruct (Nat.eq_dec y x) as [->|N]; [lia|]. now rewrite H4.
Qed.

Lemma GAC_vars_progress csp c xs : forall pruned queue st b pruned' queue' st',
  In c (csp_cons csp) -> (forall x, In x xs -> In x (scope c)) ->
  (forall d, In d queue -> In d (csp_cons csp)) ->
  GAC_vars csp c xs pruned queue st = Some ((b, pruned', queue'), st') ->
  (forall d, In d queue' -> In d (csp_cons csp)) /\
  ((st' = st /\ queue' = queue) \/ weight csp st' < weight csp st).
Proof.
  induction xs as [|x xs IH]; intros pruned queue st b pruned' queue' st' Hc Hs Hq H;
    simpl in H.
  - injection H as <- <- <- <-. auto.
  - unfold bind, gets in H.
    destruct (GAC_values c x (cur_domain st x) pruned false st)
      as [[[p1 f1] st1]|] eqn:V; [|discriminate].
    simpl in H.
    assert (Hs' : forall y, In y xs -> In y (scope c)) by (intros y Hy; apply Hs; now right).
    apply (GAC_values_progress csp) in V; [|exact Hc|apply Hs; now left].
    destruct (Nat.eqb (length (cur_domain st1 x)) 0).
    + injection H as <- <- <- <-. split; [exact Hq|].
      destruct V as [[-> _]|[L _]]; auto.
    + destruct V as [[-> ->]|[L ->]].
      * eapply IH; eassumption.
      * apply IH in H; trivial.
        -- destruct H as [H1 [[-> _]|H2]]; split; trivial; right; [exact L|lia].
        -- intros d Hd. apply in_app_or in Hd. destruct Hd as [Hd|Hd]; [auto|].
           now apply in_get_cons_with_var in Hd.
Qed.

Lemma GAC_loop_terminates csp : forall m st,
  weight csp st <= m ->
  forall queue, (forall d, In d queue -> In d (csp_cons csp)) ->
  forall pruned, exists n r, r <> OutOfFuel /\
    forall fuel, n <= fuel -> GAC_loop fuel csp queue pruned st = r.
Proof.
  induction m as [m IHm] using lt_wf_ind. intros st Hm queue.
  induction queue as [|c queue IHq]; intros Hq pruned.
  - exists 0, (Returns (true, pruned) st). split; [discriminate|].
    intros [|fuel] _; reflexivity.
  - assert (Hc : In c (csp_cons csp)) by (apply Hq; now left).
    assert (Hq' : forall d, In d queue -> In d (csp_cons csp))
      by (intros d Hd; apply Hq; now right).
    destruct (GAC_vars csp c (get_unasgn_vars st c) pruned queue st)
      as [[[[b1 p1] q1] st1]|] eqn:V.
    + destruct b1.
      * pose proof V as P. apply GAC_vars_progress in P; trivial;
          [|intros x Hx; now apply get_unasgn_vars_unassigned in Hx].
        destruct P as [Hq1 [[-> ->]|L]].
        -- destruct (IHq Hq' p1) as [n [r [Hr Hn]]].
           exists (S n), r. split; [exact Hr|].
           intros [|fuel] Hf; [lia|]. simpl. rewrite V. apply Hn. lia.
        -- destruct (IHm (weight csp st1) ltac:(lia) st1 (le_n _) q1 Hq1 p1)
             as [n [r [Hr Hn]]].
           exists (S n), r. split; [exact Hr|].
           intros [|fuel] Hf; [lia|]. simpl. rewrite V. apply Hn. lia.
      * exists 1, (Returns (false, p1) st1). split; [discriminate|].
        intros [|fuel] Hf; [lia|]. simpl. now rewrite V.
    + exists 1, Raises. split; [discriminate|].
      intros [|fuel] Hf; [lia|]. simpl. now rewrite V.
Qed.

Lemma GAC_vars_wipeout csp c xs : forall pruned queue st pruned' queue' st',
  GAC_vars csp c xs pruned queue st = Some ((false, pruned', queue'), st') ->
  exists x, In x xs /\ cur_domain st' x = [].
Proof.
  induction xs as [|x xs IH]; intros pruned queue st pruned' queue' st' H; simpl in H.
  - discriminate.
  - unfold bind, gets in H.
    destruct (GAC_values c x (cur_domain st x) pruned false st)
      as [[[p1 f1] st1]|] eqn:V; [|discriminate].
    simpl in H. destruct (Nat.eqb_spec (length (cur_domain st1 x)) 0) as [E|E].
    + injection H as <- <- <-. exists x. split; [now left|].
      now apply length_zero_iff_nil.
    + assert (K : exists y, In y xs /\ cur_domain st' y = [])
        by (destruct f1; eapply IH; eassumption).
      destruct K as [y [Hy K]]. exists y. split; [now right | exact K].
Qed.

Lemma GAC_loop_wipeout csp fuel : forall queue pruned st pruned' st',
  GAC_loop fuel csp queue pruned st = Returns (false, pruned') st' ->
  exists x, is_assigned st' x = false /\ cur_domain st' x = [].
Proof.
  induction fuel as [|fuel IH]; intros queue pruned st pruned' st' H;
    destruct queue as [|c queue]; simpl in H; try discriminate.
  destruct (GAC_vars csp c (get_unasgn_vars st c) pruned queue st)
    as [[[[b1 p1] q1] st1]|] eqn:V; [|discriminate].
  destruct b1.
  - eapply IH; eassumption.
  - injection H as <- <-. apply GAC_vars_wipeout in V.
    destruct V as [x [Hx E]]. exists x. split; [|exact E].
    unfold cur_domain in E. unfold is_assigned.
    destruct (assigned_value (st1 x)); [discriminate | reflexivity].
Qed.

(** C4. [prop_GAC] terminates on every CSP and store: with enough fuel
    the run no longer depends on the fuel and is one of: the worklist
    exhausted ([True]); a wipeout ([False], some unassigned variable has
    an empty current domain); or a raise of [prune_value], which needs a
    store that holds some value twice in one domain. The worklist may hold
    a constraint many times: no deduplication is assumed. *)
Theorem prop_GAC_terminates (csp : CSP) (newVar : option var_id) (st : store) :
  exists n r,
    (forall fuel, n <= fuel -> prop_GAC fuel csp newVar st = r) /\
    match r with
    | Returns (true, _) _ => True
    | Returns (false, _) st' =>
        exists x, is_assigned st' x = false /\ cur_domain st' x = []
    | Raises => ~ store_wf st
    | OutOfFuel => False
    end.
Proof.
  unfold prop_GAC.
  set (queue := match newVar with
                | None => get_all_cons csp
                | Some x => get_cons_with_var csp x
                end).
  assert (Hq : forall d, In d queue -> In d (csp_cons csp)).
  { subst queue. destruct newVar as [x|]; intros d Hd; [|exact Hd].
    now apply in_get_cons_with_var in Hd. }
  destruct (@GAC_loop_terminates csp (weight csp st) st (le_n _) queue Hq [])
    as [n [r [Hr Hn]]].
  exists n, r. split; [exact Hn|].
  specialize (Hn n (le_n _)).
  destruct r as [[[|] p] st'| |]; trivial.
  - eapply GAC_loop_wipeout. exact Hn.
  - intros W. exact (@GAC_loop_no_raise csp st n queue [] st W (journal_exact_nil st) Hn).
  - congruence.
Qed.

Lemma prop_GAC_terminates_witness :
  exists n r,
    (forall fuel, n <= fuel -> prop_GAC fuel ex_csp (Some 0) ex_st = r) /\
    match r with
    | Returns (true, _) _ => True
    | Returns (false, _) st' =>
        exists x, is_assigned st' x = false /\ cur_domain st' x = []
    | Raises => ~ store_wf ex_st
    | OutOfFuel => False
    end.
Proof.
  apply (prop_GAC_terminates ex_csp (Some 0) ex_st).
Defined.

(** ** The fixpoint of prop_GAC *)

Lemma arc_consistent_frame st st' d :
  (forall z, In z (scope d) -> st' z = st z) ->
  arc_consistent st d -> arc_consistent st' d.
Proof.
  intros F A x Hx v Hv.
  assert (G : get_unasgn_vars st' d = get_unasgn_vars st d).
  { unfold get_unasgn_vars. apply filter_ext_in. intros z Hz.
    unfold is_assigned. now rewrite F. }
  rewrite G in Hx. pose proof Hx as Hs. apply get_unasgn_vars_unassigned in Hs.
  assert (D : cur_domain st' x = cur_domain st x)
    by (unfold cur_domain; rewrite F; tauto).
  rewrite D in Hv. rewrite <- (A x Hx v Hv).
  apply has_support_agree. intros z Hz _. unfold cur_domain. now rewrite F.
Qed.

Lemma unsupported_nil st c x vals :
  unsupported st c x vals = [] ->
  forall v, In v vals -> has_support st c x v = true.
Proof.
  unfold unsupported. intros E v Hv.
  destruct (has_support st c x v) eqn:S; [reflexivity|].
  assert (K : In v (filter (fun v => negb (has_support st c x v)) vals))
    by (apply filter_In; split; [exact Hv | now rewrite S]).
  rewrite E in K. contradiction.
Qed.

Section GACFixpoint.
Variable csp : CSP.

Lemma GAC_vars_inv c (Hc : In c (csp_cons csp)) xs :
  forall pruned queue st pruned' queue' st',
  (forall x, In x xs -> In x (scope c)) ->
  (forall d, In d (csp_cons csp) -> In d queue \/ arc_consistent st d \/ d = c) ->
  (In c queue \/
   forall x, In x (get_unasgn_vars st c) -> In x xs \/ supported st c x) ->
  GAC_vars csp c xs pruned queue st = Some ((true, pruned', queue'), st') ->
  forall d, In d (csp_cons csp) -> In d queue' \/ arc_consistent st' d.
Proof.
  induction xs as [|x xs IH];
    intros pruned queue st pruned' queue' st' Hs H2 H3 H d Hd; simpl in H.
  - injection H as <- <- <-.
    destruct (H2 d Hd) as [K|[K| ->]]; auto.
    destruct H3 as [K|K]; [now left|]. right. intros x Hx.
    destruct (K x Hx) as [[]|S]. exact S.
  - unfold bind, gets in H.
    destruct (GAC_values c x (cur_domain st x) pruned false st)
      as [[[p1 f1] st1]|] eqn:V; [|discriminate].
    simpl in H. destruct (Nat.eqb (length (cur_domain st1 x)) 0); [discriminate|].
    assert (Hs' : forall y, In y xs -> In y (scope c))
      by (intros y Hy; apply Hs; now right).
    assert (Hx : In x (scope c)) by (apply Hs; now left).
    apply GAC_values_spec in V. cbv zeta in V.
    destruct V as (_ & V2 & V3 & V4 & _ & _ & _ & _ & _ & _).
    destruct (unsupported st c x (cur_domain st x)) as [|u removed] eqn:E.
    + simpl in V2. subst f1. rewrite (V3 eq_refl) in H.
      eapply IH; [exact Hs' | exact H2 | | exact H | exact Hd].
      destruct H3 as [K|K]; [now left|]. right. intros y Hy.
      destruct (K y Hy) as [[<-|Hy']|S]; auto.
      right. exact (unsupported_nil _ _ _ _ E).
    + simpl in V2. subst f1.
      eapply IH; [exact Hs' | | | exact H | exact Hd].
      * intros e He. destruct (in_dec Nat.eq_dec x (scope e)) as [I|I].
        -- left. apply in_or_app. right. now apply in_get_cons_with_var.
        -- destruct (H2 e He) as [K|[K| ->]]; [| |contradiction].
           ++ left. apply in_or_app. now left.
           ++ right. left. apply arc_consistent_frame with st; [|exact K].
              intros z Hz. apply V4. intros ->. contradiction.
      * left. apply in_or_app. right. now apply in_get_cons_with_var.
Qed.

Lemma GAC_loop_fixpoint fuel : forall queue pruned st pruned' st',
  (forall d, In d queue -> In d (csp_cons csp)) ->
  (forall d, In d (csp_cons csp) -> In d queue \/ arc_consistent st d) ->
  GAC_loop fuel csp queue pruned st = Returns (true, pruned') st' ->
  forall d, In d (csp_cons csp) -> arc_consistent st' d.
Proof.
  induction fuel as [|fuel IH]; intros queue pruned st pruned' st' Hq Inv H;
    destruct queue as [|c queue]; simpl in H; try discriminate.
  - injection H as <- <-. intros d Hd. destruct (Inv d Hd) as [[]|K]. exact K.
  - injection H as <- <-. intros d Hd. destruct (Inv d Hd) as [[]|K]. exact K.
  - destruct (GAC_vars csp c (get_unasgn_vars st c) pruned queue st)
      as [[[[b1 p1] q1] st1]|] eqn:V; [|discriminate].
    destruct b1; [|discriminate].
    assert (Hc : In c (csp_cons csp)) by (apply Hq; now left).
    assert (Hs : forall x, In x (get_unasgn_vars st c) -> In x (scope c))
      by (intros x Hx; now apply get_unasgn_vars_unassigned in Hx).
    eapply IH; [| |exact H].
    + eapply GAC_vars_progress; [exact Hc | exact Hs | | exact V].
      intros d Hd. apply Hq. now right.
    + eapply (GAC_vars_inv Hc); [exact Hs | | | exact V].
      * intros d Hd. destruct (Inv d Hd) as [[<-|K]|K]; auto.
      * right. intros x Hx. now left.
Qed.
End GACFixpoint.

(** C1. If [prop_GAC(csp, None)] returns [(True, pruned)], then in the
    store it leaves every constraint of the CSP, every unassigned variable
    of its scope and every value of that variable's current domain satisfy
    [has_support]. *)
Theorem prop_GAC_fixpoint (csp : CSP) (st : store) (fuel : nat)
        (pruned : prunes) (st' : store) :
  prop_GAC fuel csp None st = Returns (true, pruned) st' ->
  forall c, In c (get_all_cons csp) ->
  forall x, In x (get_unasgn_vars st' c) ->
  forall v, In v (cur_domain st' x) ->
  has_support st' c x v = true.
Proof.
  intros H c Hc x Hx v Hv.
  unfold prop_GAC in H.
  eapply GAC_loop_fixpoint in H; [exact (H x Hx v Hv) | | | exact Hc].
  - intros d Hd. exact Hd.
  - intros d Hd. left. exact Hd.
Qed.

Lemma prop_GAC_fixpoint_witness :
  exists pruned st',
    prop_GAC 5 ex_csp None ex_st = Returns (true, pruned) st' /\
    forall c, In c (get_all_cons ex_csp) ->
    forall x, In x (get_unasgn_vars st' c) ->
    forall v, In v (cur_domain st' x) ->
    has_support st' c x v = true.
Proof.
  eexists _, _. split; [vm_compute; reflexivity|].
  eapply (@prop_GAC_fixpoint ex_csp ex_st 5). reflexivity.
Defined.

(** ** prop_FC *)

Lemma pruning_refl st : pruning st st.
Proof. split; auto. Qed.

Lemma pruning_trans st1 st2 st3 : pruning st1 st2 -> pruning st2 st3 -> pruning st1 st3.
Proof.
  intros [A1 B1] [A2 B2]. split.
  - intros z. now rewrite A2.
  - intros z v H. auto.
Qed.

Lemma pruning_assigned st st' z : pruning st st' -> is_assigned st' z = is_assigned st z.
Proof. intros [A _]. unfold is_assigned. now rewrite A. Qed.

Lemma pruning_unasgn st st' c :
  pruning st st' -> get_unasgn_vars st' c = get_unasgn_vars st c.
Proof.
  intros P. unfold get_unasgn_vars. apply filter_ext. intros z.
  now rewrite (pruning_assigned z P).
Qed.

Lemma pruning_cur_domain st st' z v :
  pruning st st' -> In v (cur_domain st' z) -> In v (cur_domain st z).
Proof.
  intros [A B]. unfold cur_domain. rewrite A.
  destruct (assigned_value (st z)); auto.
Qed.

(** With a single unassigned variable in the scope, support rests on the
    assigned values only: pruning does not change it. *)
Lemma sole_support st st' c y v :
  pruning st st' -> get_unasgn_vars st c = [y] ->
  has_support st' c y v = has_support st c y v.
Proof.
  intros [A B] G. apply has_support_agree. intros z Hz N.
  assert (Az : is_assigned st z = true).
  { destruct (is_assigned st z) eqn:E; [reflexivity|].
    assert (K : In z (get_unasgn_vars st c))
      by (apply filter_In; split; [exact Hz | now rewrite E]).
    rewrite G in K. destruct K as [K|[]]. congruence. }
  unfold is_assigned in Az. unfold cur_domain. rewrite A.
  now destruct (assigned_value (st z)).
Qed.

Lemma GAC_values_pruning c x vals pruned pf st pruned' pf' st' :
  GAC_values c x vals pruned pf st = Some ((pruned', pf'), st') -> pruning st st'.
Proof.
  intros H. apply GAC_values_spec in H. cbv zeta in H.
  destruct H as (_ & _ & _ & H4 & _ & _ & H7 & H8 & _ & _). split.
  - intros z. destruct (Nat.eq_dec z x) as [->|N]; [exact H7 | now rewrite H4].
  - intros z v. destruct (Nat.eq_dec z x) as [->|N]; [|now rewrite H4].
    rewrite H8. intros K. now apply filter_In in K.
Qed.

Lemma FC_scope_assigned c xs : forall pruned st,
  filter (fun x => negb (is_assigned st x)) xs = [] ->
  FC_scope c xs pruned st = Some ((true, pruned), st).
Proof.
  induction xs as [|x xs IH]; intros pruned st F; simpl in *; [reflexivity|].
  unfold bind, gets. destruct (is_assigned st x); simpl in *; [auto|discriminate].
Qed.

(** On a constraint with one unassigned variable the loop over the scope
    comes down to one loop over the values of that variable and one test
    of its domain. *)
Lemma FC_scope_sole c y xs : forall pruned st,
  filter (fun x => negb (is_assigned st x)) xs = [y] ->
  FC_scope c xs pruned st =
  match GAC_values c y (cur_domain st y) pruned false st with
  | Some ((p1, _), st1) =>
      Some ((negb (Nat.eqb (length (cur_domain st1 y)) 0), p1), st1)
  | None => None
  end.
Proof.
  induction xs as [|x xs IH]; intros pruned st F; simpl in *; [discriminate|].
  unfold bind, gets. destruct (is_assigned st x) eqn:A; simpl in *; [auto|].
  injection F as -> F.
  rewrite (FC_values_GAC c y (cur_domain st y) pruned false st).
  destruct (GAC_values c y (cur_domain st y) pruned false st)
    as [[[p1 f1] st1]|] eqn:V; [|reflexivity].
  destruct (Nat.eqb (length (cur_domain st1 y)) 0); [reflexivity|]. simpl.
  apply FC_scope_assigned. rewrite <- F. apply filter_ext. intros z.
  now rewrite (pruning_assigned z (GAC_values_pruning _ _ _ _ _ _ V)).
Qed.

Lemma sole_step c y pruned st p1 f1 st1 :
  is_assigned st y = false ->
  GAC_values c y (cur_domain st y) pruned false st = Some ((p1, f1), st1) ->
  let removed := unsupported st c y (cur_domain st y) in
  p1 = pruned ++ map (pair y) removed /\
  pruning st st1 /\
  (forall z, z <> y -> cur_domain st1 z = cur_domain st z) /\
  cur_domain st1 y = filter (fun u => negb (mem u removed)) (cur_domain st y).
Proof.
  intros U V. pose proof (GAC_values_pruning _ _ _ _ _ _ V) as P.
  apply GAC_values_spec in V. cbv zeta in V.
  destruct V as (V1 & _ & _ & V4 & _ & _ & _ & V8 & _ & _).
  split; [exact V1|]. split; [exact P|]. split.
  - intros z N. now apply cur_domain_frame with y.
  - assert (U1 : is_assigned st1 y = false) by now rewrite (pruning_assigned y P).
    rewrite (cur_domain_unassigned _ _ U1), V8.
    now rewrite (cur_domain_unassigned _ _ U).
Qed.

Lemma unasgn_sole st c y : get_unasgn_vars st c = [y] -> is_assigned st y = false.
Proof.
  intros G. assert (K : In y (get_unasgn_vars st c)) by (rewrite G; now left).
  now apply get_unasgn_vars_unassigned in K.
Qed.

Lemma FC_cons_spec cs : forall pruned st b pruned' st',
  FC_cons cs pruned st = Some ((b, pruned'), st') ->
  exists new, pruned' = pruned ++ new /\ pruning st st' /\
    (forall y v, In (y, v) new ->
       exists c, In c cs /\ get_unasgn_vars st c = [y] /\
                 In v (cur_domain st y) /\ has_support st c y v = false) /\
    (b = true ->
       (forall z, cur_domain st z <> [] -> cur_domain st' z <> []) /\
       forall c y, In c cs -> get_unasgn_vars st c = [y] ->
         cur_domain st' y <> [] /\
         forall v, In v (cur_domain st y) -> has_support st c y v = false ->
                   In (y, v) new) /\
    (b = false ->
       exists c y, In c cs /\ get_unasgn_vars st c = [y] /\ cur_domain st' y = []).
Proof.
  induction cs as [|c cs IH]; intros pruned st b pruned' st' H; simpl in H.
  - injection H as <- <- <-. exists []. rewrite app_nil_r.
    split; [reflexivity|]. split; [apply pruning_refl|].
    split; [intros y v []|]. split; [|discriminate].
    intros _. split; [auto|]. intros c y [].
  - unfold bind, gets in H.
    destruct (Nat.eqb_spec (get_n_unasgn st c) 1) as [E|E].
    + unfold get_n_unasgn in E.
      destruct (get_unasgn_vars st c) as [|y [|y' l]] eqn:G; simpl in E; try lia.
      clear E. pose proof (@unasgn_sole st c y G) as U.
      unfold get_scope in H. rewrite (@FC_scope_sole c y (scope c) pruned st G) in H.
      destruct (GAC_values c y (cur_domain st y) pruned false st)
        as [[[p1 f1] st1]|] eqn:V; [|discriminate].
      apply (@sole_step c y pruned st p1 f1 st1 U) in V. cbv zeta in V.
      destruct V as (V1 & P1 & V3 & V4).
      set (removed := unsupported st c y (cur_domain st y)) in *.
      assert (R : forall v, In v removed <->
                    In v (cur_domain st y) /\ has_support st c y v = false).
      { intros v. unfold removed, unsupported. rewrite filter_In, negb_true_iff.
        tauto. }
      simpl in H.
      destruct (Nat.eqb_spec (length (cur_domain st1 y)) 0) as [Z|Z]; simpl in H.
      * injection H as <- <- <-. exists (map (pair y) removed).
        split; [exact V1|]. split; [exact P1|]. split.
        { intros z v K. apply in_map_iff in K. destruct K as [u [K Hu]].
          injection K as <- <-. exists c. split; [now left|].
          split; [exact G|]. now apply R. }
        split; [discriminate|]. intros _. exists c, y.
        split; [now left|]. split; [exact G|]. now apply length_zero_iff_nil.
      * apply IH in H. destruct H as (new & H1 & P2 & H3 & H4 & H5).
        exists (map (pair y) removed ++ new).
        split; [rewrite H1, V1; now rewrite app_assoc|].
        split; [now apply pruning_trans with st1|].
        assert (T : forall d z, get_unasgn_vars st1 d = [z] -> get_unasgn_vars st d = [z])
          by (intros d z K; now rewrite <- (pruning_unasgn d P1)).
        split.
        { intros z v K. apply in_app_or in K. destruct K as [K|K].
          - apply in_map_iff in K. destruct K as [u [K Hu]].
            injection K as <- <-. exists c. split; [now left|].
            split; [exact G|]. now apply R.
          - destruct (H3 z v K) as (d & Hd & Gd & Hv & S).
            exists d. split; [now right|]. split; [now apply T|].
            split; [now apply (@pruning_cur_domain st st1 z v P1)|].
            rewrite <- S. symmetry. apply sole_support; [exact P1 | now apply T]. }
        split.
        { intros ->. destruct (H4 eq_refl) as [N4 A4].
          assert (N1 : forall z, cur_domain st z <> [] -> cur_domain st1 z <> []).
          { intros z Nz. destruct (Nat.eq_dec z y) as [->|Ny].
            - intros K. apply Z. now rewrite K.
            - now rewrite V3. }
          split; [auto|]. intros d z [<-|Hd] Gd.
          - rewrite G in Gd. injection Gd as <-. split.
            + apply N4. intros K. apply Z. now rewrite K.
            + intros v Hv S. apply in_or_app. left. apply in_map. now apply R.
          - assert (Gd1 : get_unasgn_vars st1 d = [z])
              by now rewrite (pruning_unasgn d P1).
            destruct (A4 d z Hd Gd1) as [Nz Az]. split; [exact Nz|].
            intros v Hv S. apply in_or_app.
            destruct (in_dec value_eq_dec v (cur_domain st1 z)) as [I|I].
            + right. apply Az; [exact I|].
              rewrite <- S. now apply sole_support.
            + left. destruct (Nat.eq_dec z y) as [->|Ny];
                [|rewrite V3 in I by exact Ny; contradiction].
              apply in_map. rewrite V4 in I.
              destruct (mem v removed) eqn:M; [now apply mem_In|].
              exfalso. apply I. apply filter_In. split; [exact Hv | now rewrite M]. }
        intros ->. destruct (H5 eq_refl) as (d & z & Hd & Gd & K).
        exists d, z. split; [now right|]. split; [now apply T | exact K].
    + apply IH in H. destruct H as (new & H1 & P2 & H3 & H4 & H5).
      exists new. split; [exact H1|]. split; [exact P2|]. split.
      { intros z v K. destruct (H3 z v K) as (d & Hd & Gd).
        exists d. split; [now right | exact Gd]. }
      split.
      { intros Hb. destruct (H4 Hb) as [N4 A4]. split; [exact N4|].
        intros d z [<-|Hd] Gd; [|now apply A4].
        exfalso. apply E. unfold get_n_unasgn. now rewrite Gd. }
      intros Hb. destruct (H5 Hb) as (d & z & Hd & Gd).
      exists d, z. split; [now right | exact Gd].
Qed.

Lemma frontier_start csp newVar st c y :
  frontier csp newVar st c y <->
  In c (match newVar with
        | None => get_all_cons csp
        | Some x => get_cons_with_var csp x
        end) /\ get_unasgn_vars st c = [y].
Proof.
  unfold frontier. destruct newVar as [x|].
  - rewrite in_get_cons_with_var. split.
    + intros (H1 & H2 & H3). auto.
    + intros ((H1 & H2) & H3). repeat split; trivial. intros z E.
      now injection E as <-.
  - unfold get_all_cons. split.
    + intros (H1 & _ & H3). auto.
    + intros (H1 & H3). repeat split; trivial. discriminate.
Qed.

(** The walk over a list of constraints is the walk over its first part
    and, unless that one stops, the walk over the rest. *)
Lemma FC_cons_app l1 : forall l2 pruned st,
  FC_cons (l1 ++ l2) pruned st =
  match FC_cons l1 pruned st with
  | Some ((true, p), s) => FC_cons l2 p s
  | r => r
  end.
Proof.
  induction l1 as [|c l1 IH]; intros l2 pruned st; simpl; [reflexivity|].
  unfold bind, gets. destruct (Nat.eqb (get_n_unasgn st c) 1); [|apply IH].
  destruct (FC_scope c (get_scope c) pruned st) as [[[b p1] s1]|]; [|reflexivity].
  simpl. destruct b; [apply IH | reflexivity].
Qed.

(** A walk that returns [False] is a walk that passes a first part of the
    list and stops at the constraint after it. *)
Lemma FC_cons_stops cs : forall pruned st pruned' st',
  FC_cons cs pruned st = Some ((false, pruned'), st') ->
  exists pre c post p1 st1,
    cs = pre ++ c :: post /\
    FC_cons pre pruned st = Some ((true, p1), st1) /\
    FC_cons [c] p1 st1 = Some ((false, pruned'), st').
Proof.
  induction cs as [|c cs IH]; intros pruned st pruned' st' H;
    [simpl in H; discriminate|].
  change (c :: cs) with ([c] ++ cs) in H. rewrite FC_cons_app in H.
  destruct (FC_cons [c] pruned st) as [[[b p0] s0]|] eqn:R; [|discriminate].
  destruct b.
  - apply IH in H. destruct H as (pre & d & post & p1 & st1 & E & R1 & R2).
    exists (c :: pre), d, post, p1, st1. split; [now rewrite E|].
    split; [|exact R2].
    change (c :: pre) with ([c] ++ pre). now rewrite FC_cons_app, R.
  - injection H as <- <-. exists [], c, cs, pruned, st.
    split; [reflexivity|]. split; [reflexivity | exact R].
Qed.

(** Where a walk from an empty record returns [False]: at the first
    constraint whose sole unassigned variable is left no value, with the
    record of what the constraints up to that one take away. *)
Lemma FC_cons_false_spec cs st pruned st' :
  FC_cons cs [] st = Some ((false, pruned), st') ->
  exists pre c post y,
    cs = pre ++ c :: post /\ get_unasgn_vars st c = [y] /\
    cur_domain st' y = [] /\
    (forall z v, In (z, v) pruned <-> lacks_support st (pre ++ [c]) z v) /\
    (forall pre1 c1 post1 y1,
        pre = pre1 ++ c1 :: post1 -> get_unasgn_vars st c1 = [y1] ->
        ~ wiped_out st (pre1 ++ [c1]) y1).
Proof.
  intros H. destruct (@FC_cons_stops cs [] st pruned st' H)
    as (pre & c & post & p1 & st1 & E & R1 & R2).
  assert (R3 : FC_cons (pre ++ [c]) [] st = Some ((false, pruned), st'))
    by now rewrite FC_cons_app, R1.
  pose proof R3 as J.
  apply journal_exact_FC_cons with (st0 := st) in J; [|apply journal_exact_nil].
  pose proof R1 as X1. apply FC_cons_spec in X1.
  destruct X1 as (new1 & N1 & P1 & _ & T1 & _).
  pose proof R2 as X2. apply FC_cons_spec in X2.
  destruct X2 as (new2 & N2 & P2 & _ & _ & F2).
  pose proof R3 as X3. apply FC_cons_spec in X3.
  destruct X3 as (new3 & N3 & P3 & S3 & _ & _).
  simpl in N1, N3. subst p1 new3.
  destruct (F2 eq_refl) as (c0 & y & [<-|[]] & G & Z).
  rewrite (pruning_unasgn c P1) in G.
  exists pre, c, post, y. split; [exact E|]. split; [exact G|].
  split; [exact Z|]. split.
  - intros z v. split; [apply S3|].
    intros (d & Hd & Gd & Hv & Sd). apply in_app_or in Hd.
    destruct Hd as [Hd|[<-|[]]].
    + rewrite N2. apply in_or_app. left.
      destruct (T1 eq_refl) as [_ A1]. now apply (A1 d z Hd Gd).
    + rewrite G in Gd. injection Gd as <-.
      pose proof (@unasgn_sole st c y G) as U.
      assert (U' : is_assigned st' y = false)
        by now rewrite (pruning_assigned y P3).
      rewrite (cur_domain_unassigned _ _ U) in Hv.
      rewrite (cur_domain_unassigned _ _ U') in Z.
      destruct J as (_ & _ & J3 & _). rewrite J3 in Z.
      apply pmem_In. destruct (pmem (y, v) pruned) eqn:M; [reflexivity|].
      exfalso. assert (K : In v []); [|destruct K].
      rewrite <- Z. apply filter_In. split; [exact Hv | now rewrite M].
  - intros pre1 c1 post1 y1 E1 G1 W.
    rewrite E1 in R1.
    change (pre1 ++ c1 :: post1) with (pre1 ++ [c1] ++ post1) in R1.
    rewrite app_assoc, FC_cons_app in R1.
    destruct (FC_cons (pre1 ++ [c1]) [] st) as [[[b2 p2] st2]|] eqn:R4;
      [|discriminate].
    destruct b2; [|discriminate]. clear R1.
    pose proof R4 as J4.
    apply journal_exact_FC_cons with (st0 := st) in J4; [|apply journal_exact_nil].
    pose proof R4 as X4. apply FC_cons_spec in X4.
    destruct X4 as (new4 & N4 & P4 & _ & T4 & _).
    simpl in N4. subst new4. destruct (T4 eq_refl) as [_ A4].
    assert (I4 : In c1 (pre1 ++ [c1])) by (apply in_or_app; right; now left).
    destruct (A4 c1 y1 I4 G1) as [NE _].
    pose proof (@unasgn_sole st c1 y1 G1) as U.
    assert (U4 : is_assigned st2 y1 = false)
      by now rewrite (pruning_assigned y1 P4).
    rewrite (cur_domain_unassigned _ _ U4) in NE.
    destruct J4 as (_ & _ & J3 & _). rewrite J3 in NE.
    destruct (filter _ (current_domain (st y1))) as [|v0 l] eqn:Fl;
      [now apply NE|].
    assert (K : In v0 (v0 :: l)) by now left.
    rewrite <- Fl in K. apply filter_In in K. destruct K as [K1 K2].
    rewrite <- (cur_domain_unassigned _ _ U) in K1.
    destruct (W v0 K1) as (d & Hd & Gd & _ & Sd).
    destruct (A4 d y1 Hd Gd) as [_ Q]. specialize (Q v0 K1 Sd).
    apply pmem_In in Q. now rewrite Q in K2.
Qed.

(** C3. Take any return [(b, pruned)] of [prop_FC]. The constraints it
    looks at are those of the CSP (those touching [newVar], if given) that
    have one unassigned variable. Every pruned pair is a value of the sole
    unassigned variable of such a constraint, in its current domain and
    without support there. The call returns [False] exactly when the sole
    variable of such a constraint ends with an empty current domain. When
    it returns [True] the pruned pairs are precisely the current-domain
    values of those variables that lack support in such a constraint. When
    it returns [False] it has stopped at once: the list of constraints it
    walks splits at a constraint [c] whose sole variable is left no
    value, no constraint before [c] left its sole variable without a
    value, and the pruned pairs are precisely the values without support
    in the constraints up to and including [c]; the constraints after
    [c] are not looked at. The list is the exact record of what left the
    domains. *)
Theorem prop_FC_forward_checks (csp : CSP) (newVar : option var_id) (st : store)
        (b : bool) (pruned : prunes) (st' : store) :
  prop_FC csp newVar st = Some ((b, pruned), st') ->
  (forall y v, In (y, v) pruned ->
     exists c, frontier csp newVar st c y /\
               In v (cur_domain st y) /\ has_support st c y v = false) /\
  (b = false <->
     exists c y, frontier csp newVar st c y /\ cur_domain st' y = []) /\
  (b = true ->
     forall y v, In (y, v) pruned <->
       exists c, frontier csp newVar st c y /\
                 In v (cur_domain st y) /\ has_support st c y v = false) /\
  (b = false ->
     exists pre c post y,
       FC_start csp newVar = pre ++ c :: post /\
       get_unasgn_vars st c = [y] /\ cur_domain st' y = [] /\
       (forall z v, In (z, v) pruned <-> lacks_support st (pre ++ [c]) z v) /\
       (forall pre1 c1 post1 y1,
           pre = pre1 ++ c1 :: post1 -> get_unasgn_vars st c1 = [y1] ->
           ~ wiped_out st (pre1 ++ [c1]) y1)) /\
  journal_exact st pruned st'.
Proof.
  intros H. pose proof H as J. pose proof H as W.
  apply journal_exact_FC_cons with (st0 := st) in J; [|apply journal_exact_nil].
  unfold prop_FC in H. apply FC_cons_spec in H.
  destruct H as (new & E & _ & H3 & H4 & H5). simpl in E. subst new.
  assert (A : forall y v, In (y, v) pruned ->
     exists c, frontier csp newVar st c y /\
               In v (cur_domain st y) /\ has_support st c y v = false).
  { intros y v K. destruct (H3 y v K) as (c & Hc & G & Hv & S).
    exists c. split; [|auto]. apply frontier_start. auto. }
  split; [exact A|]. split; [|split; [|split; [|exact J]]].
  - split.
    + intros Hb. destruct (H5 Hb) as (c & y & Hc & G & K).
      exists c, y. split; [|exact K]. apply frontier_start. auto.
    + intros (c & y & F & K). destruct b; [|reflexivity].
      apply frontier_start in F. destruct F as [Hc G].
      destruct (H4 eq_refl) as [_ A4]. destruct (A4 c y Hc G) as [N _].
      contradiction.
  - intros Hb y v. split; [apply A|].
    intros (c & F & Hv & S). apply frontier_start in F. destruct F as [Hc G].
    destruct (H4 Hb) as [_ A4]. destruct (A4 c y Hc G) as [_ K]. now apply K.
  - intros ->. unfold prop_FC in W. now apply FC_cons_false_spec.
Qed.

(** On [wipe_csp] the call prunes 1 from variable 2, then 1 from variable
    1, whose domain is empty by then, and returns: variable 3 keeps its
    two values. *)
Lemma prop_FC_forward_checks_witness :
  exists st',
    prop_FC wipe_csp (Some 0) wipe_st
    = Some ((false, [(2, VInt 1); (1, VInt 1)]), st') /\
    cur_domain st' 3 = [VInt 1; VInt 2] /\
    (forall y v, In (y, v) [(2, VInt 1); (1, VInt 1)] ->
       exists c, frontier wipe_csp (Some 0) wipe_st c y /\
                 In v (cur_domain wipe_st y) /\ has_support wipe_st c y v = false) /\
    (false = false <->
       exists c y, frontier wipe_csp (Some 0) wipe_st c y /\ cur_domain st' y = []) /\
    (false = true ->
       forall y v, In (y, v) [(2, VInt 1); (1, VInt 1)] <->
         exists c, frontier wipe_csp (Some 0) wipe_st c y /\
                   In v (cur_domain wipe_st y) /\ has_support wipe_st c y v = false) /\
    (false = false ->
       exists pre c post y,
         FC_start wipe_csp (Some 0) = pre ++ c :: post /\
         get_unasgn_vars wipe_st c = [y] /\ cur_domain st' y = [] /\
         (forall z v, In (z, v) [(2, VInt 1); (1, VInt 1)] <->
                      lacks_support wipe_st (pre ++ [c]) z v) /\
         (forall pre1 c1 post1 y1,
             pre = pre1 ++ c1 :: post1 -> get_unasgn_vars wipe_st c1 = [y1] ->
             ~ wiped_out wipe_st (pre1 ++ [c1]) y1)) /\
    journal_exact wipe_st [(2, VInt 1); (1, VInt 1)] st'.
Proof.
  eexists. split; [vm_compute; reflexivity|]. split; [reflexivity|].
  eapply (@prop_FC_forward_checks wipe_csp (Some 0) wipe_st). reflexivity.
Defined.

Example prop_FC_ex :
  exists st', prop_FC ex_csp (Some 0) ex_st = Some ((true, [(1, VInt 1)]), st').
Proof. eexists. vm_compute. reflexivity. Qed.

(** ** all_diff_constraint *)

(** The loop of lines 102-103 extends every tuple built so far by every
    value of the next pool. *)
Lemma every_tuple_fold domains : forall acc t,
  In t (fold_left (fun acc pool =>
                     flat_map (fun x => map (fun y => x ++ [y]) pool) acc)
                  domains acc) <->
  exists p s, t = p ++ s /\ In p acc /\ Forall2 (@In value) s domains.
Proof.
  induction domains as [|pool ds IH]; intros acc t; simpl.
  - split.
    + intros H. exists t, []. rewrite app_nil_r. auto.
    + intros (p & s & -> & Hp & F). inversion F. now rewrite app_nil_r.
  - rewrite IH. split.
    + intros (p & s & -> & Hp & F). apply in_flat_map in Hp.
      destruct Hp as (x & Hx & Hp). apply in_map_iff in Hp.
      destruct Hp as (y & <- & Hy). exists x, (y :: s).
      rewrite <- app_assoc. simpl. auto.
    + intros (p & s & -> & Hp & F). inversion F as [|y pool' s' ds' Hy F']. subst.
      exists (p ++ [y]), s'. rewrite <- app_assoc. simpl.
      split; [reflexivity|]. split; [|exact F'].
      apply in_flat_map. exists p. split; [exact Hp|].
      apply in_map_iff. exists y. auto.
Qed.

Lemma every_tuple_spec domains t :
  In t (every_tuple domains) <-> Forall2 (@In value) t domains.
Proof.
  unfold every_tuple. rewrite every_tuple_fold. split.
  - intros (p & s & -> & [<-|[]] & F). exact F.
  - intros F. exists [], t. simpl. auto.
Qed.

Lemma Forall2_In_length (t : list value) domains :
  Forall2 (@In value) t domains -> length t = length domains.
Proof. induction 1; simpl; congruence. Qed.

(** A loop that can only lower a flag. *)
Lemma for_each_flag {A} (p : A -> bool) (body : A -> bool -> option bool) l :
  (forall a, In a l -> forall s, body a s = Some (if p a then false else s)) ->
  forall s, for_each l body s = Some (s && negb (existsb p l)).
Proof.
  induction l as [|a l IH]; intros H s; simpl.
  - now rewrite andb_true_r.
  - rewrite (H a (or_introl eq_refl)). rewrite IH by (intros; apply H; now right).
    f_equal. destruct (p a), s; reflexivity.
Qed.

(** A loop that keeps the elements passing a test that may raise. *)
Lemma for_each_keep {A} (f : A -> option bool) (g : A -> bool) l :
  (forall a, In a l -> f a = Some (g a)) ->
  forall s, for_each l (fun a s =>
                          match f a with
                          | Some true => Some (s ++ [a])
                          | Some false => Some s
                          | None => None
                          end) s = Some (s ++ filter g l).
Proof.
  induction l as [|a l IH]; intros H s; simpl.
  - now rewrite app_nil_r.
  - rewrite (H a (or_introl eq_refl)).
    destruct (g a); rewrite IH by (intros; apply H; now right);
      [now rewrite <- app_assoc | reflexivity].
Qed.

Lemma in_range a b i : In i (range a b) <-> a <= i < b.
Proof. unfold range. rewrite in_seq. lia. Qed.

Lemma tuple_valid_clash t :
  tuple_valid t (length t) =
  Some (negb (existsb (fun i => existsb (clash t i) (range (i + 1) (length t)))
                      (range 0 (length t)))).
Proof.
  unfold tuple_valid.
  rewrite for_each_flag
    with (p := fun i => existsb (clash t i) (range (i + 1) (length t)));
    [reflexivity|].
  intros i Hi s. apply in_range in Hi.
  rewrite for_each_flag with (p := clash t i).
  - f_equal. destruct (existsb (clash t i) (range (i + 1) (length t))), s; reflexivity.
  - intros j Hj s'. apply in_range in Hj. unfold clash.
    destruct (nth_error t i) eqn:Ei; [|apply nth_error_None in Ei; lia].
    destruct (nth_error t j) eqn:Ej; [|apply nth_error_None in Ej; lia].
    reflexivity.
Qed.

Lemma no_clash_NoDup t :
  existsb (fun i => existsb (clash t i) (range (i + 1) (length t)))
          (range 0 (length t)) = false <-> NoDup t.
Proof.
  split.
  - intros H. apply NoDup_nth_error. intros i j Hi E.
    assert (Hj : j < length t).
    { apply nth_error_Some. rewrite <- E. now apply nth_error_Some. }
    assert (K : forall a b, a < b < length t ->
                            nth_error t a = nth_error t b -> False).
    { intros a b L Eab.
      assert (X : existsb (fun i => existsb (clash t i) (range (i + 1) (length t)))
                          (range 0 (length t)) = true).
      { apply existsb_exists. exists a. split; [apply in_range; lia|].
        apply existsb_exists. exists b. split; [apply in_range; lia|].
        unfold clash. rewrite <- Eab.
        destruct (nth_error t a) eqn:Ea; [apply value_eqb_refl|].
        apply nth_error_None in Ea. lia. }
      congruence. }
    destruct (Nat.lt_trichotomy i j) as [L|[L|L]]; [|exact L|].
    + exfalso. apply (K i j); [lia | exact E].
    + exfalso. apply (K j i); [lia | now symmetry].
  - intros ND.
    destruct (existsb (fun i => existsb (clash t i) (range (i + 1) (length t)))
                      (range 0 (length t))) eqn:X; [|reflexivity].
    apply existsb_exists in X. destruct X as (i & Hi & X).
    apply existsb_exists in X. destruct X as (j & Hj & X).
    apply in_range in Hi, Hj. unfold clash in X.
    destruct (nth_error t i) as [a|] eqn:Ei; [|discriminate].
    destruct (nth_error t j) as [b|] eqn:Ej; [|discriminate].
    apply value_eqb_eq in X. subst b.
    assert (i = j); [|lia].
    apply (proj1 (NoDup_nth_error t) ND); [lia | congruence].
Qed.

Lemma all_diff_tuples_spec domains :
  exists sat_tuples,
    all_diff_tuples domains (length domains) = Some sat_tuples /\
    forall t, In t sat_tuples <-> Forall2 (@In value) t domains /\ NoDup t.
Proof.
  set (g := fun t : list value =>
              negb (existsb (fun i => existsb (clash t i) (range (i + 1) (length t)))
                            (range 0 (length t)))).
  exists (filter g (every_tuple domains)). split.
  - unfold all_diff_tuples.
    rewrite for_each_keep with (g := g); [reflexivity|].
    intros t Ht. apply every_tuple_spec, Forall2_In_length in Ht.
    rewrite <- Ht. apply tuple_valid_clash.
  - intros t. rewrite filter_In, every_tuple_spec. unfold g.
    rewrite negb_true_iff, no_clash_NoDup. tauto.
Qed.

(** Called with the current domains of its scope variables and their
    number, [all_diff_constraint] adds the all-different constraint. *)
Lemma all_diff_constraint_spec (st : store) (csp : CSP) (vars : list var_id) :
  exists sat_tuples,
    all_diff_constraint csp vars (map (cur_domain st) vars) (length vars)
    = Some (add_constraint csp (mkConstraint ":()" vars sat_tuples)) /\
    forall t, In t sat_tuples <->
              Forall2 (fun v x => In v (cur_domain st x)) t vars /\ NoDup t.
Proof.
  destruct (all_diff_tuples_spec (map (cur_domain st) vars)) as (sat & E & H).
  exists sat. split.
  - unfold all_diff_constraint. rewrite length_map in E. now rewrite E.
  - intros t. rewrite H.
    assert (F : forall t, Forall2 (@In value) t (map (cur_domain st) vars) <->
                          Forall2 (fun v x => In v (cur_domain st x)) t vars).
    { clear. induction vars as [|x xs IH]; intros t; split; intros F;
        inversion F; subst; constructor; trivial; now apply IH. }
    now rewrite F.
Qed.

(** ** Loops of the model builders *)

Lemma for_each_ind_from {S A} (P : nat -> S -> Prop) (body : A -> S -> option S)
      (l : list A)
      (step : forall i a s1 s2, nth_error l i = Some a -> P i s1 ->
                                body a s1 = Some s2 -> P (1 + i) s2) :
  forall rest pre, l = pre ++ rest ->
  forall s s', P (length pre) s -> for_each rest body s = Some s' -> P (length l) s'.
Proof.
  induction rest as [|a rest IH]; intros pre E s s' H0 H; simpl in H.
  - injection H as <-. subst l. now rewrite app_nil_r.
  - destruct (body a s) as [s1|] eqn:B; [|discriminate].
    apply (IH (pre ++ [a])) with s1; trivial.
    + rewrite <- app_assoc. exact E.
    + rewrite length_app, Nat.add_comm. simpl.
      apply step with a s; trivial. subst l.
      rewrite nth_error_app2 by lia. now rewrite Nat.sub_diag.
Qed.

Lemma for_each_ind {S A} (P : nat -> S -> Prop) (body : A -> S -> option S)
      (l : list A) :
  (forall i a s1 s2, nth_error l i = Some a -> P i s1 ->
                     body a s1 = Some s2 -> P (1 + i) s2) ->
  forall s s', P 0 s -> for_each l body s = Some s' -> P (length l) s'.
Proof.
  intros step s s' H0 H.
  exact (@for_each_ind_from S A P body l step l [] eq_refl s s' H0 H).
Qed.

(** A loop keeps what each of its rounds keeps. *)
Lemma for_each_keeps {S A} (Q : S -> Prop) (body : A -> S -> option S) (l : list A) :
  (forall a s1 s2, Q s1 -> body a s1 = Some s2 -> Q s2) ->
  forall s s', Q s -> for_each l body s = Some s' -> Q s'.
Proof.
  intros step s s' H0 H.
  apply (@for_each_ind S A (fun _ => Q) body l) with s; trivial.
  intros i a s1 s2 _. apply step.
Qed.

Lemma nth_error_range a b i x :
  nth_error (range a b) i = Some x -> x = a + i /\ x < b.
Proof.
  unfold range. rewrite nth_error_seq.
  destruct (Nat.ltb_spec i (b - a)); [|discriminate].
  intros E. injection E as <-. lia.
Qed.

Lemma length_range a b : length (range a b) = b - a.
Proof. unfold range. apply length_seq. Qed.

Lemma init_lists_fold l : forall acc,
  fold_left (fun acc i => (fst acc ++ [VInt (Z.of_nat i + 1)], snd acc ++ [[]]))
            l acc
  = (fst acc ++ map (fun i => VInt (Z.of_nat (S i))) l,
     snd acc ++ repeat (@nil var_id) (length l)).
Proof.
  induction l as [|i l IH]; intros [a b]; simpl.
  - now rewrite !app_nil_r.
  - rewrite IH. simpl. rewrite <- !app_assoc. simpl.
    repeat f_equal. lia.
Qed.

Lemma init_lists_spec n :
  init_lists n = (map (fun i => VInt (Z.of_nat i)) (seq 1 n), repeat [] n).
Proof.
  unfold init_lists. rewrite init_lists_fold. simpl.
  rewrite length_range, Nat.sub_0_r. f_equal.
  unfold range. rewrite Nat.sub_0_r, <- seq_shift, map_map. reflexivity.
Qed.

Lemma append_at_spec {A} (a : A) : forall ll i ll',
  append_at i a ll = Some ll' ->
  length ll' = length ll /\
  exists l, nth_error ll i = Some l /\ nth_error ll' i = Some (l ++ [a]) /\
            forall j, j <> i -> nth_error ll' j = nth_error ll j.
Proof.
  induction ll as [|l ll IH]; intros i ll' H; destruct i as [|i]; simpl in H;
    try discriminate.
  - injection H as <-. split; [reflexivity|]. exists l.
    split; [reflexivity|]. split; [reflexivity|].
    intros [|j] N; [congruence | reflexivity].
  - destruct (append_at i a ll) as [r|] eqn:E; [|discriminate].
    injection H as <-. apply IH in E. destruct E as (E1 & m & E2 & E3 & E4).
    split; [simpl; congruence|]. exists m. split; [exact E2|].
    split; [exact E3|]. intros [|j] N; [reflexivity|]. simpl. apply E4. congruence.
Qed.

(** ** The builders of constraints leave the variables alone *)

(** Right of the first column [col - 1] is an index from the front. *)
Lemma grid_at_py_pred (g : grid) row col :
  0 < col -> grid_at_py g row (Z.of_nat col - 1) = grid_at g row (col - 1).
Proof.
  intros P. unfold grid_at_py, grid_at, py_nth.
  destruct (nth_error g row) as [r|]; [|reflexivity].
  destruct (Z.ltb_spec (Z.of_nat col - 1) 0) as [L|L]; [lia|].
  f_equal. lia.
Qed.

Lemma ineq_call_vars h csp futo_grid variables row col csp' :
  ineq_call h csp futo_grid variables row col = Some csp' ->
  csp_vars csp' = csp_vars csp.
Proof.
  unfold ineq_call, ineq_constraint.
  destruct (nth_error variables row) as [vrow|]; [|discriminate].
  destruct (grid_at_py futo_grid row (Z.of_nat col - 1)) as [sym|]; [|discriminate].
  destruct (py_nth vrow (Z.of_nat (col / 2) - 1)) as [var1|]; [|discriminate].
  destruct (py_nth vrow (Z.of_nat (col / 2))) as [var2|]; [|discriminate].
  destruct (ineq_tuples _ _ _) as [sat|]; [|discriminate].
  intros E. now injection E as <-.
Qed.

Lemma binary_constraint_vars h csp variables b row col1 col2 col row1 row2 csp' :
  binary_constraint h csp variables b row col1 col2 col row1 row2 = Some csp' ->
  csp_vars csp' = csp_vars csp.
Proof.
  unfold binary_constraint. destruct b.
  - destruct (match nth_error variables row with
              | Some l => nth_error l col1 | None => None end); [|discriminate].
    destruct (match nth_error variables row with
              | Some l => nth_error l col2 | None => None end); [|discriminate].
    intros E. now injection E as <-.
  - destruct (match nth_error variables row1 with
              | Some l => nth_error l col | None => None end); [|discriminate].
    destruct (match nth_error variables row2 with
              | Some l => nth_error l col | None => None end); [|discriminate].
    intros E. now injection E as <-.
Qed.

Lemma all_diff_constraint_vars csp vars domains num_vars csp' :
  all_diff_constraint csp vars domains num_vars = Some csp' ->
  csp_vars csp' = csp_vars csp.
Proof.
  unfold all_diff_constraint.
  destruct (all_diff_tuples domains num_vars); [|discriminate].
  intros E. now injection E as <-.
Qed.

Lemma model_1_cons_vars h variables n csp csp' :
  model_1_cons h variables n csp = Some csp' -> csp_vars csp' = csp_vars csp.
Proof.
  unfold model_1_cons.
  apply (for_each_keeps (fun c => csp_vars c = csp_vars csp)); [|reflexivity].
  intros i c1 c2 Q1.
  apply (for_each_keeps (fun c => csp_vars c = csp_vars csp)); [|exact Q1].
  clear c1 c2 Q1. intros j c1 c2 Q1.
  apply (for_each_keeps (fun c => csp_vars c = csp_vars csp)); [|exact Q1].
  clear c1 c2 Q1. intros k c1 c2 Q1 H.
  destruct (binary_constraint h c1 variables true i j k i j k) as [c3|] eqn:B1;
    [|discriminate].
  apply binary_constraint_vars in B1, H. congruence.
Qed.

Lemma model_2_cons_vars h variables row_domains n csp csp' :
  model_2_cons h variables row_domains n csp = Some csp' ->
  csp_vars csp' = csp_vars csp.
Proof.
  unfold model_2_cons.
  apply (for_each_keeps (fun c => csp_vars c = csp_vars csp)); [|reflexivity].
  intros i c1 c2 Q1 H.
  destruct (column h variables n i) as [[col_vars col_domains]|]; [|discriminate].
  destruct (nth_error variables i) as [vrow|]; [|discriminate].
  destruct (nth_error row_domains i) as [drow|]; [|discriminate].
  destruct (all_diff_constraint c1 vrow drow n) as [c3|] eqn:B1; [|discriminate].
  apply all_diff_constraint_vars in B1, H. congruence.
Qed.

(** ** Every cell gets its variable *)

Lemma half_even c :
  c mod 2 = 0 ->
  (c + 1) / 2 = c / 2 /\ (S c + 1) / 2 = S (c / 2) /\ 2 * (c / 2) = c.
Proof.
  intros E. pose proof (Nat.div_mod_eq c 2) as D.
  assert (A : (c + 1) / 2 = c / 2)
    by (symmetry; apply Nat.div_unique with 1; lia).
  assert (B : (S c + 1) / 2 = S (c / 2))
    by (symmetry; apply Nat.div_unique with 0; lia).
  lia.
Qed.

Lemma half_odd c : c mod 2 <> 0 -> (S c + 1) / 2 = (c + 1) / 2.
Proof.
  intros E. pose proof (Nat.div_mod_eq c 2) as D.
  pose proof (Nat.mod_upper_bound c 2) as U.
  assert (A : (c + 1) / 2 = S (c / 2))
    by (symmetry; apply Nat.div_unique with 0; lia).
  assert (B : (S c + 1) / 2 = S (c / 2))
    by (symmetry; apply Nat.div_unique with 1; lia).
  lia.
Qed.

Section Cells.
Variable futo_grid : grid.
Variable num_col : nat.

Let n := length futo_grid.
Let var_domain := map (fun i => VInt (Z.of_nat i)) (seq 1 n).

Lemma var_setup_new h row col x h' :
  var_setup h futo_grid var_domain row col = Some (x, h') ->
  exists cell,
    grid_at futo_grid row col = Some cell /\ x = next_id h /\
    next_id h' = S (next_id h) /\
    objects h' = upd (objects h) (next_id h)
                     (mkVar ("V" ++ fmt_nat row ++ fmt_nat (col / 2))%string
                            (cell_domain n cell) (cell_domain n cell) None).
Proof.
  unfold var_setup, cell_domain.
  destruct (grid_at futo_grid row col) as [cell|]; [|discriminate].
  intros H. exists cell. split; [reflexivity|].
  destruct (value_eqb cell (VInt 0)); injection H as <- <-; auto.
Qed.

Lemma cells_inv_csp r c h csp csp' variables :
  csp_vars csp' = csp_vars csp -> c mod 2 <> 0 ->
  cells_inv futo_grid num_col r c (h, csp, variables) ->
  cells_inv futo_grid num_col r (S c) (h, csp', variables).
Proof.
  intros E Od (I1 & I2 & I3). split; [exact I1|]. split.
  - intros row vrow Hr. rewrite (I2 row vrow Hr). unfold filled.
    now rewrite (@half_odd c Od).
  - intros row vrow k x Hr Hk. rewrite E. now apply I3 with vrow.
Qed.

Lemma model_1_cell_inv r c s s' :
  cells_inv futo_grid num_col r c s ->
  model_1_cell futo_grid var_domain r c s = Some s' ->
  cells_inv futo_grid num_col r (S c) s'.
Proof.
  destruct s as [[h csp] variables]. intros I H. unfold model_1_cell in H.
  destruct (Nat.eqb_spec (c mod 2) 0) as [Ev|Od].
  - destruct (var_setup h futo_grid var_domain r c) as [[x h']|] eqn:VS;
      [|discriminate].
    destruct (append_at r x variables) as [variables'|] eqn:AP; [|discriminate].
    injection H as <-. destruct I as (I1 & I2 & I3).
    apply var_setup_new in VS. destruct VS as (cell & G & -> & N & O).
    apply append_at_spec in AP. destruct AP as (L & vrow & A1 & A2 & A3).
    destruct (@half_even c Ev) as (E1 & E2 & E3).
    assert (Lv : length vrow = c / 2).
    { rewrite (I2 r vrow A1). unfold filled.
      now rewrite Nat.ltb_irrefl, Nat.eqb_refl. }
    assert (Old : forall row k y,
               y < next_id h /\ In y (csp_vars csp) /\
               (exists cell0,
                   grid_at futo_grid row (2 * k) = Some cell0 /\
                   objects h y = mkVar ("V" ++ fmt_nat row ++ fmt_nat k)%string
                                       (cell_domain (length futo_grid) cell0)
                                       (cell_domain (length futo_grid) cell0) None) ->
               y < next_id h' /\ In y (csp_vars (add_var csp (next_id h))) /\
               (exists cell0,
                   grid_at futo_grid row (2 * k) = Some cell0 /\
                   objects h' y = mkVar ("V" ++ fmt_nat row ++ fmt_nat k)%string
                                        (cell_domain (length futo_grid) cell0)
                                        (cell_domain (length futo_grid) cell0) None)).
    { intros row k y (Y1 & Y2 & cell0 & Y3 & Y4). split; [lia|].
      split; [simpl; apply in_or_app; now left|]. exists cell0.
      split; [exact Y3|]. rewrite O, upd_other by lia. exact Y4. }
    split; [congruence|]. split.
    + intros row vrow' Hr. destruct (Nat.eq_dec row r) as [->|Nr].
      * rewrite A2 in Hr. injection Hr as <-. rewrite length_app, Lv.
        unfold filled. rewrite Nat.ltb_irrefl, Nat.eqb_refl, E2. simpl. lia.
      * rewrite A3 in Hr by exact Nr. rewrite (I2 row vrow' Hr). unfold filled.
        destruct (Nat.ltb row r); [reflexivity|].
        destruct (Nat.eqb_spec row r); [contradiction | reflexivity].
    + intros row vrow' k y Hr Hk. destruct (Nat.eq_dec row r) as [->|Nr].
      * rewrite A2 in Hr. injection Hr as <-.
        destruct (Nat.lt_ge_cases k (length vrow)) as [Lk|Lk].
        -- rewrite nth_error_app1 in Hk by exact Lk.
           apply Old. now apply I3 with vrow.
        -- rewrite nth_error_app2 in Hk by exact Lk.
           destruct (k - length vrow) as [|d] eqn:D; simpl in Hk;
             [|destruct d; discriminate].
           injection Hk as <-. assert (K : k = c / 2) by lia. subst k.
           split; [lia|]. split; [simpl; apply in_or_app; right; now left|].
           exists cell. rewrite E3. split; [exact G|].
           rewrite O. apply upd_same.
      * rewrite A3 in Hr by exact Nr. apply Old. now apply I3 with vrow'.
  - destruct (ineq_here futo_grid r c) as [[|]|]; [| |discriminate].
    + destruct (ineq_call h csp futo_grid variables r c) as [csp'|] eqn:IC;
        [|discriminate].
      injection H as <-. apply ineq_call_vars in IC.
      now apply cells_inv_csp with csp.
    + injection H as <-. now apply cells_inv_csp with csp.
Qed.

Lemma cells_inv_next_row r s :
  cells_inv futo_grid num_col r num_col s ->
  cells_inv futo_grid num_col (S r) 0 s.
Proof.
  destruct s as [[h csp] variables]. intros (I1 & I2 & I3).
  split; [exact I1|]. split; [|exact I3].
  intros row vrow Hr. rewrite (I2 row vrow Hr). unfold filled.
  destruct (Nat.ltb_spec row r), (Nat.ltb_spec row (S r)),
    (Nat.eqb_spec row r), (Nat.eqb_spec row (S r)); try lia; reflexivity.
Qed.

Lemma cells_inv_init h csp :
  cells_inv futo_grid num_col 0 0 (h, csp, repeat [] n).
Proof.
  split; [apply repeat_length|].
  assert (E : forall row vrow, nth_error (repeat (@nil var_id) n) row = Some vrow ->
                               vrow = []).
  { intros row vrow H. apply nth_error_In, repeat_spec in H. exact H. }
  split.
  - intros row vrow H. rewrite (E row vrow H). unfold filled. simpl.
    now destruct (Nat.eqb row 0).
  - intros row vrow k x H Hk. rewrite (E row vrow H) in Hk.
    now rewrite nth_error_nil in Hk.
Qed.

Lemma model_1_cells_inv s s' :
  cells_inv futo_grid num_col 0 0 s ->
  for_each (range 0 n) (fun row =>
    for_each (range 0 num_col) (model_1_cell futo_grid var_domain row)) s = Some s' ->
  cells_inv futo_grid num_col n 0 s'.
Proof.
  intros I H.
  apply (@for_each_ind build1 nat (fun r => cells_inv futo_grid num_col r 0)) in H;
    [|clear s s' I H|exact I].
  - now rewrite length_range, Nat.sub_0_r in H.
  - intros r row s1 s2 Hr I1 H. apply nth_error_range in Hr. destruct Hr as [-> _].
    simpl. apply cells_inv_next_row.
    apply (@for_each_ind build1 nat (fun c => cells_inv futo_grid num_col r c)) in H;
      [|clear s1 s2 I1 H|exact I1].
    + now rewrite length_range, Nat.sub_0_r in H.
    + intros c col s1 s2 Hc I1 H. apply nth_error_range in Hc.
      destruct Hc as [-> _]. simpl. now apply model_1_cell_inv with s1.
Qed.

End Cells.



(** Model 2 treats a cell as model 1 does, and notes its domain. *)
Lemma model_2_cell_proj futo_grid var_domain row col s s' :
  model_2_cell futo_grid var_domain row col s = Some s' ->
  model_1_cell futo_grid var_domain row col (fst s) = Some (fst s').
Proof.
  destruct s as [[[h csp] variables] row_domains]. unfold model_2_cell, model_1_cell.
  cbn [fst]. destruct (Nat.eqb (col mod 2) 0).
  - destruct (var_setup h futo_grid var_domain row col) as [[x h1]|]; [|discriminate].
    destruct (append_at row x variables) as [variables'|]; [|discriminate].
    destruct (append_at row (cur_domain (objects h1) x) row_domains); [|discriminate].
    intros E. now injection E as <-.
  - destruct (ineq_here futo_grid row col) as [[|]|]; [| |discriminate].
    + destruct (ineq_call h csp futo_grid variables row col); [|discriminate].
      intros E. now injection E as <-.
    + intros E. now injection E as <-.
Qed.

Lemma model_2_cells_inv futo_grid num_col (s s' : build2) :
  cells_inv futo_grid num_col 0 0 (fst s) ->
  for_each (range 0 (length futo_grid)) (fun row =>
    for_each (range 0 num_col)
             (model_2_cell futo_grid
                (map (fun i => VInt (Z.of_nat i)) (seq 1 (length futo_grid))) row))
    s = Some s' ->
  cells_inv futo_grid num_col (length futo_grid) 0 (fst s').
Proof.
  intros I H.
  apply (@for_each_ind build2 nat
           (fun r s => cells_inv futo_grid num_col r 0 (fst s))) in H;
    [|clear s s' I H|exact I].
  - now rewrite length_range, Nat.sub_0_r in H.
  - intros r row s1 s2 Hr I1 H. apply nth_error_range in Hr. destruct Hr as [-> _].
    simpl. apply cells_inv_next_row.
    apply (@for_each_ind build2 nat
             (fun c s => cells_inv futo_grid num_col r c (fst s))) in H;
      [|clear s1 s2 I1 H|exact I1].
    + now rewrite length_range, Nat.sub_0_r in H.
    + intros c col s1 s2 Hc I1 H. apply nth_error_range in Hc.
      destruct Hc as [-> _]. simpl. apply model_2_cell_proj in H.
      now apply model_1_cell_inv with (fst s1).
Qed.




(** ** The two models of the empty board of three rows *)

Lemma model_1_empty3 :
  exists h, futoshiki_csp_model_1 heap0 empty3 = Some (csp1_3, vars_3, h) /\
            forall x, x < 9 -> cur_domain (objects h) x = dom123.
Proof.
  eexists. split; [vm_compute; reflexivity|].
  intros x Hx. do 9 (destruct x as [|x]; [reflexivity|]). lia.
Qed.

Lemma model_2_empty3 :
  exists h, futoshiki_csp_model_2 heap0 empty3 = Some (csp2_3, vars_3, h) /\
            forall x, x < 9 -> cur_domain (objects h) x = dom123.
Proof.
  eexists. split; [vm_compute; reflexivity|].
  intros x Hx. do 9 (destruct x as [|x]; [reflexivity|]). lia.
Qed.

Lemma check_tuple c (a : var_id -> value) sc :
  check c (map (fun x => Some (a x)) sc) = true ->
  In (map a sc) (satisfying_tuples c).
Proof.
  unfold check. rewrite existsb_exists. intros (t & Ht & E).
  destruct (list_eq_dec opt_value_eq_dec (map Some t) (map (fun x => Some (a x)) sc))
    as [K|]; [|discriminate].
  assert (t = map a sc); [|now subst].
  clear -K. revert sc K. induction t as [|v t IH]; intros [|x sc] K; simpl in K;
    try discriminate; [reflexivity|].
  injection K as -> K. simpl. f_equal. now apply IH.
Qed.

(** A CSP whose tuples hold values of [dom123] only and whose scopes
    cover the nine variables is satisfied by such values only. *)
Lemma satisfies_in_domain csp a :
  forallb (fun c => forallb (forallb (fun v => mem v dom123)) (satisfying_tuples c))
          (csp_cons csp) = true ->
  forallb (fun x => existsb (fun c => existsb (Nat.eqb x) (scope c)) (csp_cons csp))
          (seq 0 9) = true ->
  satisfies csp a = true ->
  forall x, x < 9 -> mem (a x) dom123 = true.
Proof.
  intros D C S x Hx. unfold satisfies, get_scope in S.
  rewrite forallb_forall in D, C, S.
  assert (Hs : In x (seq 0 9)) by (apply in_seq; lia).
  specialize (C x Hs). apply existsb_exists in C. destruct C as (c & Hc & Hxc).
  apply existsb_exists in Hxc. destruct Hxc as (y & Hy & E).
  apply Nat.eqb_eq in E. subst y.
  specialize (S c Hc). apply check_tuple in S.
  specialize (D c Hc). rewrite forallb_forall in D. specialize (D _ S).
  rewrite forallb_forall in D. apply D. now apply in_map.
Qed.

Lemma latin_in_domain a :
  latin_squareb 3 vars_3 a = true -> forall x, x < 9 -> mem (a x) dom123 = true.
Proof.
  unfold latin_squareb, vars_3. intros H.
  apply andb_true_iff in H. destruct H as [H _].
  apply andb_true_iff in H. destruct H as [H _].
  cbn [forallb] in H. change (map (fun i => VInt (Z.of_nat i)) (seq 1 3)) with dom123 in H.
  repeat (apply andb_true_iff in H; destruct H as [? H]).
  repeat match goal with
         | K : _ && _ = true |- _ => apply andb_true_iff in K; destruct K
         end.
  intros x Hx. do 9 (destruct x as [|x]; [assumption|]). lia.
Qed.

(** All 19683 ways to fill nine cells from [dom123], checked one by one. *)
Lemma empty3_by_cases :
  forallb (fun l =>
             Bool.eqb (satisfies csp1_3 (of_list l)) (latin_squareb 3 vars_3 (of_list l))
             && Bool.eqb (satisfies csp2_3 (of_list l))
                         (latin_squareb 3 vars_3 (of_list l)))
          (every_tuple (repeat dom123 9)) = true.
Proof. vm_compute. reflexivity. Qed.

Lemma empty3_in_domain a :
  (forall x, x < 9 -> mem (a x) dom123 = true) ->
  satisfies csp1_3 a = latin_squareb 3 vars_3 a /\
  satisfies csp2_3 a = latin_squareb 3 vars_3 a.
Proof.
  intros D. pose proof empty3_by_cases as B. rewrite forallb_forall in B.
  specialize (B (map a (seq 0 9))).
  assert (I : In (map a (seq 0 9)) (every_tuple (repeat dom123 9))).
  { apply every_tuple_spec. simpl.
    repeat (constructor; [apply mem_In, D; lia|]). constructor. }
  apply B in I. apply andb_true_iff in I. destruct I as [I1 I2].
  apply eqb_prop in I1, I2. split; [exact I1 | exact I2].
Qed.

(** C8. On the board of three rows with no inequality and no given value
    the two models return the same nine variables, [vars_3]: three rows of
    three cells, each with the current domain {1, 2, 3}, and these are the
    variables of both CSPs. A full assignment satisfies every constraint
    of model 1 exactly when it satisfies every constraint of model 2,
    exactly when it fills that board with a Latin square of order 3:
    values among 1, 2, 3, none twice in a row, none twice in a column.
    There are such assignments. *)
Theorem models_agree_on_empty3 :
  exists csp1 csp2 h1 h2,
    futoshiki_csp_model_1 heap0 empty3 = Some (csp1, vars_3, h1) /\
    futoshiki_csp_model_2 heap0 empty3 = Some (csp2, vars_3, h2) /\
    csp_vars csp1 = concat vars_3 /\ csp_vars csp2 = concat vars_3 /\
    (forall x, In x (concat vars_3) ->
               cur_domain (objects h1) x = dom123 /\
               cur_domain (objects h2) x = dom123) /\
    (forall a, satisfies csp1 a = satisfies csp2 a) /\
    (forall a, satisfies csp1 a = latin_squareb 3 vars_3 a) /\
    (exists a, satisfies csp1 a = true).
Proof.
  destruct model_1_empty3 as (h1 & E1 & D1).
  destruct model_2_empty3 as (h2 & E2 & D2).
  exists csp1_3, csp2_3, h1, h2.
  split; [exact E1|]. split; [exact E2|].
  split; [reflexivity|]. split; [reflexivity|].
  split.
  { intros x Hx.
    assert (L : x < 9) by (simpl in Hx; intuition lia).
    split; [now apply D1 | now apply D2]. }
  assert (K : forall a, satisfies csp1_3 a = latin_squareb 3 vars_3 a /\
                        satisfies csp2_3 a = latin_squareb 3 vars_3 a).
  { intros a.
    assert (D : (forall x, x < 9 -> mem (a x) dom123 = true) \/
                (satisfies csp1_3 a = false /\ satisfies csp2_3 a = false /\
                 latin_squareb 3 vars_3 a = false)).
    { destruct (satisfies csp1_3 a) eqn:S1;
        [left; now apply (@satisfies_in_domain csp1_3 a)|].
      destruct (satisfies csp2_3 a) eqn:S2;
        [left; now apply (@satisfies_in_domain csp2_3 a)|].
      destruct (latin_squareb 3 vars_3 a) eqn:L;
        [left; now apply latin_in_domain|].
      right. auto. }
    destruct D as [D|(A1 & A2 & A3)]; [now apply empty3_in_domain|].
    rewrite A1, A2, A3. auto. }
  split; [|split].
  - intros a. destruct (K a) as [K1 K2]. congruence.
  - intros a. apply K.
  - exists (of_list [VInt 1; VInt 2; VInt 3; VInt 2; VInt 3; VInt 1;
                     VInt 3; VInt 1; VInt 2]).
    vm_compute. reflexivity.
Qed.

(** ** The all-different constraints of model 2 *)

Lemma init_row_domains_spec n : init_row_domains n = repeat [] n.
Proof.
  unfold init_row_domains.
  assert (G : forall (l : list nat) (acc : list (list (list value))),
             fold_left (fun acc (_ : nat) => acc ++ [[]]) l acc
             = acc ++ repeat [] (length l)).
  { induction l as [|i l IH]; intros acc; simpl; [now rewrite app_nil_r|].
    rewrite IH, <- app_assoc. reflexivity. }
  rewrite G, length_range, Nat.sub_0_r. reflexivity.
Qed.

Lemma ineq_call_cons h csp futo_grid variables row col csp' :
  ineq_call h csp futo_grid variables row col = Some csp' ->
  exists c, csp_cons csp' = csp_cons csp ++ [c] /\ cname c <> ":()"%string.
Proof.
  unfold ineq_call, ineq_constraint.
  destruct (nth_error variables row) as [vrow|]; [|discriminate].
  destruct (grid_at_py futo_grid row (Z.of_nat col - 1)) as [sym|]; [|discriminate].
  destruct (py_nth vrow (Z.of_nat (col / 2) - 1)) as [var1|]; [|discriminate].
  destruct (py_nth vrow (Z.of_nat (col / 2))) as [var2|]; [|discriminate].
  destruct (ineq_tuples _ _ _) as [sat|]; [|discriminate].
  intros E. injection E as <-. eexists. split; [reflexivity|].
  simpl. discriminate.
Qed.

Lemma model_2_cell_inv2 futo_grid num_col var_domain r c s s' :
  cells_inv futo_grid num_col r c (fst s) -> build2_inv s ->
  model_2_cell futo_grid var_domain r c s = Some s' ->
  build2_inv s'.
Proof.
  destruct s as [[[h csp] variables] rd]. intros (_ & _ & I3) (B1 & B2 & B3) H.
  unfold model_2_cell in H. destruct (Nat.eqb (c mod 2) 0).
  - destruct (var_setup h futo_grid var_domain r c) as [[x h1]|] eqn:VS;
      [|discriminate].
    destruct (append_at r x variables) as [variables'|] eqn:AP; [|discriminate].
    destruct (append_at r (cur_domain (objects h1) x) rd) as [rd'|] eqn:AD;
      [|discriminate].
    injection H as <-.
    assert (O : objects h1 = upd (objects h) (next_id h) (objects h1 (next_id h))
                /\ x = next_id h).
    { unfold var_setup in VS. destruct (grid_at futo_grid r c); [|discriminate].
      destruct (value_eqb v (VInt 0)); injection VS as <- <-; simpl;
        now rewrite upd_same. }
    destruct O as [O ->].
    apply append_at_spec in AP, AD.
    destruct AP as (L1 & vrow & A1 & A2 & A3).
    destruct AD as (L2 & drow & D1 & D2 & D3).
    assert (Same : forall row vrow0,
               nth_error variables row = Some vrow0 ->
               map (cur_domain (objects h1)) vrow0 = map (cur_domain (objects h)) vrow0).
    { intros row vrow0 Hr. apply map_ext_in. intros y Hy.
      apply In_nth_error in Hy. destruct Hy as [k Hk].
      destruct (I3 row vrow0 k y Hr Hk) as [Y _].
      unfold cur_domain. rewrite O, upd_other by lia. reflexivity. }
    split; [congruence|]. split; [|exact B3].
    intros row vrow' drow' Hr Hd. destruct (Nat.eq_dec row r) as [->|Nr].
    + rewrite A2 in Hr. rewrite D2 in Hd. injection Hr as <-. injection Hd as <-.
      rewrite map_app. simpl. f_equal.
      rewrite (Same r vrow A1). now apply B2 with r.
    + rewrite A3 in Hr by exact Nr. rewrite D3 in Hd by exact Nr.
      rewrite (Same row vrow' Hr). now apply B2 with row.
  - destruct (ineq_here futo_grid r c) as [[|]|]; [| |discriminate].
    + destruct (ineq_call h csp futo_grid variables r c) as [csp1|] eqn:IC;
        [|discriminate].
      injection H as <-. apply ineq_call_cons in IC. destruct IC as (d & E & Nd).
      split; [exact B1|]. split; [exact B2|].
      intros e He. rewrite E in He. apply in_app_or in He.
      destruct He as [He|[<-|[]]]; [now apply B3 | exact Nd].
    + injection H as <-. repeat split; assumption.
Qed.

Lemma model_2_cells_inv2 futo_grid num_col (s s' : build2) :
  cells_inv futo_grid num_col 0 0 (fst s) -> build2_inv s ->
  for_each (range 0 (length futo_grid)) (fun row =>
    for_each (range 0 num_col)
             (model_2_cell futo_grid
                (map (fun i => VInt (Z.of_nat i)) (seq 1 (length futo_grid))) row))
    s = Some s' ->
  build2_inv s'.
Proof.
  intros I B H.
  apply (@for_each_ind build2 nat
           (fun r s => cells_inv futo_grid num_col r 0 (fst s) /\ build2_inv s)) in H;
    [apply H|clear s s' I B H|now split].
  intros r row s1 s2 Hr [I1 B1] H. apply nth_error_range in Hr. destruct Hr as [-> _].
  simpl.
  apply (@for_each_ind build2 nat
           (fun c s => cells_inv futo_grid num_col r c (fst s) /\ build2_inv s)) in H;
    [|clear s1 s2 I1 B1 H|now split].
  - rewrite length_range, Nat.sub_0_r in H. destruct H as [I2 B2].
    split; [now apply cells_inv_next_row | exact B2].
  - intros c col s1 s2 Hc [I1 B1] H. apply nth_error_range in Hc.
    destruct Hc as [-> _]. simpl. split.
    + apply model_2_cell_proj in H. now apply model_1_cell_inv with (fst s1).
    + eapply model_2_cell_inv2; [exact I1 | exact B1 | exact H].
Qed.

Lemma column_spec h variables n i col_vars col_domains :
  column h variables n i = Some (col_vars, col_domains) ->
  col_domains = map (cur_domain (objects h)) col_vars /\ length col_vars = n.
Proof.
  unfold column. intros H.
  apply (@for_each_ind (list var_id * list (list value)) nat
           (fun k acc => snd acc = map (cur_domain (objects h)) (fst acc) /\
                         length (fst acc) = k)) in H.
  - rewrite length_range, Nat.sub_0_r in H. exact H.
  - clear H. intros k j [cv cd] s2 _ [E L] H. simpl in E, L.
    destruct (nth_error variables j) as [vrow|]; [|discriminate].
    destruct (nth_error vrow i) as [x|]; [|discriminate].
    injection H as <-. simpl. rewrite map_app, length_app, E, L. simpl.
    split; [reflexivity | lia].
  - split; reflexivity.
Qed.

Lemma all_diff_constraint_cons st csp vars csp' :
  all_diff_constraint csp vars (map (cur_domain st) vars) (length vars) = Some csp' ->
  exists c, csp_cons csp' = csp_cons csp ++ [c] /\ all_different st c.
Proof.
  destruct (all_diff_constraint_spec st csp vars) as (sat & E & H).
  rewrite E. intros K. injection K as <-.
  exists (mkConstraint ":()" vars sat). split; [reflexivity | exact H].
Qed.

Lemma model_2_cons_all_diff h variables row_domains n csp csp' :
  (forall row vrow, nth_error variables row = Some vrow -> row < n ->
                    length vrow = n) ->
  (forall row vrow drow,
      nth_error variables row = Some vrow ->
      nth_error row_domains row = Some drow ->
      drow = map (cur_domain (objects h)) vrow) ->
  (forall c, In c (csp_cons csp) -> cname c = ":()"%string ->
             all_different (objects h) c) ->
  model_2_cons h variables row_domains n csp = Some csp' ->
  forall c, In c (csp_cons csp') -> cname c = ":()"%string ->
            all_different (objects h) c.
Proof.
  intros Len Rd Q0 H. unfold model_2_cons in H.
  set (P := fun (_ : nat) (csp0 : CSP) =>
              forall c, In c (csp_cons csp0) -> cname c = ":()"%string ->
                        all_different (objects h) c).
  refine (@for_each_ind CSP nat P _ _ _ csp csp' Q0 H).
  clear H. unfold P. intros k i c1 c2 Hi Q1 H. apply nth_error_range in Hi.
  destruct Hi as [-> Hi]. change (0 + k) with k in *.
  destruct (column h variables n k) as [[col_vars col_domains]|] eqn:C;
    [|discriminate].
  apply column_spec in C. destruct C as [-> Lc].
  destruct (nth_error variables k) as [vrow|] eqn:Hv; [|discriminate].
  destruct (nth_error row_domains k) as [drow|] eqn:Hd; [|discriminate].
  rewrite (Rd k vrow drow Hv Hd) in H. rewrite <- (Len k vrow Hv Hi) in H at 1.
  destruct (all_diff_constraint c1 vrow _ _) as [c3|] eqn:A1; [|discriminate].
  rewrite <- Lc in H.
  apply all_diff_constraint_cons in A1, H.
  destruct A1 as (d1 & E1 & G1). destruct H as (d2 & E2 & G2).
  intros c Hc Nc. rewrite E2, E1 in Hc.
  apply in_app_or in Hc. destruct Hc as [Hc|[<-|[]]]; [|exact G2].
  apply in_app_or in Hc. destruct Hc as [Hc|[<-|[]]]; [now apply Q1 | exact G1].
Qed.

Lemma model_2_all_different h futo_grid csp variables h' :
  futoshiki_csp_model_2 h futo_grid = Some (csp, variables, h') ->
  length (hd [] futo_grid) = 2 * length futo_grid - 1 ->
  forall c, In c (csp_cons csp) -> cname c = ":()"%string ->
            all_different (objects h') c.
Proof.
  unfold futoshiki_csp_model_2.
  destruct futo_grid as [|row0 rest]; [simpl; discriminate|].
  set (g := row0 :: rest). cbv zeta. rewrite init_lists_spec, init_row_domains_spec.
  destruct (for_each (range 0 (length g)) _ _) as [[[[h1 csp1] vars1] rd1]|] eqn:F;
    [|discriminate].
  destruct (model_2_cons h1 vars1 rd1 (length g) csp1) as [csp2|] eqn:C;
    [|discriminate].
  intros E Sq. injection E as <- <- <-. simpl hd in Sq.
  assert (I0 : cells_inv g (length row0) 0 0
                 (fst (h, new_CSP ("Futoshiki CSCP Model 2 - " ++ fmt_nat (length g)
                                     ++ "x" ++ fmt_nat (length g))%string,
                       repeat (@nil var_id) (length g),
                       repeat (@nil (list value)) (length g))))
    by apply cells_inv_init.
  assert (B0 : build2_inv
                 (h, new_CSP ("Futoshiki CSCP Model 2 - " ++ fmt_nat (length g)
                                ++ "x" ++ fmt_nat (length g))%string,
                  repeat (@nil var_id) (length g),
                  repeat (@nil (list value)) (length g))).
  { split; [now rewrite !repeat_length|]. split; [|intros c []].
    intros row vrow drow Hv Hd.
    apply nth_error_In, repeat_spec in Hv. apply nth_error_In, repeat_spec in Hd.
    now subst. }
  pose proof (@model_2_cells_inv g (length row0) _ _ I0 F) as I.
  pose proof (@model_2_cells_inv2 g (length row0) _ _ I0 B0 F) as B.
  simpl fst in I. destruct I as (I1 & I2 & _). destruct B as (_ & B2 & B3).
  apply (@model_2_cons_all_diff h1 vars1 rd1 (length g) csp1 csp2); trivial.
  - intros row vrow Hv Hr. rewrite (I2 row vrow Hv). unfold filled.
    destruct (Nat.ltb_spec row (length g)); [|lia]. rewrite Sq.
    assert (Lg : 1 <= length g) by (simpl; lia).
    replace (2 * length g - 1 + 1) with (length g * 2) by lia.
    apply Nat.div_mul. discriminate.
  - intros c Hc Nc. now apply B3 in Hc.
Qed.

(** C9, for the calls that pass the number of variables.
    [all_diff_constraint], given the current domains of its scope
    variables and their number, raises nothing and adds one constraint
    over these variables whose satisfying tuples are exactly the tuples of
    the cross product of these domains (position by position a value of
    the domain of the variable at that position) that hold no value twice;
    and this is how [futoshiki_csp_model_2] calls it on a square board (a
    first row of 2n-1 entries for n rows): every all-different constraint
    of the CSP it returns has exactly these tuples. *)
Theorem all_diff_constraint_exact :
  (forall st csp vars,
      exists c,
        all_diff_constraint csp vars (map (cur_domain st) vars) (length vars)
        = Some (add_constraint csp c) /\
        scope c = vars /\ all_different st c) /\
  (forall h futo_grid csp variables h',
      futoshiki_csp_model_2 h futo_grid = Some (csp, variables, h') ->
      length (hd [] futo_grid) = 2 * length futo_grid - 1 ->
      forall c, In c (csp_cons csp) -> cname c = ":()"%string ->
                all_different (objects h') c).
Proof.
  split.
  - intros st csp vars.
    destruct (all_diff_constraint_spec st csp vars) as (sat & E & H).
    exists (mkConstraint ":()" vars sat). split; [exact E|].
    split; [reflexivity | exact H].
  - intros h futo_grid csp variables h'. apply model_2_all_different.
Qed.

Lemma all_diff_constraint_exact_witness :
  exists csp variables h',
    futoshiki_csp_model_2 heap0 given3 = Some (csp, variables, h') /\
    length (hd [] given3) = 2 * length given3 - 1 /\
    forall c, In c (csp_cons csp) -> cname c = ":()"%string ->
              all_different (objects h') c.
Proof.
  eexists _, _, _. split; [vm_compute; reflexivity|]. split; [reflexivity|].
  eapply (proj2 all_diff_constraint_exact heap0 given3);
    [vm_compute; reflexivity | reflexivity].
Defined.

(** C9 as first stated fails: [all_diff_constraint] compares the first
    [num_vars] positions of a tuple only, and [futoshiki_csp_model_2]
    passes the number of rows for it. On a board of two rows of three
    cells a row has three variables and [num_vars] is 2, so the row
    constraint keeps the tuple 1, 2, 1, which holds a value twice. *)
Lemma all_diff_constraint_keeps_repeated_value :
  exists csp variables h' c,
    futoshiki_csp_model_2 heap0 wide2 = Some (csp, variables, h') /\
    In c (csp_cons csp) /\ cname c = ":()"%string /\
    length (scope c) = 3 /\
    In [VInt 1; VInt 2; VInt 1] (satisfying_tuples c) /\
    ~ NoDup [VInt 1; VInt 2; VInt 1] /\
    ~ all_different (objects h') c.
Proof.
  eexists _, _, _, _. split; [vm_compute; reflexivity|].
  split; [left; reflexivity|]. split; [reflexivity|]. split; [reflexivity|].
  assert (R : ~ NoDup [VInt 1; VInt 2; VInt 1]).
  { intros N. inversion N as [|v l K _]. apply K. right. now left. }
  assert (I : In [VInt 1; VInt 2; VInt 1]
                 [[VInt 1; VInt 2; VInt 1]; [VInt 1; VInt 2; VInt 2];
                  [VInt 2; VInt 1; VInt 1]; [VInt 2; VInt 1; VInt 2]])
    by now left.
  split; [exact I|]. split; [exact R|].
  intros A. apply R. apply (proj1 (A _) I).
Qed.

(** The same at the call itself: three variables and [num_vars = 2]. *)
Lemma all_diff_constraint_two_of_three :
  exists c,
    all_diff_constraint (new_CSP "w") [0; 1; 2]
                        (map (cur_domain ex_st) [0; 1; 2]) 2
    = Some (add_constraint (new_CSP "w") c) /\
    In [VInt 1; VInt 2; VInt 1] (satisfying_tuples c).
Proof. eexists. split; [vm_compute; reflexivity|]. simpl. tauto. Qed.

(** * Further properties *)

(** ** Propagation never removes a solution *)

Lemma solution_tuple csp a c :
  In c (csp_cons csp) -> satisfies csp a = true ->
  In (map a (scope c)) (satisfying_tuples c).
Proof.
  intros Hc S. unfold satisfies, get_scope in S. rewrite forallb_forall in S.
  apply check_tuple. now apply S.
Qed.

Lemma tuple_consistent_solution st a x sc :
  (forall y, In y sc -> In (a y) (cur_domain st y)) ->
  tuple_consistent st sc (map a sc) x (a x) = true.
Proof.
  induction sc as [|y sc IH]; intros H; simpl; [reflexivity|].
  rewrite IH by (intros z Hz; apply H; now right). rewrite andb_true_r.
  destruct (Nat.eqb_spec y x) as [->|N]; [apply value_eqb_refl|].
  apply mem_In, H. now left.
Qed.

(** The value that a solution gives to a variable has support. *)
Lemma solution_support csp st a c x :
  In c (csp_cons csp) -> satisfies csp a = true -> extends csp st a ->
  has_support st c x (a x) = true.
Proof.
  intros Hc S E. unfold has_support. apply existsb_exists.
  exists (map a (scope c)). split; [now apply solution_tuple with csp|].
  apply tuple_consistent_solution. intros y Hy. now apply E with c.
Qed.

Lemma GAC_values_keeps csp a c x vals pruned pf st pruned' pf' st' :
  In c (csp_cons csp) -> satisfies csp a = true ->
  extends csp st a -> spares pruned a ->
  GAC_values c x vals pruned pf st = Some ((pruned', pf'), st') ->
  extends csp st' a /\ spares pruned' a.
Proof.
  intros Hc S E Sp H. apply GAC_values_spec in H. cbv zeta in H.
  destruct H as (H1 & _ & _ & H4 & _ & _ & H7 & H8 & _ & _).
  assert (K : ~ In (a x) (unsupported st c x vals)).
  { unfold unsupported. rewrite filter_In.
    rewrite (@solution_support csp st a c x Hc S E). intros [_ F]. discriminate. }
  split.
  - intros d y Hd Hy. specialize (E d y Hd Hy).
    destruct (Nat.eq_dec y x) as [->|N].
    + unfold cur_domain in *. rewrite H7.
      destruct (assigned_value (st x)); [exact E|].
      rewrite H8. apply filter_In. split; [exact E|].
      apply negb_true_iff. destruct (mem (a x) (unsupported st c x vals)) eqn:M;
        [|reflexivity].
      apply mem_In in M. contradiction.
    + unfold cur_domain in *. now rewrite H4.
  - intros y v Hp. rewrite H1 in Hp. apply in_app_or in Hp.
    destruct Hp as [Hp|Hp]; [now apply Sp|].
    apply in_map_iff in Hp. destruct Hp as (u & Eu & Hu). injection Eu as <- <-.
    intros ->. contradiction.
Qed.

Lemma GAC_vars_keeps csp a c xs : forall pruned queue st b pruned' queue' st',
  In c (csp_cons csp) -> satisfies csp a = true ->
  extends csp st a -> spares pruned a ->
  GAC_vars csp c xs pruned queue st = Some ((b, pruned', queue'), st') ->
  extends csp st' a /\ spares pruned' a.
Proof.
  induction xs as [|x xs IH]; intros pruned queue st b pruned' queue' st' Hc S E Sp H;
    simpl in H.
  - injection H as <- <- <- <-. auto.
  - unfold bind, gets in H.
    destruct (GAC_values c x (cur_domain st x) pruned false st)
      as [[[p1 f1] st1]|] eqn:V; [|discriminate].
    apply (@GAC_values_keeps csp a) in V; trivial. destruct V as [E1 Sp1].
    simpl in H. destruct (Nat.eqb (length (cur_domain st1 x)) 0).
    + injection H as <- <- <- <-. auto.
    + destruct f1; eapply IH; eauto.
Qed.

Lemma GAC_loop_keeps csp a fuel : forall queue pruned st b pruned' st',
  (forall d, In d queue -> In d (csp_cons csp)) ->
  satisfies csp a = true -> extends csp st a -> spares pruned a ->
  GAC_loop fuel csp queue pruned st = Returns (b, pruned') st' ->
  b = true /\ extends csp st' a /\ spares pruned' a.
Proof.
  induction fuel as [|fuel IH]; intros queue pruned st b pruned' st' Hq S E Sp H;
    destruct queue as [|c queue]; simpl in H; try discriminate.
  - injection H as <- <- <-. auto.
  - injection H as <- <- <-. auto.
  - assert (Hc : In c (csp_cons csp)) by (apply Hq; now left).
    destruct (GAC_vars csp c (get_unasgn_vars st c) pruned queue st)
      as [[[[b1 p1] q1] st1]|] eqn:V; [|discriminate].
    pose proof V as K. apply (@GAC_vars_keeps csp a) in K; trivial.
    destruct K as [E1 Sp1]. destruct b1.
    + apply IH in H; trivial.
      eapply GAC_vars_progress; [exact Hc| | |exact V].
      * intros x Hx. now apply get_unasgn_vars_unassigned in Hx.
      * intros d Hd. apply Hq. now right.
    + exfalso. apply GAC_vars_wipeout in V. destruct V as (x & Hx & Z).
      apply get_unasgn_vars_unassigned in Hx. destruct Hx as [Hx _].
      specialize (E1 c x Hc Hx). rewrite Z in E1. contradiction.
Qed.

Lemma start_cons_in csp newVar d :
  In d (match newVar with
        | None => get_all_cons csp
        | Some x => get_cons_with_var csp x
        end) -> In d (csp_cons csp).
Proof.
  destruct newVar as [x|]; [|auto]. intros H. now apply in_get_cons_with_var in H.
Qed.

(** Propagation is sound. If a full assignment satisfies every constraint
    of the CSP and gives every variable a value of its current domain, then
    [prop_FC] and [prop_GAC] cannot return [False], the assignment is still
    possible in the store they leave, and none of its values is in the
    prune list. *)
Theorem propagation_keeps_solutions (csp : CSP) (newVar : option var_id)
        (st : store) (a : var_id -> value) :
  satisfies csp a = true -> extends csp st a ->
  (forall b pruned st',
      prop_FC csp newVar st = Some ((b, pruned), st') ->
      b = true /\ extends csp st' a /\ spares pruned a) /\
  (forall fuel b pruned st',
      prop_GAC fuel csp newVar st = Returns (b, pruned) st' ->
      b = true /\ extends csp st' a /\ spares pruned a).
Proof.
  intros S E. split.
  - intros b pruned st' H. pose proof H as J.
    apply journal_exact_FC_cons with (st0 := st) in J; [|apply journal_exact_nil].
    destruct J as (_ & _ & J3 & J4).
    unfold prop_FC in H. apply FC_cons_spec in H.
    destruct H as (new & En & _ & H3 & _ & H5). simpl in En. subst new.
    assert (Sp : spares pruned a).
    { intros y v Hp ->. destruct (H3 y (a y) Hp) as (c & Hc & _ & _ & F).
      apply start_cons_in in Hc.
      rewrite (@solution_support csp st a c y Hc S E) in F. discriminate. }
    assert (E' : extends csp st' a).
    { intros c y Hc Hy. specialize (E c y Hc Hy). unfold cur_domain in *.
      destruct (J4 y) as (_ & _ & ->).
      destruct (assigned_value (st y)); [exact E|].
      rewrite J3. apply filter_In. split; [exact E|]. apply negb_true_iff.
      destruct (pmem (y, a y) pruned) eqn:M; [|reflexivity].
      apply pmem_In in M. now apply Sp in M. }
    split; [|auto]. destruct b; [reflexivity|].
    destruct (H5 eq_refl) as (c & y & Hc & G & Z). apply start_cons_in in Hc.
    assert (Hy : In y (scope c)).
    { assert (K : In y (get_unasgn_vars st c)) by (rewrite G; now left).
      now apply get_unasgn_vars_unassigned in K. }
    specialize (E' c y Hc Hy). rewrite Z in E'. contradiction.
  - intros fuel b pruned st' H. unfold prop_GAC in H.
    eapply GAC_loop_keeps; [|exact S|exact E| |exact H].
    + intros d. apply start_cons_in.
    + intros y v [].
Qed.

Lemma propagation_keeps_solutions_witness :
  (forall b pruned st',
      prop_FC ex_csp (Some 0) ex_st = Some ((b, pruned), st') ->
      b = true /\ extends ex_csp st' ex_sol /\ spares pruned ex_sol) /\
  (forall fuel b pruned st',
      prop_GAC fuel ex_csp (Some 0) ex_st = Returns (b, pruned) st' ->
      b = true /\ extends ex_csp st' ex_sol /\ spares pruned ex_sol).
Proof.
  apply (@propagation_keeps_solutions ex_csp (Some 0) ex_st ex_sol);
    [reflexivity|].
  intros c x [<-|[<-|[]]] [<-|[<-|[]]]; simpl; auto.
Defined.

(** ** What forward checking and GAC do not look at *)

Lemma starts_from_iff csp newVar c :
  starts_from csp newVar c <->
  In c (match newVar with
        | None => get_all_cons csp
        | Some x => get_cons_with_var csp x
        end).
Proof.
  unfold starts_from. destruct newVar as [x|].
  - rewrite in_get_cons_with_var. split.
    + intros [H1 H2]. auto.
    + intros [H1 H2]. split; [exact H1|]. intros z E. now injection E as <-.
  - unfold get_all_cons. split; [tauto|]. intros H. split; [exact H | discriminate].
Qed.

Lemma start_cons_length csp newVar :
  length (match newVar with
          | None => get_all_cons csp
          | Some x => get_cons_with_var csp x
          end) <= length (csp_cons csp).
Proof.
  destruct newVar as [x|]; [apply filter_length_le | apply Nat.le_refl].
Qed.

Lemma FC_cons_skip cs : forall pruned st,
  (forall c, In c cs -> get_n_unasgn st c <> 1) ->
  FC_cons cs pruned st = Some ((true, pruned), st).
Proof.
  induction cs as [|c cs IH]; intros pruned st H; simpl; [reflexivity|].
  unfold bind, gets. destruct (Nat.eqb_spec (get_n_unasgn st c) 1) as [E|E].
  - exfalso. apply (H c); [now left | exact E].
  - apply IH. intros d Hd. apply H. now right.
Qed.

Lemma GAC_loop_skip csp fuel : forall queue pruned st,
  (forall c, In c queue -> get_unasgn_vars st c = []) ->
  length queue <= fuel ->
  GAC_loop fuel csp queue pruned st = Returns (true, pruned) st.
Proof.
  induction fuel as [|fuel IH]; intros queue pruned st H L;
    destruct queue as [|c queue]; simpl in *; try reflexivity; [lia|].
  rewrite (H c (or_introl eq_refl)). simpl.
  apply IH; [|lia]. intros d Hd. apply H. now right.
Qed.

(** [prop_FC] does nothing unless a constraint it starts from has exactly
    one unassigned variable, and [prop_GAC] does nothing when those
    constraints have none: both return [(True, [])] and leave the store as
    it is. Neither calls [check], so a fully assigned constraint that is
    violated goes unnoticed by them. *)
Theorem propagators_skip_assigned_constraints
        (csp : CSP) (newVar : option var_id) (st : store) :
  ((forall c, starts_from csp newVar c -> get_n_unasgn st c <> 1) ->
   prop_FC csp newVar st = Some ((true, []), st)) /\
  ((forall c, starts_from csp newVar c -> get_n_unasgn st c = 0) ->
   forall fuel, length (csp_cons csp) <= fuel ->
                prop_GAC fuel csp newVar st = Returns (true, []) st).
Proof.
  split.
  - intros H. apply FC_cons_skip. intros c Hc. apply H. now apply starts_from_iff.
  - intros H fuel L. apply GAC_loop_skip.
    + intros c Hc. apply starts_from_iff in Hc. specialize (H c Hc).
      unfold get_n_unasgn in H. now apply length_zero_iff_nil.
    + pose proof (start_cons_length csp newVar). lia.
Qed.

Lemma propagators_skip_assigned_constraints_witness :
  prop_BT clash_csp (Some 0) clash_st = Some ((false, []), clash_st) /\
  prop_FC clash_csp (Some 0) clash_st = Some ((true, []), clash_st) /\
  prop_GAC 1 clash_csp (Some 0) clash_st = Returns (true, []) clash_st.
Proof.
  split; [reflexivity|].
  assert (Z : forall c, starts_from clash_csp (Some 0) c ->
                        get_n_unasgn clash_st c = 0).
  { intros c [[<-|[]] _]. reflexivity. }
  split.
  - apply (proj1 (propagators_skip_assigned_constraints clash_csp (Some 0) clash_st)).
    intros c Hc. rewrite (Z c Hc). discriminate.
  - apply (proj2 (propagators_skip_assigned_constraints clash_csp (Some 0) clash_st) Z).
    simpl. lia.
Defined.

(** ** What a successful GAC leaves behind, whatever it starts from *)

Lemma stable_frame st st' d :
  (forall z, In z (scope d) -> st' z = st z) -> stable st d -> stable st' d.
Proof.
  intros F A x Hx.
  assert (G : get_unasgn_vars st' d = get_unasgn_vars st d).
  { unfold get_unasgn_vars. apply filter_ext_in. intros z Hz.
    unfold is_assigned. now rewrite F. }
  rewrite G in Hx. pose proof Hx as Hs. apply get_unasgn_vars_unassigned in Hs.
  assert (D : cur_domain st' x = cur_domain st x)
    by (unfold cur_domain; rewrite F; tauto).
  destruct (A x Hx) as [A1 A2]. split; [|now rewrite D].
  intros v Hv. rewrite D in Hv. rewrite <- (A1 v Hv).
  apply has_support_agree. intros z Hz _. unfold cur_domain. now rewrite F.
Qed.

Section GACStable.
Variable csp : CSP.
Variable T : Constraint -> Prop.

Lemma GAC_vars_stable c (Hc : In c (csp_cons csp)) xs :
  forall pruned queue st pruned' queue' st',
  (forall x, In x xs -> In x (scope c)) ->
  (forall d, In d (csp_cons csp) -> T d -> In d queue \/ stable st d \/ d = c) ->
  (In c queue \/
   forall x, In x (get_unasgn_vars st c) ->
             In x xs \/ (supported st c x /\ cur_domain st x <> [])) ->
  GAC_vars csp c xs pruned queue st = Some ((true, pruned', queue'), st') ->
  forall d, In d (csp_cons csp) -> T d -> In d queue' \/ stable st' d.
Proof.
  induction xs as [|x xs IH];
    intros pruned queue st pruned' queue' st' Hs H2 H3 H d Hd Td; simpl in H.
  - injection H as <- <- <-.
    destruct (H2 d Hd Td) as [K|[K| ->]]; auto.
    destruct H3 as [K|K]; [now left|]. right. intros x Hx.
    destruct (K x Hx) as [[]|S]. exact S.
  - unfold bind, gets in H.
    destruct (GAC_values c x (cur_domain st x) pruned false st)
      as [[[p1 f1] st1]|] eqn:V; [|discriminate].
    simpl in H.
    destruct (Nat.eqb_spec (length (cur_domain st1 x)) 0) as [Z|Z]; [discriminate|].
    assert (Hs' : forall y, In y xs -> In y (scope c))
      by (intros y Hy; apply Hs; now right).
    assert (Hx : In x (scope c)) by (apply Hs; now left).
    apply GAC_values_spec in V. cbv zeta in V.
    destruct V as (_ & V2 & V3 & V4 & _ & _ & _ & _ & _ & _).
    destruct (unsupported st c x (cur_domain st x)) as [|u removed] eqn:E.
    + simpl in V2. subst f1. rewrite (V3 eq_refl) in H, Z.
      eapply IH; [exact Hs' | exact H2 | | exact H | exact Hd | exact Td].
      destruct H3 as [K|K]; [now left|]. right. intros y Hy.
      destruct (K y Hy) as [[<-|Hy']|S]; auto.
      right. split; [exact (unsupported_nil _ _ _ _ E)|].
      intros N. apply Z. now rewrite N.
    + simpl in V2. subst f1.
      eapply IH; [exact Hs' | | | exact H | exact Hd | exact Td].
      * intros e He Te. destruct (in_dec Nat.eq_dec x (scope e)) as [I|I].
        -- left. apply in_or_app. right. now apply in_get_cons_with_var.
        -- destruct (H2 e He Te) as [K|[K| ->]]; [| |contradiction].
           ++ left. apply in_or_app. now left.
           ++ right. left. apply stable_frame with st; [|exact K].
              intros z Hz. apply V4. intros ->. contradiction.
      * left. apply in_or_app. right. now apply in_get_cons_with_var.
Qed.

Lemma GAC_loop_stable fuel : forall queue pruned st pruned' st',
  (forall d, In d queue -> In d (csp_cons csp)) ->
  (forall d, In d (csp_cons csp) -> T d -> In d queue \/ stable st d) ->
  GAC_loop fuel csp queue pruned st = Returns (true, pruned') st' ->
  forall d, In d (csp_cons csp) -> T d -> stable st' d.
Proof.
  induction fuel as [|fuel IH]; intros queue pruned st pruned' st' Hq Inv H;
    destruct queue as [|c queue]; simpl in H; try discriminate.
  - injection H as <- <-. intros d Hd Td. destruct (Inv d Hd Td) as [[]|K]. exact K.
  - injection H as <- <-. intros d Hd Td. destruct (Inv d Hd Td) as [[]|K]. exact K.
  - destruct (GAC_vars csp c (get_unasgn_vars st c) pruned queue st)
      as [[[[b1 p1] q1] st1]|] eqn:V; [|discriminate].
    destruct b1; [|discriminate].
    assert (Hc : In c (csp_cons csp)) by (apply Hq; now left).
    assert (Hs : forall x, In x (get_unasgn_vars st c) -> In x (scope c))
      by (intros x Hx; now apply get_unasgn_vars_unassigned in Hx).
    eapply IH; [| |exact H].
    + eapply GAC_vars_progress; [exact Hc | exact Hs | | exact V].
      intros d Hd. apply Hq. now right.
    + eapply (GAC_vars_stable Hc); [exact Hs | | | exact V].
      * intros d Hd Td. destruct (Inv d Hd Td) as [[<-|K]|K]; auto.
      * right. intros x Hx. now left.
Qed.
End GACStable.

(** After [prop_GAC] returns [True], with or without a new variable,
    every constraint it started from is settled: each value left to each
    of its unassigned variables has support in it, and none of these
    variables has an empty current domain. *)
Theorem prop_GAC_settles_start_constraints
        (csp : CSP) (newVar : option var_id) (st : store) (fuel : nat)
        (pruned : prunes) (st' : store) :
  prop_GAC fuel csp newVar st = Returns (true, pruned) st' ->
  forall c, starts_from csp newVar c -> stable st' c.
Proof.
  intros H c Hc. unfold prop_GAC in H.
  apply (@GAC_loop_stable csp (starts_from csp newVar)) with (d := c) in H;
    [exact H| | |apply Hc|exact Hc].
  - intros d. apply start_cons_in.
  - intros d _ Td. left. now apply starts_from_iff.
Qed.

Lemma prop_GAC_settles_start_constraints_witness :
  exists pruned st',
    prop_GAC 5 ex_csp (Some 0) ex_st = Returns (true, pruned) st' /\
    forall c, starts_from ex_csp (Some 0) c -> stable st' c.
Proof.
  eexists _, _. split; [vm_compute; reflexivity|].
  eapply (@prop_GAC_settles_start_constraints ex_csp (Some 0) ex_st 5).
  reflexivity.
Defined.

(** Arc consistency is maintained from one call to the next: if every
    constraint that does not touch the new variable is arc consistent
    before the call, every constraint of the CSP is arc consistent after a
    call that returns [True]. *)
Theorem prop_GAC_maintains_arc_consistency
        (csp : CSP) (x : var_id) (st : store) (fuel : nat)
        (pruned : prunes) (st' : store) :
  (forall d, In d (csp_cons csp) -> ~ In x (scope d) -> arc_consistent st d) ->
  prop_GAC fuel csp (Some x) st = Returns (true, pruned) st' ->
  forall c, In c (csp_cons csp) -> arc_consistent st' c.
Proof.
  intros A H c Hc. unfold prop_GAC in H.
  eapply GAC_loop_fixpoint in H; [exact H| | |exact Hc].
  - intros d Hd. now apply in_get_cons_with_var in Hd.
  - intros d Hd. destruct (in_dec Nat.eq_dec x (scope d)) as [I|I].
    + left. now apply in_get_cons_with_var.
    + right. now apply A.
Qed.

Lemma prop_GAC_maintains_arc_consistency_witness :
  exists pruned st',
    prop_GAC 5 ex_csp (Some 0) ex_st = Returns (true, pruned) st' /\
    forall c, In c (csp_cons ex_csp) -> arc_consistent st' c.
Proof.
  eexists _, _. split; [vm_compute; reflexivity|].
  eapply (@prop_GAC_maintains_arc_consistency ex_csp 0 ex_st 5); [|reflexivity].
  intros d [<-|[<-|[]]] N; [exfalso; apply N; simpl; auto|].
  intros y Hy v Hv. simpl in Hy. destruct Hy as [<-|[<-|[]]];
    simpl in Hv; repeat (destruct Hv as [<-|Hv]; [reflexivity|]); contradiction.
Defined.

(** ** Propagating twice *)

Lemma GAC_values_supported c x vals : forall pruned pf st,
  (forall v, In v vals -> has_support st c x v = true) ->
  GAC_values c x vals pruned pf st = Some ((pruned, pf), st).
Proof.
  induction vals as [|v vals IH]; intros pruned pf st H; simpl; [reflexivity|].
  unfold bind, gets. rewrite (H v (or_introl eq_refl)). simpl.
  apply IH. intros u Hu. apply H. now right.
Qed.

Lemma GAC_vars_settled csp c xs : forall pruned queue st,
  (forall x, In x xs -> supported st c x /\ cur_domain st x <> []) ->
  GAC_vars csp c xs pruned queue st = Some ((true, pruned, queue), st).
Proof.
  induction xs as [|x xs IH]; intros pruned queue st H; simpl; [reflexivity|].
  unfold bind, gets. destruct (H x (or_introl eq_refl)) as [S N].
  rewrite (@GAC_values_supported c x (cur_domain st x) pruned false st S). simpl.
  destruct (Nat.eqb_spec (length (cur_domain st x)) 0) as [Z|Z].
  - apply length_zero_iff_nil in Z. contradiction.
  - apply IH. intros y Hy. apply H. now right.
Qed.

Lemma GAC_loop_settled csp fuel : forall queue pruned st,
  (forall c, In c queue -> stable st c) -> length queue <= fuel ->
  GAC_loop fuel csp queue pruned st = Returns (true, pruned) st.
Proof.
  induction fuel as [|fuel IH]; intros queue pruned st H L;
    destruct queue as [|c queue]; simpl in *; try reflexivity; [lia|].
  rewrite (@GAC_vars_settled csp c (get_unasgn_vars st c) pruned queue st
             (H c (or_introl eq_refl))).
  apply IH; [|lia]. intros d Hd. apply H. now right.
Qed.

(** [prop_GAC] is idempotent: called again, with the same arguments, on
    the store that a call returning [True] has left, it returns
    [(True, [])] and changes nothing. *)
Theorem prop_GAC_idempotent (csp : CSP) (newVar : option var_id) (st : store)
        (fuel : nat) (pruned : prunes) (st' : store) :
  prop_GAC fuel csp newVar st = Returns (true, pruned) st' ->
  forall fuel', length (csp_cons csp) <= fuel' ->
                prop_GAC fuel' csp newVar st' = Returns (true, []) st'.
Proof.
  intros H fuel' L. unfold prop_GAC in *.
  apply GAC_loop_settled.
  - intros c Hc.
    apply (@GAC_loop_stable csp (starts_from csp newVar)) with (d := c) in H;
      [exact H| | | |].
    + intros d. apply start_cons_in.
    + intros d _ Td. left. now apply starts_from_iff.
    + now apply start_cons_in with newVar.
    + now apply starts_from_iff.
  - pose proof (start_cons_length csp newVar). lia.
Qed.

Lemma prop_GAC_idempotent_witness :
  exists pruned st',
    prop_GAC 5 ex_csp None ex_st = Returns (true, pruned) st' /\
    forall fuel', length (csp_cons ex_csp) <= fuel' ->
                  prop_GAC fuel' ex_csp None st' = Returns (true, []) st'.
Proof.
  eexists _, _. split; [vm_compute; reflexivity|].
  eapply (@prop_GAC_idempotent ex_csp None ex_st 5). reflexivity.
Defined.

Lemma FC_cons_settled cs : forall pruned st,
  (forall c y, In c cs -> get_unasgn_vars st c = [y] ->
               supported st c y /\ cur_domain st y <> []) ->
  FC_cons cs pruned st = Some ((true, pruned), st).
Proof.
  induction cs as [|c cs IH]; intros pruned st H; simpl; [reflexivity|].
  unfold bind, gets.
  assert (IH' : FC_cons cs pruned st = Some ((true, pruned), st))
    by (apply IH; intros d y Hd; apply H; now right).
  destruct (Nat.eqb_spec (get_n_unasgn st c) 1) as [E|E]; [|exact IH'].
  unfold get_n_unasgn in E.
  destruct (get_unasgn_vars st c) as [|y [|y' l]] eqn:G; simpl in E; try lia.
  destruct (H c y (or_introl eq_refl) G) as [S N].
  unfold get_scope. rewrite (@FC_scope_sole c y (scope c) pruned st G).
  rewrite (@GAC_values_supported c y (cur_domain st y) pruned false st S).
  destruct (Nat.eqb_spec (length (cur_domain st y)) 0) as [Z|Z].
  - apply length_zero_iff_nil in Z. contradiction.
  - simpl. exact IH'.
Qed.

(** [prop_FC] is idempotent: called again, with the same arguments, on
    the store that a call returning [True] has left, it returns
    [(True, [])] and changes nothing. *)
Theorem prop_FC_idempotent (csp : CSP) (newVar : option var_id) (st : store)
        (pruned : prunes) (st' : store) :
  prop_FC csp newVar st = Some ((true, pruned), st') ->
  prop_FC csp newVar st' = Some ((true, []), st').
Proof.
  intros H. pose proof H as J.
  apply journal_exact_FC_cons with (st0 := st) in J; [|apply journal_exact_nil].
  destruct J as (_ & _ & J3 & _).
  unfold prop_FC in *. apply FC_cons_spec in H.
  destruct H as (new & En & P & _ & H4 & _). simpl in En. subst new.
  destruct (H4 eq_refl) as [_ A4]. apply FC_cons_settled.
  intros c y Hc G. rewrite (@pruning_unasgn st st' c P) in G.
  destruct (A4 c y Hc G) as [N K]. split; [|exact N].
  intros v Hv. rewrite (@sole_support st st' c y v P G).
  destruct (has_support st c y v) eqn:S; [reflexivity|].
  exfalso. pose proof (@pruning_cur_domain st st' y v P Hv) as Hv0.
  specialize (K v Hv0 S).
  assert (U : is_assigned st' y = false).
  { rewrite (@pruning_assigned st st' y P). now apply unasgn_sole with c. }
  rewrite (cur_domain_unassigned _ _ U), J3 in Hv. apply filter_In in Hv.
  destruct Hv as [_ Hv]. apply negb_true_iff in Hv.
  apply pmem_In in K. congruence.
Qed.

Lemma prop_FC_idempotent_witness :
  exists pruned st',
    prop_FC ex_csp (Some 0) ex_st = Some ((true, pruned), st') /\
    prop_FC ex_csp (Some 0) st' = Some ((true, []), st').
Proof.
  eexists _, _. split; [vm_compute; reflexivity|].
  eapply (@prop_FC_idempotent ex_csp (Some 0) ex_st). reflexivity.
Defined.

(** ** GAC is at least as strong as forward checking *)

(** Started on the same store with the same arguments: if [prop_GAC]
    returns [True], [prop_FC] cannot return [False], and every pair that
    [prop_FC] prunes is pruned by [prop_GAC] too. *)
Theorem prop_GAC_subsumes_prop_FC (csp : CSP) (newVar : option var_id) (st : store)
        (fuel : nat) (prunedG : prunes) (stG : store)
        (b : bool) (prunedF : prunes) (stF : store) :
  prop_GAC fuel csp newVar st = Returns (true, prunedG) stG ->
  prop_FC csp newVar st = Some ((b, prunedF), stF) ->
  b = true /\ incl prunedF prunedG.
Proof.
  intros HG HF.
  pose proof HG as JG. unfold prop_GAC in JG.
  apply journal_exact_GAC_loop with (st0 := st) in JG; [|apply journal_exact_nil].
  pose proof HF as JF.
  apply journal_exact_FC_cons with (st0 := st) in JF; [|apply journal_exact_nil].
  assert (PG : pruning st stG).
  { destruct JG as (_ & _ & G3 & G4). split.
    - intros z. apply G4.
    - intros z v. rewrite G3. intros K. now apply filter_In in K. }
  assert (SG : forall c, In c (match newVar with
                               | None => get_all_cons csp
                               | Some x => get_cons_with_var csp x
                               end) -> stable stG c).
  { intros c Hc. unfold prop_GAC in HG.
    apply (@GAC_loop_stable csp (starts_from csp newVar)) with (d := c) in HG;
      [exact HG| | | |].
    + intros d. apply start_cons_in.
    + intros d _ Td. left. now apply starts_from_iff.
    + now apply start_cons_in with newVar.
    + now apply starts_from_iff. }
  unfold prop_FC in HF. apply FC_cons_spec in HF.
  destruct HF as (new & En & _ & H3 & _ & H5). simpl in En. subst new.
  assert (I : incl prunedF prunedG).
  { intros [y v] Hp. destruct (H3 y v Hp) as (c & Hc & G & Hv & S).
    pose proof (@unasgn_sole st c y G) as U.
    assert (N : ~ In v (cur_domain stG y)).
    { intros K. destruct (SG c Hc y) as [Sy _].
      - rewrite (@pruning_unasgn st stG c PG), G. now left.
      - specialize (Sy v K). rewrite (@sole_support st stG c y v PG G) in Sy.
        congruence. }
    assert (UG : is_assigned stG y = false)
      by now rewrite (@pruning_assigned st stG y PG).
    rewrite (cur_domain_unassigned _ _ UG) in N.
    rewrite (cur_domain_unassigned _ _ U) in Hv.
    destruct JG as (_ & _ & G3 & _). rewrite G3 in N.
    destruct (pmem (y, v) prunedG) eqn:M; [now apply pmem_In|].
    exfalso. apply N. apply filter_In. split; [exact Hv | now rewrite M]. }
  split; [|exact I]. destruct b; [reflexivity|]. exfalso.
  destruct (H5 eq_refl) as (c & y & Hc & G & Z).
  pose proof (@unasgn_sole st c y G) as U.
  destruct (SG c Hc y) as [_ Ny].
  { rewrite (@pruning_unasgn st stG c PG), G. now left. }
  apply Ny. destruct (cur_domain stG y) as [|v l] eqn:D; [reflexivity|].
  exfalso.
  assert (Hv : In v (cur_domain stG y)) by (rewrite D; now left).
  assert (UG : is_assigned stG y = false)
    by now rewrite (@pruning_assigned st stG y PG).
  pose proof (@pruning_cur_domain st stG y v PG Hv) as Hv0.
  rewrite (cur_domain_unassigned _ _ UG) in Hv.
  rewrite (cur_domain_unassigned _ _ U) in Hv0.
  destruct JG as (_ & _ & G3 & _). rewrite G3 in Hv. apply filter_In in Hv.
  destruct Hv as [_ Hv]. apply negb_true_iff in Hv.
  destruct JF as (_ & _ & F3 & F4).
  assert (UF : is_assigned stF y = false).
  { unfold is_assigned in *. destruct (F4 y) as (_ & _ & ->). exact U. }
  rewrite (cur_domain_unassigned _ _ UF), F3 in Z.
  assert (K : In v (filter (fun u => negb (pmem (y, u) prunedF))
                           (current_domain (st y)))).
  { apply filter_In. split; [exact Hv0|]. apply negb_true_iff.
    destruct (pmem (y, v) prunedF) eqn:M; [|reflexivity].
    apply pmem_In, I, pmem_In in M. congruence. }
  rewrite Z in K. contradiction.
Qed.

Lemma prop_GAC_subsumes_prop_FC_witness :
  exists prunedG stG b prunedF stF,
    prop_GAC 5 ex_csp (Some 0) ex_st = Returns (true, prunedG) stG /\
    prop_FC ex_csp (Some 0) ex_st = Some ((b, prunedF), stF) /\
    b = true /\ incl prunedF prunedG.
Proof.
  eexists _, _, _, _, _. split; [vm_compute; reflexivity|].
  split; [vm_compute; reflexivity|].
  eapply (@prop_GAC_subsumes_prop_FC ex_csp (Some 0) ex_st 5); reflexivity.
Defined.

(** ** The constraints of the model builders *)

Lemma for_each_append {A B} (f : A -> list B) (body : A -> list B -> option (list B)) l :
  (forall a, In a l -> forall s, body a s = Some (s ++ f a)) ->
  forall s, for_each l body s = Some (s ++ flat_map f l).
Proof.
  induction l as [|a l IH]; intros H s; simpl.
  - now rewrite app_nil_r.
  - rewrite (H a (or_introl eq_refl)), IH by (intros; apply H; now right).
    now rewrite app_assoc.
Qed.

Lemma for_each_fails {S A} (body : A -> S -> option S) l a :
  In a l -> (forall s, body a s = None) -> forall s, for_each l body s = None.
Proof.
  induction l as [|b l IH]; intros Ha H s; simpl; [contradiction|].
  destruct Ha as [->|Ha]; [now rewrite H|].
  destruct (body b s); [now apply IH | reflexivity].
Qed.

Lemma fold_left_append {A B} (f : A -> list B) (step : list B -> A -> list B) l :
  (forall a s, step s a = s ++ f a) ->
  forall s, fold_left step l s = s ++ flat_map f l.
Proof.
  intros H. induction l as [|a l IH]; intros s; simpl.
  - now rewrite app_nil_r.
  - rewrite IH, H. now rewrite app_assoc.
Qed.

Lemma neq_tuples_spec d1 d2 t :
  In t (neq_tuples d1 d2) <->
  exists a b, t = [a; b] /\ In a d1 /\ In b d2 /\ a <> b.
Proof.
  unfold neq_tuples.
  rewrite fold_left_append
    with (f := fun a => flat_map (fun b => if negb (value_eqb a b) then [[a; b]] else [])
                                 d2).
  - simpl. rewrite in_flat_map. split.
    + intros (a & Ha & H). apply in_flat_map in H. destruct H as (b & Hb & H).
      destruct (value_eqb a b) eqn:E; simpl in H; [contradiction|].
      destruct H as [<-|[]]. exists a, b. repeat split; trivial.
      intros ->. now rewrite value_eqb_refl in E.
    + intros (a & b & -> & Ha & Hb & N). exists a. split; [exact Ha|].
      apply in_flat_map. exists b. split; [exact Hb|].
      destruct (value_eqb a b) eqn:E; [apply value_eqb_eq in E; contradiction|].
      simpl. now left.
  - intros a s. apply fold_left_append. intros b s'.
    destruct (negb (value_eqb a b)); [reflexivity | now rewrite app_nil_r].
Qed.

(** [binary_constraint] raises IndexError when one of the two cells it is
    pointed at is not in [variables]; otherwise it adds one constraint over
    these two cells, whose satisfying tuples are exactly the pairs of
    distinct values of their current domains. *)
Theorem binary_constraint_not_equal
        (h : heap) (csp : CSP) (variables : list (list var_id))
        (row_constraint : bool) (row col1 col2 col row1 row2 : nat) :
  match (if row_constraint
         then (cell_var variables row col1, cell_var variables row col2)
         else (cell_var variables row1 col, cell_var variables row2 col)) with
  | (Some var1, Some var2) =>
      exists c,
        binary_constraint h csp variables row_constraint row col1 col2 col row1 row2
        = Some (add_constraint csp c) /\
        not_equal (objects h) var1 var2 c
  | _ =>
      binary_constraint h csp variables row_constraint row col1 col2 col row1 row2
      = None
  end.
Proof.
  unfold binary_constraint, cell_var.
  destruct row_constraint.
  - destruct (match nth_error variables row with
              | Some l => nth_error l col1 | None => None end) as [var1|];
      [|reflexivity].
    destruct (match nth_error variables row with
              | Some l => nth_error l col2 | None => None end) as [var2|];
      [|reflexivity].
    eexists. split; [reflexivity|]. split; [reflexivity|].
    intros t. simpl. apply neq_tuples_spec.
  - destruct (match nth_error variables row1 with
              | Some l => nth_error l col | None => None end) as [var1|];
      [|reflexivity].
    destruct (match nth_error variables row2 with
              | Some l => nth_error l col | None => None end) as [var2|];
      [|reflexivity].
    eexists. split; [reflexivity|]. split; [reflexivity|].
    intros t. simpl. apply neq_tuples_spec.
Qed.

Lemma int_cmp_ordered gt a b : int_cmp gt a b = true <-> int_ordered gt a b.
Proof.
  unfold int_cmp, int_ordered. destruct a as [x|s], b as [y|s']; try (split; [discriminate|tauto]).
  destruct gt; [rewrite Z.gtb_lt | rewrite Z.ltb_lt]; tauto.
Qed.

Lemma ineq_tuples_ints gt d1 d2 :
  (forall v, In v d1 -> exists z, v = VInt z) ->
  (forall v, In v d2 -> exists z, v = VInt z) ->
  exists sat,
    ineq_tuples gt d1 d2 = Some sat /\
    forall t, In t sat <->
              exists a b, t = [a; b] /\ In a d1 /\ In b d2 /\ int_ordered gt a b.
Proof.
  intros H1 H2.
  exists (flat_map (fun a => flat_map (fun b => if int_cmp gt a b then [[a; b]] else [])
                                      d2) d1).
  split.
  - unfold ineq_tuples.
    rewrite for_each_append
      with (f := fun a => flat_map (fun b => if int_cmp gt a b then [[a; b]] else [])
                                   d2); [reflexivity|].
    intros a Ha s. apply for_each_append. intros b Hb s'.
    destruct (H1 a Ha) as [x ->]. destruct (H2 b Hb) as [y ->]. simpl.
    destruct gt; [destruct (x >? y)%Z | destruct (x <? y)%Z];
      try reflexivity; now rewrite app_nil_r.
  - intros t. rewrite in_flat_map. split.
    + intros (a & Ha & H). apply in_flat_map in H. destruct H as (b & Hb & H).
      destruct (int_cmp gt a b) eqn:E; [|contradiction].
      destruct H as [<-|[]]. exists a, b. repeat split; trivial.
      now apply int_cmp_ordered.
    + intros (a & b & -> & Ha & Hb & O). exists a. split; [exact Ha|].
      apply in_flat_map. exists b. split; [exact Hb|].
      apply int_cmp_ordered in O. rewrite O. now left.
Qed.

Lemma ineq_tuples_mixed gt d1 d2 a b :
  In a d1 -> In b d2 ->
  (exists x s, (a = VInt x /\ b = VStr s) \/ (a = VStr s /\ b = VInt x)) ->
  ineq_tuples gt d1 d2 = None.
Proof.
  intros Ha Hb (x & s & K). unfold ineq_tuples.
  apply for_each_fails with a; [exact Ha|]. intros sat.
  apply for_each_fails with b; [exact Hb|]. intros sat'.
  destruct K as [[-> ->]|[-> ->]]; destruct gt; reflexivity.
Qed.

(** [ineq_constraint] reads the entry [futo_grid[row][col - 1]] for the
    name of the constraint; at [col = 0] that is the last entry of the
    row. Once the board gives it that entry: over two variables whose
    current domains hold ints only, it adds one constraint over them,
    named after the row, the two cell numbers and the entry, whose
    satisfying tuples are exactly the pairs of their values in the order
    asked for; when one domain holds an int and the other a str, the
    comparison raises TypeError. *)
Theorem ineq_constraint_ordered_pairs
        (h : heap) (csp : CSP) (futo_grid : grid) (var1 var2 : var_id)
        (greater_than : bool) (row col : nat) (sym : value) :
  grid_at_py futo_grid row (Z.of_nat col - 1) = Some sym ->
  ((forall v, In v (cur_domain (objects h) var1) -> exists z, v = VInt z) ->
   (forall v, In v (cur_domain (objects h) var2) -> exists z, v = VInt z) ->
   exists c,
     ineq_constraint h csp futo_grid var1 var2 greater_than row col
     = Some (add_constraint csp c) /\
     cname c = ("C " ++ fmt_nat row ++ fmt_Z (Z.of_nat (col / 2) - 1)
                     ++ fmt_value sym ++ fmt_nat row ++ fmt_nat (col / 2))%string /\
     scope c = [var1; var2] /\
     forall t, In t (satisfying_tuples c) <->
               exists a b, t = [a; b] /\
                           In a (cur_domain (objects h) var1) /\
                           In b (cur_domain (objects h) var2) /\
                           int_ordered greater_than a b) /\
  (forall a b,
      In a (cur_domain (objects h) var1) -> In b (cur_domain (objects h) var2) ->
      (exists x s, (a = VInt x /\ b = VStr s) \/ (a = VStr s /\ b = VInt x)) ->
      ineq_constraint h csp futo_grid var1 var2 greater_than row col = None).
Proof.
  intros G. unfold ineq_constraint. rewrite G. split.
  - intros H1 H2.
    destruct (@ineq_tuples_ints greater_than _ _ H1 H2) as (sat & E & H).
    rewrite E. eexists. split; [reflexivity|]. split; [reflexivity|].
    split; [reflexivity|]. exact H.
  - intros a b Ha Hb K.
    now rewrite (@ineq_tuples_mixed greater_than _ _ a b Ha Hb K).
Qed.

Lemma ineq_constraint_ordered_pairs_witness :
  grid_at_py given3 0 (Z.of_nat 0 - 1) = Some (VInt 0) /\
  (exists c,
      ineq_constraint ex_heap (new_CSP "w") given3 1 2 false 0 0
      = Some (add_constraint (new_CSP "w") c) /\
      cname c = ("C " ++ fmt_nat 0 ++ fmt_Z (Z.of_nat (0 / 2) - 1)
                      ++ fmt_value (VInt 0) ++ fmt_nat 0 ++ fmt_nat (0 / 2))%string /\
      scope c = [1; 2] /\
      forall t, In t (satisfying_tuples c) <->
                exists a b, t = [a; b] /\
                            In a (cur_domain (objects ex_heap) 1) /\
                            In b (cur_domain (objects ex_heap) 2) /\
                            int_ordered false a b).
Proof.
  split; [reflexivity|].
  apply (proj1 (@ineq_constraint_ordered_pairs ex_heap (new_CSP "w") given3 1 2
                  false 0 0 (VInt 0) eq_refl)).
  - intros v Hv. simpl in Hv.
    repeat (destruct Hv as [<-|Hv]; [eexists; reflexivity|]). contradiction.
  - intros v Hv. simpl in Hv.
    repeat (destruct Hv as [<-|Hv]; [eexists; reflexivity|]). contradiction.
Defined.

(** At the first column the entry in the name is the last one of the row,
    and the cell number before the first is printed as [-1]. *)
Lemma ineq_constraint_first_column :
  exists c,
    ineq_constraint ex_heap (new_CSP "w") given3 1 2 false 0 0
    = Some (add_constraint (new_CSP "w") c) /\ cname c = "C 0-1000"%string.
Proof. eexists. split; reflexivity. Qed.

(** A row with no entry at all has no last entry either: IndexError. *)
Lemma ineq_constraint_empty_row h csp var1 var2 greater_than :
  ineq_constraint h csp [[]] var1 var2 greater_than 0 0 = None.
Proof. reflexivity. Qed.

(** ** all_diff_constraint with a number of variables of its own *)

Unset Implicit Arguments.

Lemma existsb_ext_in {A} (f g : A -> bool) l :
  (forall a, In a l -> f a = g a) -> existsb f l = existsb g l.
Proof.
  induction l as [|a l IH]; intros H; simpl; [reflexivity|].
  rewrite (H a (or_introl eq_refl)), IH; [reflexivity|].
  intros b Hb. apply H. now right.
Qed.

Lemma tuple_valid_prefix t n :
  n <= length t ->
  tuple_valid t n =
  Some (negb (existsb (fun i => existsb (clash t i) (range (i + 1) n)) (range 0 n))).
Proof.
  intros L. unfold tuple_valid.
  rewrite for_each_flag
    with (p := fun i => existsb (clash t i) (range (i + 1) n)); [reflexivity|].
  intros i Hi s. apply in_range in Hi.
  rewrite for_each_flag with (p := clash t i).
  - f_equal. destruct (existsb (clash t i) (range (i + 1) n)), s; reflexivity.
  - intros j Hj s'. apply in_range in Hj. unfold clash.
    destruct (nth_error t i) eqn:Ei; [|apply nth_error_None in Ei; lia].
    destruct (nth_error t j) eqn:Ej; [|apply nth_error_None in Ej; lia].
    reflexivity.
Qed.

Lemma tuple_valid_firstn t n :
  n <= length t ->
  exists b, tuple_valid t n = Some b /\ (b = true <-> NoDup (firstn n t)).
Proof.
  intros L. rewrite (tuple_valid_prefix t n L). eexists. split; [reflexivity|].
  rewrite negb_true_iff, <- no_clash_NoDup, length_firstn, Nat.min_l by exact L.
  assert (E : existsb (fun i => existsb (clash t i) (range (i + 1) n)) (range 0 n)
              = existsb (fun i => existsb (clash (firstn n t) i) (range (i + 1) n))
                        (range 0 n)).
  { apply existsb_ext_in. intros i Hi. apply in_range in Hi.
    apply existsb_ext_in. intros j Hj. apply in_range in Hj.
    unfold clash. now rewrite !nth_error_firstn,
      (proj2 (Nat.ltb_lt i n)), (proj2 (Nat.ltb_lt j n)) by lia. }
  rewrite E. tauto.
Qed.

Lemma tuple_valid_short t n :
  length t < n -> 2 <= n -> tuple_valid t n = None.
Proof.
  intros L N. unfold tuple_valid.
  apply for_each_fails with 0; [apply in_range; lia|]. intros s.
  apply for_each_fails with (Nat.max 1 (length t)); [apply in_range; lia|].
  intros s'. destruct (nth_error t 0); [|reflexivity].
  destruct (nth_error t (Nat.max 1 (length t))) eqn:E; [|reflexivity].
  assert (K : nth_error t (Nat.max 1 (length t)) <> None) by congruence.
  apply nth_error_Some in K. lia.
Qed.

Lemma every_tuple_inhabited domains :
  (forall d, In d domains -> d <> []) -> exists t, In t (every_tuple domains).
Proof.
  intros H.
  assert (K : exists t, Forall2 (@In value) t domains).
  { induction domains as [|d ds IH]; [exists []; constructor|].
    destruct IH as [t Ht]; [intros e He; apply H; now right|].
    destruct d as [|v d]; [exfalso; apply (H []); [now left | reflexivity]|].
    exists (v :: t). constructor; [now left | exact Ht]. }
  destruct K as [t Ht]. exists t. now apply every_tuple_spec.
Qed.

(** [all_diff_constraint] compares the first [num_vars] positions of a
    tuple only. With no more of them than there are domains, it keeps
    exactly the tuples of the cross product whose first [num_vars] values
    are pairwise distinct (later positions may repeat a value); with more,
    at least two, and no empty domain, reading a tuple past its end raises
    IndexError. *)
Theorem all_diff_constraint_num_vars
        (csp : CSP) (vars : list var_id) (domains : list (list value))
        (num_vars : nat) :
  (num_vars <= length domains ->
   exists c,
     all_diff_constraint csp vars domains num_vars = Some (add_constraint csp c) /\
     scope c = vars /\
     forall t, In t (satisfying_tuples c) <->
               Forall2 (@In value) t domains /\ NoDup (firstn num_vars t)) /\
  (length domains < num_vars -> 2 <= num_vars ->
   (forall d, In d domains -> d <> []) ->
   all_diff_constraint csp vars domains num_vars = None).
Proof.
  split.
  - intros L.
    set (g := fun t : list value =>
                negb (existsb (fun i => existsb (clash t i) (range (i + 1) num_vars))
                              (range 0 num_vars))).
    assert (E : all_diff_tuples domains num_vars
                = Some (filter g (every_tuple domains))).
    { unfold all_diff_tuples. rewrite for_each_keep with (g := g); [reflexivity|].
      intros t Ht. apply every_tuple_spec, Forall2_In_length in Ht.
      apply tuple_valid_prefix. lia. }
    unfold all_diff_constraint. rewrite E. eexists.
    split; [reflexivity|]. split; [reflexivity|].
    intros t. simpl. rewrite filter_In, every_tuple_spec.
    split; intros [F K]; (split; [exact F|]);
      pose proof (Forall2_In_length F) as Lt;
      destruct (tuple_valid_firstn t num_vars ltac:(lia)) as (b & Eb & Hb);
      rewrite tuple_valid_prefix in Eb by lia; injection Eb as Eb;
      fold (g t) in Eb; [apply Hb; congruence | rewrite Eb; now apply Hb].
  - intros L N H. unfold all_diff_constraint.
    assert (E : all_diff_tuples domains num_vars = None); [|now rewrite E].
    unfold all_diff_tuples. destruct (every_tuple_inhabited domains H) as [t Ht].
    apply for_each_fails with t; [exact Ht|]. intros s.
    apply every_tuple_spec, Forall2_In_length in Ht.
    rewrite tuple_valid_short; [reflexivity | lia | exact N].
Qed.

Lemma all_diff_constraint_num_vars_witness :
  (exists c,
      all_diff_constraint (new_CSP "w") [0; 1; 2] [dom123; dom123; dom123] 2
      = Some (add_constraint (new_CSP "w") c) /\
      scope c = [0; 1; 2] /\
      forall t, In t (satisfying_tuples c) <->
                Forall2 (@In value) t [dom123; dom123; dom123] /\
                NoDup (firstn 2 t)) /\
  all_diff_constraint (new_CSP "w") [0; 1] [dom123; dom123] 3 = None.
Proof.
  split.
  - apply (proj1 (all_diff_constraint_num_vars (new_CSP "w") [0; 1; 2]
                    [dom123; dom123; dom123] 2)). simpl. lia.
  - apply (proj2 (all_diff_constraint_num_vars (new_CSP "w") [0; 1]
                    [dom123; dom123] 3)); [simpl; lia | lia |].
    intros d [<-|[<-|[]]]; discriminate.
Defined.

(** ** The builders never read the inequality signs *)

Lemma for_each_ext {S A} (body body' : A -> S -> option S) l :
  (forall a s, body a s = body' a s) ->
  forall s, for_each l body s = for_each l body' s.
Proof.
  intros H. induction l as [|a l IH]; intros s; simpl; [reflexivity|].
  rewrite H. destruct (body' a s); [apply IH | reflexivity].
Qed.

Lemma odd_pred_even c : c mod 2 <> 0 -> (c - 1) mod 2 = 0.
Proof.
  intros H. pose proof (Nat.div_mod_eq c 2) as D.
  pose proof (Nat.mod_upper_bound c 2) as U.
  assert (E : c - 1 = 2 * (c / 2)) by lia. rewrite E.
  rewrite Nat.mul_comm. apply Nat.Div0.mod_mul.
Qed.

Section SameCells.
Variables g g' : grid.
Hypothesis same : forall row col, col mod 2 = 0 -> grid_at g row col = grid_at g' row col.

Lemma ineq_step_same h csp variables row col :
  col mod 2 <> 0 ->
  ineq_here g row col = ineq_here g' row col /\
  ineq_call h csp g variables row col = ineq_call h csp g' variables row col.
Proof.
  intros Od. pose proof (same row (col - 1) (odd_pred_even col Od)) as E.
  assert (P : 0 < col) by (destruct col; [now elim Od | lia]).
  unfold ineq_here, ineq_call, ineq_constraint.
  rewrite !(@grid_at_py_pred _ row col P), E. split; reflexivity.
Qed.

Lemma model_1_cell_same var_domain row col s :
  model_1_cell g var_domain row col s = model_1_cell g' var_domain row col s.
Proof.
  destruct s as [[h csp] variables]. unfold model_1_cell.
  destruct (Nat.eqb_spec (col mod 2) 0) as [Ev|Od].
  - unfold var_setup. now rewrite (same row col Ev).
  - destruct (ineq_step_same h csp variables row col Od) as [-> ->]. reflexivity.
Qed.

Lemma model_2_cell_same var_domain row col s :
  model_2_cell g var_domain row col s = model_2_cell g' var_domain row col s.
Proof.
  destruct s as [[[h csp] variables] rd]. unfold model_2_cell.
  destruct (Nat.eqb_spec (col mod 2) 0) as [Ev|Od].
  - unfold var_setup. now rewrite (same row col Ev).
  - destruct (ineq_step_same h csp variables row col Od) as [-> ->]. reflexivity.
Qed.
End SameCells.

(** Neither builder ever reads an odd column of the board, where the
    inequality signs are: two boards of the same height and width with the
    same entries at the even columns give the same outcome, the same CSP,
    variables and objects or the same failure. An inequality between two
    cells leaves no trace in the CSP. *)
Theorem models_ignore_inequality_signs (h : heap) (g g' : grid) :
  same_cells g g' ->
  futoshiki_csp_model_1 h g = futoshiki_csp_model_1 h g' /\
  futoshiki_csp_model_2 h g = futoshiki_csp_model_2 h g'.
Proof.
  intros (L & W & Same).
  destruct g as [|r0 g0], g' as [|r0' g0']; try discriminate L; [split; reflexivity|].
  simpl hd in W.
  unfold futoshiki_csp_model_1, futoshiki_csp_model_2. cbv zeta.
  rewrite <- L, <- W.
  destruct (init_lists (length (r0 :: g0))) as [var_domain variables].
  split.
  - rewrite (for_each_ext
               (fun row => for_each (range 0 (length r0))
                             (model_1_cell (r0 :: g0) var_domain row))
               (fun row => for_each (range 0 (length r0))
                             (model_1_cell (r0' :: g0') var_domain row)));
      [reflexivity|].
    intros row s. apply for_each_ext. intros col s'.
    now apply model_1_cell_same.
  - rewrite (for_each_ext
               (fun row => for_each (range 0 (length r0))
                             (model_2_cell (r0 :: g0) var_domain row))
               (fun row => for_each (range 0 (length r0))
                             (model_2_cell (r0' :: g0') var_domain row)));
      [reflexivity|].
    intros row s. apply for_each_ext. intros col s'.
    now apply model_2_cell_same.
Qed.

Lemma models_ignore_inequality_signs_witness :
  futoshiki_csp_model_1 heap0 given3 = futoshiki_csp_model_1 heap0 given3_no_sign /\
  futoshiki_csp_model_2 heap0 given3 = futoshiki_csp_model_2 heap0 given3_no_sign.
Proof.
  apply (models_ignore_inequality_signs heap0 given3 given3_no_sign).
  split; [reflexivity|]. split; [reflexivity|].
  intros row col Ev.
  destruct row as [|[|[|row]]]; try reflexivity.
  destruct col as [|[|[|[|[|col]]]]]; try reflexivity; discriminate Ev.
Defined.

(** ** The variables of the board *)

Lemma concat_empty_rows {A} (ll : list (list A)) :
  (forall row l, nth_error ll row = Some l -> l = []) -> concat ll = [].
Proof.
  induction ll as [|l ll IH]; intros H; simpl; [reflexivity|].
  rewrite (H 0 l eq_refl), IH; [reflexivity|].
  intros row m Hm. now apply (H (S row)).
Qed.

Lemma concat_append_at {A} (a : A) : forall ll r ll',
  append_at r a ll = Some ll' ->
  (forall row l, r < row -> nth_error ll row = Some l -> l = []) ->
  concat ll' = concat ll ++ [a].
Proof.
  induction ll as [|l ll IH]; intros r ll' H E; destruct r as [|r]; simpl in H;
    try discriminate.
  - injection H as <-. simpl.
    rewrite (concat_empty_rows ll), !app_nil_r; [reflexivity|].
    intros row m Hm. apply (E (S row) m); [lia | exact Hm].
  - destruct (append_at r a ll) as [ll1|] eqn:AP; [|discriminate].
    injection H as <-. simpl. rewrite (IH r ll1 AP), app_assoc; [reflexivity|].
    intros row m Lr Hm. apply (E (S row) m); [lia | exact Hm].
Qed.

Lemma concat_length_rows {A} (ll : list (list A)) k :
  (forall row l, nth_error ll row = Some l -> length l = k) ->
  length (concat ll) = length ll * k.
Proof.
  induction ll as [|l ll IH]; intros H; simpl; [reflexivity|].
  rewrite length_app, (H 0 l eq_refl), IH; [reflexivity|].
  intros row m Hm. now apply (H (S row)).
Qed.

Lemma model_1_cell_ids futo_grid num_col var_domain h0 r c s s' :
  cells_inv futo_grid num_col r c s -> ids_inv h0 s ->
  model_1_cell futo_grid var_domain r c s = Some s' ->
  ids_inv h0 s'.
Proof.
  destruct s as [[h csp] variables]. intros (_ & I2 & _) (J1 & J2 & J3 & J4) H.
  unfold model_1_cell in H. destruct (Nat.eqb (c mod 2) 0).
  - destruct (var_setup h futo_grid var_domain r c) as [[x h1]|] eqn:VS;
      [|discriminate].
    destruct (append_at r x variables) as [variables'|] eqn:AP; [|discriminate].
    injection H as <-.
    assert (O : x = next_id h /\ next_id h1 = S (next_id h) /\
                forall y, y <> next_id h -> objects h1 y = objects h y).
    { unfold var_setup in VS. destruct (grid_at futo_grid r c); [|discriminate].
      destruct (value_eqb v (VInt 0)); injection VS as <- <-; simpl;
        repeat split; intros y N; now apply upd_other. }
    destruct O as (-> & N1 & O).
    assert (C : concat variables' = concat variables ++ [next_id h]).
    { apply (concat_append_at (next_id h) variables r variables' AP).
      intros row l Lr Hl. apply length_zero_iff_nil. rewrite (I2 row l Hl).
      unfold filled. destruct (Nat.ltb_spec row r); [lia|].
      destruct (Nat.eqb_spec row r); [lia | reflexivity]. }
    split; [lia|]. split; [|split].
    + rewrite C, J2, N1.
      replace (S (next_id h) - next_id h0) with (S (next_id h - next_id h0)) by lia.
      rewrite seq_S. repeat f_equal. lia.
    + simpl. now rewrite C, J3.
    + intros y Hy. rewrite O by lia. now apply J4.
  - destruct (ineq_here futo_grid r c) as [[|]|]; [| |discriminate].
    + destruct (ineq_call h csp futo_grid variables r c) as [csp1|] eqn:IC;
        [|discriminate].
      injection H as <-. apply ineq_call_vars in IC.
      repeat split; trivial. now rewrite IC.
    + injection H as <-. repeat split; trivial.
Qed.

Lemma model_1_cells_ids futo_grid num_col h0 (s s' : build1) :
  cells_inv futo_grid num_col 0 0 s -> ids_inv h0 s ->
  for_each (range 0 (length futo_grid)) (fun row =>
    for_each (range 0 num_col)
             (model_1_cell futo_grid
                (map (fun i => VInt (Z.of_nat i)) (seq 1 (length futo_grid))) row))
    s = Some s' ->
  ids_inv h0 s'.
Proof.
  intros I B H.
  apply (@for_each_ind build1 nat
           (fun r s => cells_inv futo_grid num_col r 0 s /\ ids_inv h0 s)) in H;
    [apply H|clear s s' I B H|now split].
  intros r row s1 s2 Hr [I1 B1] H. apply nth_error_range in Hr. destruct Hr as [-> _].
  change (0 + r) with r in H. simpl.
  apply (@for_each_ind build1 nat
           (fun c s => cells_inv futo_grid num_col r c s /\ ids_inv h0 s)) in H;
    [|clear s1 s2 I1 B1 H|now split].
  - rewrite length_range, Nat.sub_0_r in H. destruct H as [I2 B2].
    split; [now apply cells_inv_next_row | exact B2].
  - intros c col s1 s2 Hc [I1 B1] H. apply nth_error_range in Hc.
    destruct Hc as [-> _]. change (0 + c) with c in H. simpl. split.
    + now apply model_1_cell_inv with s1.
    + now apply model_1_cell_ids with futo_grid num_col
        (map (fun i => VInt (Z.of_nat i)) (seq 1 (length futo_grid))) r c s1.
Qed.

Lemma model_2_cells_ids futo_grid num_col h0 (s s' : build2) :
  cells_inv futo_grid num_col 0 0 (fst s) -> ids_inv h0 (fst s) ->
  for_each (range 0 (length futo_grid)) (fun row =>
    for_each (range 0 num_col)
             (model_2_cell futo_grid
                (map (fun i => VInt (Z.of_nat i)) (seq 1 (length futo_grid))) row))
    s = Some s' ->
  ids_inv h0 (fst s').
Proof.
  intros I B H.
  apply (@for_each_ind build2 nat
           (fun r s => cells_inv futo_grid num_col r 0 (fst s) /\ ids_inv h0 (fst s)))
    in H; [apply H|clear s s' I B H|now split].
  intros r row s1 s2 Hr [I1 B1] H. apply nth_error_range in Hr. destruct Hr as [-> _].
  change (0 + r) with r in H. simpl.
  apply (@for_each_ind build2 nat
           (fun c s => cells_inv futo_grid num_col r c (fst s) /\ ids_inv h0 (fst s)))
    in H; [|clear s1 s2 I1 B1 H|now split].
  - rewrite length_range, Nat.sub_0_r in H. destruct H as [I2 B2].
    split; [now apply cells_inv_next_row | exact B2].
  - intros c col s1 s2 Hc [I1 B1] H. apply nth_error_range in Hc.
    destruct Hc as [-> _]. change (0 + c) with c in H. simpl.
    apply model_2_cell_proj in H. split.
    + now apply model_1_cell_inv with (fst s1).
    + now apply model_1_cell_ids with futo_grid num_col
        (map (fun i => VInt (Z.of_nat i)) (seq 1 (length futo_grid))) r c (fst s1).
Qed.

Lemma ids_inv_init h csp_name0 n :
  ids_inv h (h, new_CSP csp_name0, repeat [] n).
Proof.
  assert (E : concat (repeat (@nil var_id) n) = []).
  { apply concat_empty_rows. intros row l Hl.
    now apply nth_error_In, repeat_spec in Hl. }
  split; [lia|]. split; [now rewrite E, Nat.sub_diag|]. split; [now rewrite E|].
  reflexivity.
Qed.

Lemma model_1_built h g csp variables h' :
  futoshiki_csp_model_1 h g = Some (csp, variables, h') ->
  exists csp1,
    cells_inv g (length (hd [] g)) (length g) 0 (h', csp1, variables) /\
    ids_inv h (h', csp1, variables) /\
    csp_vars csp = csp_vars csp1.
Proof.
  unfold futoshiki_csp_model_1. destruct g as [|row0 rest]; [simpl; discriminate|].
  set (g := row0 :: rest). cbv zeta. rewrite init_lists_spec.
  destruct (for_each (range 0 (length g)) _ _) as [[[h1 csp1] vars1]|] eqn:F;
    [|discriminate].
  destruct (model_1_cons h1 vars1 (length g) csp1) as [csp2|] eqn:C; [|discriminate].
  intros E. injection E as <- <- <-. exists csp1. simpl hd.
  split; [|split].
  - apply (@model_1_cells_inv g (length row0)) in F; [exact F|].
    apply cells_inv_init.
  - apply (model_1_cells_ids g (length row0) h) in F; [exact F| |].
    + apply cells_inv_init.
    + apply ids_inv_init.
  - now apply model_1_cons_vars in C.
Qed.

Lemma model_2_built h g csp variables h' :
  futoshiki_csp_model_2 h g = Some (csp, variables, h') ->
  exists csp1,
    cells_inv g (length (hd [] g)) (length g) 0 (h', csp1, variables) /\
    ids_inv h (h', csp1, variables) /\
    csp_vars csp = csp_vars csp1.
Proof.
  unfold futoshiki_csp_model_2. destruct g as [|row0 rest]; [simpl; discriminate|].
  set (g := row0 :: rest). cbv zeta. rewrite init_lists_spec, init_row_domains_spec.
  destruct (for_each (range 0 (length g)) _ _) as [[[[h1 csp1] vars1] rd1]|] eqn:F;
    [|discriminate].
  destruct (model_2_cons h1 vars1 rd1 (length g) csp1) as [csp2|] eqn:C;
    [|discriminate].
  intros E. injection E as <- <- <-. exists csp1. simpl hd.
  split; [|split].
  - apply (@model_2_cells_inv g (length row0)) in F; [exact F|].
    apply cells_inv_init.
  - apply (model_2_cells_ids g (length row0) h) in F; [exact F| |].
    + apply cells_inv_init.
    + apply ids_inv_init.
  - now apply model_2_cons_vars in C.
Qed.

Lemma cells_inv_shape g h csp variables :
  cells_inv g (length (hd [] g)) (length g) 0 (h, csp, variables) ->
  board_shape g variables.
Proof.
  intros (I1 & I2 & I3).
  assert (S2 : forall row vrow, nth_error variables row = Some vrow ->
                                length vrow = cells_per_row g).
  { intros row vrow Hr. rewrite (I2 row vrow Hr). unfold filled, cells_per_row.
    assert (L : row < length variables)
      by (apply nth_error_Some; congruence).
    destruct (Nat.ltb_spec row (length g)); [reflexivity | lia]. }
  split; [exact I1|]. split; [exact S2|].
  intros row col Lr Lc Ev.
  destruct (nth_error variables row) as [vrow|] eqn:Hr;
    [|apply nth_error_None in Hr; lia].
  destruct (half_even col Ev) as (E1 & E2 & E3).
  assert (Lk : col / 2 < length vrow).
  { rewrite (S2 row vrow Hr). unfold cells_per_row.
    pose proof (Nat.div_mod_eq (length (hd [] g) + 1) 2) as D.
    pose proof (Nat.mod_upper_bound (length (hd [] g) + 1) 2). lia. }
  destruct (nth_error vrow (col / 2)) as [x|] eqn:Hk;
    [|apply nth_error_None in Hk; lia].
  destruct (I3 row vrow (col / 2) x Hr Hk) as (_ & _ & cell & G & _).
  rewrite E3 in G. congruence.
Qed.

(** A builder returns only for a board with an entry at every cell it
    reads (a shorter row raises IndexError), and then [variables] has one
    row per row of the board and one variable per cell of a row. *)
Theorem models_need_full_rows (h : heap) (futo_grid : grid) :
  (forall csp variables h',
      futoshiki_csp_model_1 h futo_grid = Some (csp, variables, h') ->
      board_shape futo_grid variables) /\
  (forall csp variables h',
      futoshiki_csp_model_2 h futo_grid = Some (csp, variables, h') ->
      board_shape futo_grid variables).
Proof.
  split; intros csp variables h' H.
  - apply model_1_built in H. destruct H as (csp1 & I & _).
    now apply cells_inv_shape with h' csp1.
  - apply model_2_built in H. destruct H as (csp1 & I & _).
    now apply cells_inv_shape with h' csp1.
Qed.

Lemma models_need_full_rows_witness :
  (exists csp variables h',
      futoshiki_csp_model_1 heap0 given3 = Some (csp, variables, h') /\
      board_shape given3 variables) /\
  futoshiki_csp_model_1 heap0 [empty_row; [VInt 0; VStr "."]; empty_row] = None.
Proof.
  split; [|reflexivity].
  eexists _, _, _. split; [vm_compute; reflexivity|].
  eapply (proj1 (models_need_full_rows heap0 given3)). vm_compute. reflexivity.
Defined.

Lemma built_fresh h g csp csp1 variables h' :
  cells_inv g (length (hd [] g)) (length g) 0 (h', csp1, variables) ->
  ids_inv h (h', csp1, variables) ->
  csp_vars csp = csp_vars csp1 ->
  fresh_variables h g csp variables h'.
Proof.
  intros I (J1 & J2 & J3 & J4) E.
  destruct (cells_inv_shape g h' csp1 variables I) as (S1 & S2 & _).
  assert (L : next_id h' - next_id h = length g * cells_per_row g).
  { rewrite <- (length_seq (next_id h' - next_id h) (next_id h)), <- J2, <- S1.
    now apply concat_length_rows. }
  split; [congruence|]. split; [now rewrite J2, L|]. split; [lia | exact J4].
Qed.

(** The variables that a builder makes are new objects, numbered in a row
    after the objects that exist, cell after cell in row-major order: no
    two cells share a variable; they are the variables of the CSP, in that
    order; and no object that existed before is changed. *)
Theorem models_make_fresh_variables (h : heap) (futo_grid : grid) :
  (forall csp variables h',
      futoshiki_csp_model_1 h futo_grid = Some (csp, variables, h') ->
      fresh_variables h futo_grid csp variables h') /\
  (forall csp variables h',
      futoshiki_csp_model_2 h futo_grid = Some (csp, variables, h') ->
      fresh_variables h futo_grid csp variables h').
Proof.
  split; intros csp variables h' H.
  - apply model_1_built in H. destruct H as (csp1 & I & J & E).
    now apply built_fresh with csp1.
  - apply model_2_built in H. destruct H as (csp1 & I & J & E).
    now apply built_fresh with csp1.
Qed.

Lemma models_make_fresh_variables_witness :
  exists csp variables h',
    futoshiki_csp_model_2 ex_heap given3 = Some (csp, variables, h') /\
    fresh_variables ex_heap given3 csp variables h'.
Proof.
  eexists _, _, _. split; [vm_compute; reflexivity|].
  eapply (proj2 (models_make_fresh_variables ex_heap given3)).
  vm_compute. reflexivity.
Defined.

(** ** The solutions of model 1 *)

Lemma satisfies_add csp c a :
  satisfies (add_constraint csp c) a
  = satisfies csp a && check c (map (fun x => Some (a x)) (scope c)).
Proof.
  unfold satisfies, add_constraint, get_scope. simpl.
  rewrite forallb_app. simpl. now rewrite andb_true_r.
Qed.

Lemma check_iff c (a : var_id -> value) sc :
  check c (map (fun x => Some (a x)) sc) = true <->
  In (map a sc) (satisfying_tuples c).
Proof.
  split; [apply check_tuple|]. intros H. unfold check. apply existsb_exists.
  exists (map a sc). split; [exact H|].
  destruct (list_eq_dec opt_value_eq_dec (map Some (map a sc))
                        (map (fun x => Some (a x)) sc)) as [|N]; [reflexivity|].
  exfalso. apply N. now rewrite map_map.
Qed.

Lemma not_equal_check st x y c a :
  not_equal st x y c ->
  (check c (map (fun z => Some (a z)) (scope c)) = true <-> pair_ok st a x y).
Proof.
  intros [S T]. rewrite check_iff, T, S. simpl. unfold pair_ok. split.
  - intros (u & v & E & Hu & Hv & N). injection E as -> ->. auto.
  - intros (Hu & Hv & N). exists (a x), (a y). auto.
Qed.

Lemma binary_constraint_spec h csp variables rc row col1 col2 col row1 row2 csp' :
  binary_constraint h csp variables rc row col1 col2 col row1 row2 = Some csp' ->
  exists x y c,
    (if rc then cell_var variables row col1 else cell_var variables row1 col) = Some x /\
    (if rc then cell_var variables row col2 else cell_var variables row2 col) = Some y /\
    csp' = add_constraint csp c /\ not_equal (objects h) x y c.
Proof.
  unfold binary_constraint, cell_var. destruct rc.
  - destruct (match nth_error variables row with
              | Some l => nth_error l col1 | None => None end) as [x|];
      [|discriminate].
    destruct (match nth_error variables row with
              | Some l => nth_error l col2 | None => None end) as [y|];
      [|discriminate].
    intros E. injection E as <-. exists x, y. eexists.
    split; [reflexivity|]. split; [reflexivity|]. split; [reflexivity|].
    split; [reflexivity|]. intros t. simpl. apply neq_tuples_spec.
  - destruct (match nth_error variables row1 with
              | Some l => nth_error l col | None => None end) as [x|];
      [|discriminate].
    destruct (match nth_error variables row2 with
              | Some l => nth_error l col | None => None end) as [y|];
      [|discriminate].
    intros E. injection E as <-. exists x, y. eexists.
    split; [reflexivity|]. split; [reflexivity|]. split; [reflexivity|].
    split; [reflexivity|]. intros t. simpl. apply neq_tuples_spec.
Qed.

Section Model1Cons.
Variable h : heap.
Variable variables : list (list var_id).
Variable n : nat.

Let cond := model_1_cond (objects h) variables.
Let Sat (csp : CSP) (a : var_id -> value) : Prop := satisfies csp a = true.

(** The body of the innermost loop: one row pair and one column pair. *)
Lemma model_1_pair i j k csp csp' :
  match binary_constraint h csp variables true i j k i j k with
  | Some csp1 => binary_constraint h csp1 variables false i j k i j k
  | None => None
  end = Some csp' ->
  forall a, Sat csp' a <-> Sat csp a /\ cond a i j k.
Proof.
  destruct (binary_constraint h csp variables true i j k i j k) as [csp1|] eqn:B1;
    [|discriminate].
  intros B2 a.
  apply binary_constraint_spec in B1, B2.
  destruct B1 as (x1 & y1 & c1 & X1 & Y1 & -> & N1).
  destruct B2 as (x2 & y2 & c2 & X2 & Y2 & -> & N2).
  unfold Sat. rewrite !satisfies_add, !andb_true_iff.
  rewrite (not_equal_check (objects h) x1 y1 c1 a N1).
  rewrite (not_equal_check (objects h) x2 y2 c2 a N2).
  unfold cond, model_1_cond, cells_differ. split.
  - intros [[S P1] P2]. split; [exact S|]. split.
    + exists x1, y1. auto.
    + exists x2, y2. auto.
  - intros (S & (x & y & Hx & Hy & P1) & (x' & y' & Hx' & Hy' & P2)).
    rewrite X1 in Hx. rewrite Y1 in Hy. rewrite X2 in Hx'. rewrite Y2 in Hy'.
    injection Hx as <-. injection Hy as <-. injection Hx' as <-. injection Hy' as <-.
    auto.
Qed.

Lemma model_1_inner i j csp csp' :
  for_each (range (j + 1) n) (fun k csp0 =>
    match binary_constraint h csp0 variables true i j k i j k with
    | Some csp1 => binary_constraint h csp1 variables false i j k i j k
    | None => None
    end) csp = Some csp' ->
  forall a, Sat csp' a <-> Sat csp a /\ forall k, j < k -> k < n -> cond a i j k.
Proof.
  intros H.
  set (P := fun (m : nat) (c : CSP) =>
              forall a, Sat c a <->
                        Sat csp a /\ forall k, j < k -> k < j + 1 + m -> cond a i j k).
  assert (K : P (length (range (j + 1) n)) csp').
  { refine (@for_each_ind CSP nat P _ _ _ csp csp' _ H).
    - intros m k c1 c2 Hk P1 B a. apply nth_error_range in Hk.
      destruct Hk as [-> Hk]. rewrite (model_1_pair i j _ c1 c2 B a), (P1 a).
      split.
      + intros [[S A] C]. split; [exact S|]. intros k Lk Uk.
        destruct (Nat.eq_dec k (j + 1 + m)) as [->|Nk]; [exact C|].
        apply A; lia.
      + intros [S A]. split; [split; [exact S|]|].
        * intros k Lk Uk. apply A; lia.
        * apply A; lia.
    - intros a. split; [intros S; split; [exact S|]; intros k Lk Uk; lia | tauto]. }
  intros a. rewrite (K a), length_range. split; intros [S A]; (split; [exact S|]);
    intros k Lk Uk; apply A; lia.
Qed.

Lemma model_1_middle i csp csp' :
  for_each (range 0 n) (fun j =>
    for_each (range (j + 1) n) (fun k csp0 =>
      match binary_constraint h csp0 variables true i j k i j k with
      | Some csp1 => binary_constraint h csp1 variables false i j k i j k
      | None => None
      end)) csp = Some csp' ->
  forall a, Sat csp' a <-> Sat csp a /\ forall j k, j < k -> k < n -> cond a i j k.
Proof.
  intros H.
  set (P := fun (m : nat) (c : CSP) =>
              forall a, Sat c a <->
                        Sat csp a /\
                        forall j k, j < m -> j < k -> k < n -> cond a i j k).
  assert (K : P (length (range 0 n)) csp').
  { refine (@for_each_ind CSP nat P _ _ _ csp csp' _ H).
    - intros m j c1 c2 Hj P1 B a. apply nth_error_range in Hj.
      destruct Hj as [-> Hj]. change (0 + m) with m in B.
      rewrite (model_1_inner i m c1 c2 B a), (P1 a). split.
      + intros [[S A] C]. split; [exact S|]. intros j k Lj Lk Uk.
        destruct (Nat.eq_dec j m) as [->|Nj]; [now apply C|]. apply A; lia.
      + intros [S A]. split; [split; [exact S|]|].
        * intros j k Lj Lk Uk. apply A; lia.
        * intros k Lk Uk. apply A; lia.
    - intros a. split; [intros S; split; [exact S|]; intros j k Lj; lia | tauto]. }
  intros a. rewrite (K a), length_range, Nat.sub_0_r.
  split; intros [S A]; (split; [exact S|]).
  - intros j k Lk Uk. apply A; lia.
  - intros j k _ Lk Uk. now apply A.
Qed.

Lemma model_1_cons_spec csp csp' :
  model_1_cons h variables n csp = Some csp' ->
  forall a, Sat csp' a <->
            Sat csp a /\ forall i j k, i < n -> j < k -> k < n -> cond a i j k.
Proof.
  intros H. unfold model_1_cons in H.
  set (P := fun (m : nat) (c : CSP) =>
              forall a, Sat c a <->
                        Sat csp a /\
                        forall i j k, i < m -> j < k -> k < n -> cond a i j k).
  assert (K : P (length (range 0 n)) csp').
  { refine (@for_each_ind CSP nat P _ _ _ csp csp' _ H).
    - intros m i c1 c2 Hi P1 B a. apply nth_error_range in Hi.
      destruct Hi as [-> Hi]. change (0 + m) with m in B.
      rewrite (model_1_middle m c1 c2 B a), (P1 a). split.
      + intros [[S A] C]. split; [exact S|]. intros i j k Li Lk Uk.
        destruct (Nat.eq_dec i m) as [->|Ni]; [now apply C|]. apply A; lia.
      + intros [S A]. split; [split; [exact S|]|].
        * intros i j k Li Lk Uk. apply A; lia.
        * intros j k Lk Uk. apply A; lia.
    - intros a. split; [intros S; split; [exact S|]; intros i j k Li; lia | tauto]. }
  intros a. rewrite (K a), length_range, Nat.sub_0_r. reflexivity.
Qed.
End Model1Cons.

(** On a board of int cells the test for an inequality never succeeds:
    the cell loop builds no constraint. *)
Lemma model_1_cell_no_cons g var_domain r c h csp variables h' csp' variables' :
  int_cells g ->
  model_1_cell g var_domain r c (h, csp, variables) = Some (h', csp', variables') ->
  csp_cons csp' = csp_cons csp.
Proof.
  intros IC H. unfold model_1_cell in H.
  destruct (Nat.eqb_spec (c mod 2) 0) as [Ev|Od].
  - destruct (var_setup h g var_domain r c) as [[x h1]|]; [|discriminate].
    destruct (append_at r x variables); [|discriminate].
    now injection H as <- <- <-.
  - assert (E : ineq_here g r c = Some false \/ ineq_here g r c = None).
    { unfold ineq_here. destruct (Nat.ltb 0 c); [|now left].
      destruct (grid_at g r (c - 1)) as [sym|] eqn:G; [|now right].
      destruct (IC r (c - 1) sym (odd_pred_even c Od) G) as [z ->].
      now left. }
    destruct E as [E|E]; rewrite E in H; [|discriminate].
    now injection H as <- <- <-.
Qed.

Lemma model_1_cells_no_cons g num_col var_domain (s s' : build1) :
  int_cells g ->
  for_each (range 0 (length g)) (fun row =>
    for_each (range 0 num_col) (model_1_cell g var_domain row)) s = Some s' ->
  csp_cons (snd (fst s')) = csp_cons (snd (fst s)).
Proof.
  intros IC.
  apply (for_each_keeps
           (fun s0 : build1 => csp_cons (snd (fst s0)) = csp_cons (snd (fst s))));
    [|reflexivity].
  intros row s1 s2 Q1.
  apply (for_each_keeps
           (fun s0 : build1 => csp_cons (snd (fst s0)) = csp_cons (snd (fst s))));
    [|exact Q1].
  clear s1 s2 Q1. intros col [[h1 c1] v1] [[h2 c2] v2] Q1 H. simpl in *.
  rewrite <- Q1. now apply model_1_cell_no_cons with g var_domain row col h1 v1 h2 v2.
Qed.

Lemma for_each_proj {S1 S2 A} (pr : S2 -> S1)
      (body1 : A -> S1 -> option S1) (body2 : A -> S2 -> option S2) l :
  (forall a s s', body2 a s = Some s' -> body1 a (pr s) = Some (pr s')) ->
  forall s s', for_each l body2 s = Some s' ->
               for_each l body1 (pr s) = Some (pr s').
Proof.
  intros H. induction l as [|a l IH]; intros s s' E; simpl in *.
  - now injection E as <-.
  - destruct (body2 a s) as [s1|] eqn:B; [|discriminate].
    rewrite (H a s s1 B). now apply IH.
Qed.

Lemma model_2_cells_proj g num_col var_domain (s s' : build2) :
  for_each (range 0 (length g)) (fun row =>
    for_each (range 0 num_col) (model_2_cell g var_domain row)) s = Some s' ->
  for_each (range 0 (length g)) (fun row =>
    for_each (range 0 num_col) (model_1_cell g var_domain row)) (fst s)
  = Some (fst s').
Proof.
  apply (for_each_proj (@fst build1 (list (list (list value))))).
  intros row s1 s2. apply (for_each_proj (@fst build1 (list (list (list value))))).
  intros col s3 s4. apply model_2_cell_proj.
Qed.

Lemma model_1_satisfies (h : heap) (futo_grid : grid) (csp : CSP)
      (variables : list (list var_id)) (h' : heap) :
  int_cells futo_grid ->
  futoshiki_csp_model_1 h futo_grid = Some (csp, variables, h') ->
  forall a,
    satisfies csp a = true <->
    forall i j k, i < length futo_grid -> j < k -> k < length futo_grid ->
                  model_1_cond (objects h') variables a i j k.
Proof.
  intros IC. unfold futoshiki_csp_model_1.
  destruct futo_grid as [|row0 rest]; [simpl; discriminate|].
  set (g := row0 :: rest) in *. cbv zeta. rewrite init_lists_spec.
  destruct (for_each (range 0 (length g)) _ _) as [[[h1 csp1] vars1]|] eqn:F;
    [|discriminate].
  destruct (model_1_cons h1 vars1 (length g) csp1) as [csp2|] eqn:C; [|discriminate].
  intros E a. injection E as <- <- <-.
  apply (model_1_cells_no_cons g _ _ _ _ IC) in F. simpl in F.
  rewrite (model_1_cons_spec h1 vars1 (length g) csp1 csp2 C a).
  unfold satisfies at 1. rewrite F. simpl. tauto.
Qed.

(** The solutions of model 1, on a board of int cells: the CSP holds the
    not-equal constraints of the last loop and nothing else, so a full
    assignment satisfies it exactly when, for all [i < n] and [j < k < n],
    cells [j] and [k] of row [i] get two different values of their
    domains, and so do cells [j] and [k] of column [i]. The inequality
    signs of the board play no part. *)
Theorem model_1_solutions (h : heap) (futo_grid : grid) (csp : CSP)
        (variables : list (list var_id)) (h' : heap) :
  int_cells futo_grid ->
  futoshiki_csp_model_1 h futo_grid = Some (csp, variables, h') ->
  forall a,
    satisfies csp a = true <->
    forall i j k, i < length futo_grid -> j < k -> k < length futo_grid ->
                  model_1_cond (objects h') variables a i j k.
Proof.
  apply model_1_satisfies.
Qed.

(** A board of three rows of five entries holds ints at its cells: by
    cases on the row and the column. *)
Ltac int_cells_3x5 :=
  let row := fresh "row" in
  let col := fresh "col" in
  let cell := fresh "cell" in
  let Ev := fresh "Ev" in
  let G := fresh "G" in
  let R := fresh "R" in
  let r := fresh "r" in
  intros row col cell Ev G; unfold grid_at in G;
  destruct (nth_error _ row) as [r|] eqn:R; [|discriminate G];
  match type of R with
  | nth_error ?g _ = _ =>
      assert (row < length g)
        by (apply (proj1 (nth_error_Some g row)); rewrite R; discriminate)
  end;
  assert (col < length r)
    by (apply (proj1 (nth_error_Some r col)); rewrite G; discriminate);
  destruct row as [|[|[|row]]]; simpl in *; try lia; injection R as <-;
  (destruct col as [|[|[|[|[|col]]]]]; simpl in *; try lia; try discriminate Ev;
   injection G as <-; eexists; reflexivity).

Lemma given3_int_cells : int_cells given3.
Proof. int_cells_3x5. Qed.

Lemma model_1_solutions_witness :
  exists csp variables h',
    futoshiki_csp_model_1 heap0 given3 = Some (csp, variables, h') /\
    forall a,
      satisfies csp a = true <->
      forall i j k, i < length given3 -> j < k -> k < length given3 ->
                    model_1_cond (objects h') variables a i j k.
Proof.
  eexists _, _, _. split; [vm_compute; reflexivity|].
  eapply (model_1_solutions heap0 given3); [|vm_compute; reflexivity].
  int_cells_3x5.
Defined.

(** ** The solutions of model 2 *)

Lemma Forall2_map_in (D : var_id -> list value) (a : var_id -> value) sc :
  Forall2 (fun v x => In v (D x)) (map a sc) sc <->
  forall x, In x sc -> In (a x) (D x).
Proof.
  induction sc as [|y sc IH]; simpl.
  - split; [intros _ x [] | constructor].
  - split.
    + intros F. inversion F as [|? ? ? ? Hy F']. subst.
      intros x [<-|Hx]; [exact Hy | now apply IH].
    + intros H. constructor; [apply H; now left|]. apply IH. intros x Hx.
      apply H. now right.
Qed.

Lemma line_ok_list st a xs :
  (forall x, In x xs -> In (a x) (cur_domain st x)) /\ NoDup (map a xs) <->
  line_ok st a (nth_error xs) (length xs).
Proof.
  split.
  - intros [D ND]. split.
    + intros j Lj. destruct (nth_error xs j) as [x|] eqn:E;
        [|apply nth_error_None in E; lia].
      exists x. split; [reflexivity|]. apply D. now apply nth_error_In with j.
    + intros j1 j2 x y L1 L2 E1 E2 Eq.
      assert (K : j1 = j2); [|lia].
      apply (proj1 (NoDup_nth_error (map a xs)) ND).
      * rewrite length_map. lia.
      * rewrite !nth_error_map, E1, E2. simpl. now rewrite Eq.
  - intros [D ND]. split.
    + intros x Hx. apply In_nth_error in Hx. destruct Hx as [j E].
      assert (Lj : j < length xs) by (apply nth_error_Some; congruence).
      destruct (D j Lj) as (x' & E' & Hx'). congruence.
    + apply NoDup_nth_error. intros i j Li E. rewrite length_map in Li.
      rewrite !nth_error_map in E.
      destruct (nth_error xs i) as [x|] eqn:Ei; [|apply nth_error_None in Ei; lia].
      destruct (nth_error xs j) as [y|] eqn:Ej; [|discriminate E].
      simpl in E. injection E as E.
      assert (Lj : j < length xs) by (apply nth_error_Some; congruence).
      destruct (Nat.lt_trichotomy i j) as [L|[L|L]]; [|exact L|].
      * exfalso. now apply (ND i j x y L Lj Ei Ej).
      * exfalso. apply (ND j i y x L Li Ej Ei). now symmetry.
Qed.

Lemma line_ok_ext st a cells cells' n :
  (forall j, j < n -> cells j = cells' j) ->
  line_ok st a cells n <-> line_ok st a cells' n.
Proof.
  intros E. unfold line_ok. split; intros [D ND]; split.
  - intros j Lj. rewrite <- (E j Lj). now apply D.
  - intros j1 j2 x y L1 L2 E1 E2. rewrite <- E in E1, E2 by lia.
    now apply (ND j1 j2 x y).
  - intros j Lj. rewrite (E j Lj). now apply D.
  - intros j1 j2 x y L1 L2 E1 E2. rewrite E in E1, E2 by lia.
    now apply (ND j1 j2 x y).
Qed.

Lemma all_different_check st c a :
  all_different st c ->
  (check c (map (fun z => Some (a z)) (scope c)) = true <->
   line_ok st a (nth_error (scope c)) (length (scope c))).
Proof.
  intros T. rewrite check_iff, (T (map a (scope c))), Forall2_map_in.
  apply line_ok_list.
Qed.

Lemma column_cells h variables n i col_vars col_domains :
  column h variables n i = Some (col_vars, col_domains) ->
  length col_vars = n /\
  forall j, j < n -> cell_var variables j i = nth_error col_vars j.
Proof.
  unfold column. intros H.
  apply (@for_each_ind (list var_id * list (list value)) nat
           (fun k acc => length (fst acc) = k /\
                         forall j, j < k -> cell_var variables j i
                                            = nth_error (fst acc) j)) in H.
  - rewrite length_range, Nat.sub_0_r in H. exact H.
  - clear H. intros k j [cv cd] s2 Hj [L E] H. simpl in L, E.
    apply nth_error_range in Hj. destruct Hj as [-> _]. change (0 + k) with k in *.
    destruct (nth_error variables k) as [vrow|] eqn:Hv; [|discriminate].
    destruct (nth_error vrow i) as [x|] eqn:Hx; [|discriminate].
    injection H as <-. simpl. rewrite length_app. simpl. split; [lia|].
    intros j Lj. destruct (Nat.eq_dec j k) as [->|N].
    + unfold cell_var. rewrite Hv, Hx, nth_error_app2 by lia.
      now rewrite L, Nat.sub_diag.
    + rewrite nth_error_app1 by lia. apply E. lia.
  - split; [reflexivity|]. intros j Lj. lia.
Qed.

Lemma model_2_cons_spec h variables row_domains n csp csp' :
  (forall row vrow, nth_error variables row = Some vrow -> row < n ->
                    length vrow = n) ->
  (forall row vrow drow,
      nth_error variables row = Some vrow ->
      nth_error row_domains row = Some drow ->
      drow = map (cur_domain (objects h)) vrow) ->
  model_2_cons h variables row_domains n csp = Some csp' ->
  forall a,
    satisfies csp' a = true <->
    satisfies csp a = true /\
    forall i, i < n ->
              line_ok (objects h) a (fun j => cell_var variables i j) n /\
              line_ok (objects h) a (fun j => cell_var variables j i) n.
Proof.
  intros Len Rd H. unfold model_2_cons in H.
  set (P := fun (m : nat) (c : CSP) =>
              forall a, satisfies c a = true <->
                        satisfies csp a = true /\
                        forall i, i < m ->
                          line_ok (objects h) a (fun j => cell_var variables i j) n /\
                          line_ok (objects h) a (fun j => cell_var variables j i) n).
  assert (K : P (length (range 0 n)) csp').
  { refine (@for_each_ind CSP nat P _ _ _ csp csp' _ H).
    - intros m i c1 c2 Hi P1 B a. apply nth_error_range in Hi.
      destruct Hi as [-> Hi]. change (0 + m) with m in *. simpl in Hi.
      destruct (column h variables n m) as [[col_vars col_domains]|] eqn:C;
        [|discriminate].
      pose proof (column_cells h variables n m col_vars col_domains C) as [Lc Ec].
      apply column_spec in C. destruct C as [-> _].
      destruct (nth_error variables m) as [vrow|] eqn:Hv; [|discriminate].
      destruct (nth_error row_domains m) as [drow|] eqn:Hd; [|discriminate].
      rewrite (Rd m vrow drow Hv Hd) in B.
      pose proof (Len m vrow Hv Hi) as Lr.
      rewrite <- Lr in B at 1.
      destruct (all_diff_constraint_spec (objects h) c1 vrow) as (satR & ER & TR).
      rewrite ER in B. rewrite <- Lc in B at 1.
      destruct (all_diff_constraint_spec (objects h)
                  (add_constraint c1 (mkConstraint ":()" vrow satR)) col_vars)
        as (satC & EC & TC).
      rewrite EC in B. injection B as <-.
      rewrite !satisfies_add, !andb_true_iff.
      rewrite (all_different_check (objects h) (mkConstraint ":()" vrow satR) a TR).
      rewrite (all_different_check (objects h) (mkConstraint ":()" col_vars satC) a TC).
      simpl scope. rewrite Lr, Lc, (P1 a).
      assert (RowE : line_ok (objects h) a (nth_error vrow) n <->
                     line_ok (objects h) a (fun j => cell_var variables m j) n).
      { apply line_ok_ext. intros j _. unfold cell_var. now rewrite Hv. }
      assert (ColE : line_ok (objects h) a (nth_error col_vars) n <->
                     line_ok (objects h) a (fun j => cell_var variables j m) n).
      { apply line_ok_ext. intros j Lj. symmetry. now apply Ec. }
      rewrite RowE, ColE. split.
      + intros [[[S A] R] Cc]. split; [exact S|]. intros i Li.
        destruct (Nat.eq_dec i m) as [->|Ni]; [now split|]. apply A. lia.
      + intros [S A]. split; [split; [split; [exact S|]|]|].
        * intros i Li. apply A. lia.
        * apply A. lia.
        * apply A. lia.
    - intros a. split; [intros S; split; [exact S|]; intros i Li; lia | tauto]. }
  intros a. rewrite (K a), length_range, Nat.sub_0_r. reflexivity.
Qed.

Lemma square_cells_per_row (g : grid) :
  length (hd [] g) = 2 * length g - 1 -> 1 <= length g ->
  (length (hd [] g) + 1) / 2 = length g.
Proof.
  intros Sq L. rewrite Sq.
  replace (2 * length g - 1 + 1) with (length g * 2) by lia.
  apply Nat.div_mul. discriminate.
Qed.

Lemma model_2_satisfies (h : heap) (futo_grid : grid) (csp : CSP)
        (variables : list (list var_id)) (h' : heap) :
  int_cells futo_grid ->
  length (hd [] futo_grid) = 2 * length futo_grid - 1 ->
  futoshiki_csp_model_2 h futo_grid = Some (csp, variables, h') ->
  forall a,
    satisfies csp a = true <->
    forall i, i < length futo_grid ->
      line_ok (objects h') a (fun j => cell_var variables i j) (length futo_grid) /\
      line_ok (objects h') a (fun j => cell_var variables j i) (length futo_grid).
Proof.
  intros IC Sq. unfold futoshiki_csp_model_2.
  destruct futo_grid as [|row0 rest]; [simpl; discriminate|].
  set (g := row0 :: rest) in *. cbv zeta.
  rewrite init_lists_spec, init_row_domains_spec.
  destruct (for_each (range 0 (length g)) _ _) as [[[[h1 csp1] vars1] rd1]|] eqn:F;
    [|discriminate].
  destruct (model_2_cons h1 vars1 rd1 (length g) csp1) as [csp2|] eqn:C;
    [|discriminate].
  intros E a. injection E as <- <- <-.
  assert (I0 : cells_inv g (length row0) 0 0
                 (fst (h, new_CSP ("Futoshiki CSCP Model 2 - " ++ fmt_nat (length g)
                                     ++ "x" ++ fmt_nat (length g))%string,
                       repeat (@nil var_id) (length g),
                       repeat (@nil (list value)) (length g))))
    by apply cells_inv_init.
  assert (B0 : build2_inv
                 (h, new_CSP ("Futoshiki CSCP Model 2 - " ++ fmt_nat (length g)
                                ++ "x" ++ fmt_nat (length g))%string,
                  repeat (@nil var_id) (length g),
                  repeat (@nil (list value)) (length g))).
  { split; [now rewrite !repeat_length|]. split; [|intros c []].
    intros row vrow drow Hv Hd.
    apply nth_error_In, repeat_spec in Hv. apply nth_error_In, repeat_spec in Hd.
    now subst. }
  pose proof (@model_2_cells_inv g (length row0) _ _ I0 F) as I.
  pose proof (@model_2_cells_inv2 g (length row0) _ _ I0 B0 F) as B.
  pose proof (model_2_cells_proj g (length row0) _ _ _ F) as F1.
  apply (model_1_cells_no_cons g _ _ _ _ IC) in F1. simpl in F1.
  simpl fst in I. destruct I as (I1 & I2 & _). destruct B as (_ & B2 & _).
  assert (W : forall row vrow, nth_error vars1 row = Some vrow -> row < length g ->
                               length vrow = length g).
  { intros row vrow Hv Hr. rewrite (I2 row vrow Hv). unfold filled.
    destruct (Nat.ltb_spec row (length g)); [|lia].
    apply (square_cells_per_row g Sq). simpl. lia. }
  rewrite (model_2_cons_spec h1 vars1 rd1 (length g) csp1 csp2 W B2 C a).
  unfold satisfies at 1. rewrite F1. simpl. tauto.
Qed.

(** The solutions of model 2, on a square board of int cells: the CSP
    holds one all-different constraint per row and per column and nothing
    else, so a full assignment satisfies it exactly when in every row and
    in every column the cells get values of their domains, no two the
    same. The inequality signs of the board play no part. *)
Theorem model_2_solutions (h : heap) (futo_grid : grid) (csp : CSP)
        (variables : list (list var_id)) (h' : heap) :
  int_cells futo_grid ->
  length (hd [] futo_grid) = 2 * length futo_grid - 1 ->
  futoshiki_csp_model_2 h futo_grid = Some (csp, variables, h') ->
  forall a,
    satisfies csp a = true <->
    forall i, i < length futo_grid ->
      line_ok (objects h') a (fun j => cell_var variables i j) (length futo_grid) /\
      line_ok (objects h') a (fun j => cell_var variables j i) (length futo_grid).
Proof.
  apply model_2_satisfies.
Qed.

Lemma model_2_solutions_witness :
  exists csp variables h',
    futoshiki_csp_model_2 heap0 given3 = Some (csp, variables, h') /\
    forall a,
      satisfies csp a = true <->
      forall i, i < length given3 ->
        line_ok (objects h') a (fun j => cell_var variables i j) (length given3) /\
        line_ok (objects h') a (fun j => cell_var variables j i) (length given3).
Proof.
  eexists _, _, _. split; [vm_compute; reflexivity|].
  eapply (model_2_solutions heap0 given3);
    [int_cells_3x5 | reflexivity | vm_compute; reflexivity].
Defined.

(** ** The two models have the same solutions *)

(** Asking a not-equal constraint of every pair of cells of a line of at
    least two cells is asking one all-different constraint of the line. *)
Lemma line_pairs st st' (a a' : var_id -> value) cells cells' n :
  2 <= n ->
  (forall j, j < n ->
     exists x x', cells j = Some x /\ cells' j = Some x' /\
                  cur_domain st x = cur_domain st' x' /\ a x = a' x') ->
  (forall j k, j < k -> k < n ->
     exists x y, cells j = Some x /\ cells k = Some y /\ pair_ok st a x y) <->
  line_ok st' a' cells' n.
Proof.
  intros L2 Co. split.
  - intros P. split.
    + intros j Lj. destruct (Co j Lj) as (x & x' & Hx & Hx' & D & E).
      exists x'. split; [exact Hx'|]. rewrite <- D, <- E.
      destruct (Nat.lt_ge_cases (S j) n) as [Lt|Ge].
      * destruct (P j (S j)) as (x0 & y0 & H0 & _ & Dx & _); [lia | lia |].
        rewrite Hx in H0. injection H0 as <-. exact Dx.
      * destruct (P (j - 1) j) as (x0 & y0 & _ & H0 & _ & Dy & _); [lia | lia |].
        rewrite Hx in H0. injection H0 as <-. exact Dy.
    + intros j1 j2 x' y' L1 Lt H1 H2.
      destruct (Co j1) as (x & x1 & Hx & Hx1 & _ & Ex); [lia|].
      destruct (Co j2 Lt) as (y & y1 & Hy & Hy1 & _ & Ey).
      rewrite H1 in Hx1. injection Hx1 as <-.
      rewrite H2 in Hy1. injection Hy1 as <-.
      destruct (P j1 j2 L1 Lt) as (x0 & y0 & H0 & H0' & _ & _ & N).
      rewrite Hx in H0. injection H0 as <-.
      rewrite Hy in H0'. injection H0' as <-.
      now rewrite <- Ex, <- Ey.
  - intros [A B] j k Ljk Lk.
    destruct (Co j) as (x & x' & Hx & Hx' & Dx & Ex); [lia|].
    destruct (Co k Lk) as (y & y' & Hy & Hy' & Dy & Ey).
    exists x, y. split; [exact Hx|]. split; [exact Hy|].
    destruct (A j) as (x0 & H0 & Ix); [lia|].
    rewrite Hx' in H0. injection H0 as <-.
    destruct (A k Lk) as (y0 & H0 & Iy).
    rewrite Hy' in H0. injection H0 as <-.
    split; [now rewrite Dx, Ex|]. split; [now rewrite Dy, Ey|].
    rewrite Ex, Ey. now apply (B j k x' y').
Qed.

(** On a square board, the builders leave a variable at every cell, whose
    current domain is the one of the cell. *)
Lemma built_cell (g : grid) h csp variables :
  cells_inv g (length (hd [] g)) (length g) 0 (h, csp, variables) ->
  length (hd [] g) = 2 * length g - 1 ->
  forall r c, r < length g -> c < length g ->
    exists x cell, cell_var variables r c = Some x /\
                   grid_at g r (2 * c) = Some cell /\
                   cur_domain (objects h) x = cell_domain (length g) cell.
Proof.
  intros (I1 & I2 & I3) Sq r c Lr Lc. unfold cell_var.
  destruct (nth_error variables r) as [vrow|] eqn:Hr;
    [|apply nth_error_None in Hr; lia].
  assert (Lv : length vrow = length g).
  { rewrite (I2 r vrow Hr). unfold filled.
    destruct (Nat.ltb_spec r (length g)); [|lia].
    apply (square_cells_per_row g Sq). lia. }
  destruct (nth_error vrow c) as [x|] eqn:Hc;
    [|apply nth_error_None in Hc; lia].
  destruct (I3 r vrow c x Hr Hc) as (_ & _ & cell & G & O).
  exists x, cell. split; [reflexivity|]. split; [exact G|].
  unfold cur_domain. now rewrite O.
Qed.

(** The two models have the same solutions. On a square board of at least
    two rows whose cells hold ints, an assignment of values to the cells
    of the board satisfies the CSP of model 1 exactly when it satisfies
    the CSP of model 2: the not-equal constraints of every pair of cells
    of a row or a column ask what the all-different constraint of that
    row or column asks. The two CSPs may be built at different times, so
    that their variables are different objects; the assignment is given
    by position, [a1] and [a2] carrying it to the variables of each
    CSP. *)
Theorem models_have_same_solutions (h1 h2 : heap) (futo_grid : grid)
        (csp1 csp2 : CSP) (variables1 variables2 : list (list var_id))
        (h1' h2' : heap) :
  int_cells futo_grid ->
  length (hd [] futo_grid) = 2 * length futo_grid - 1 ->
  2 <= length futo_grid ->
  futoshiki_csp_model_1 h1 futo_grid = Some (csp1, variables1, h1') ->
  futoshiki_csp_model_2 h2 futo_grid = Some (csp2, variables2, h2') ->
  forall v a1 a2,
    gives variables1 a1 v -> gives variables2 a2 v ->
    (satisfies csp1 a1 = true <-> satisfies csp2 a2 = true).
Proof.
  intros IC Sq L2 M1 M2 v a1 a2 G1 G2.
  rewrite (model_1_satisfies h1 futo_grid csp1 variables1 h1' IC M1 a1).
  rewrite (model_2_satisfies h2 futo_grid csp2 variables2 h2' IC Sq M2 a2).
  destruct (model_1_built h1 futo_grid csp1 variables1 h1' M1) as (c1 & I1 & _).
  destruct (model_2_built h2 futo_grid csp2 variables2 h2' M2) as (c2 & I2 & _).
  pose proof (built_cell futo_grid h1' c1 variables1 I1 Sq) as B1.
  pose proof (built_cell futo_grid h2' c2 variables2 I2 Sq) as B2.
  assert (Co : forall r c, r < length futo_grid -> c < length futo_grid ->
             exists x x', cell_var variables1 r c = Some x /\
                          cell_var variables2 r c = Some x' /\
                          cur_domain (objects h1') x = cur_domain (objects h2') x' /\
                          a1 x = a2 x').
  { intros r c Lr Lc.
    destruct (B1 r c Lr Lc) as (x & cell & Hx & Gx & Dx).
    destruct (B2 r c Lr Lc) as (x' & cell' & Hx' & Gx' & Dx').
    exists x, x'. split; [exact Hx|]. split; [exact Hx'|].
    rewrite Gx in Gx'. injection Gx' as <-.
    split; [congruence|]. now rewrite (G1 r c x Hx), (G2 r c x' Hx'). }
  assert (Row : forall i, i < length futo_grid ->
            ((forall j k, j < k -> k < length futo_grid ->
                cells_differ (objects h1') variables1 a1 i j i k) <->
             line_ok (objects h2') a2 (fun j => cell_var variables2 i j)
                     (length futo_grid))).
  { intros i Li.
    apply (line_pairs (objects h1') (objects h2') a1 a2
                      (fun j => cell_var variables1 i j)
                      (fun j => cell_var variables2 i j) (length futo_grid) L2).
    intros j Lj. now apply Co. }
  assert (Col : forall i, i < length futo_grid ->
            ((forall j k, j < k -> k < length futo_grid ->
                cells_differ (objects h1') variables1 a1 j i k i) <->
             line_ok (objects h2') a2 (fun j => cell_var variables2 j i)
                     (length futo_grid))).
  { intros i Li.
    apply (line_pairs (objects h1') (objects h2') a1 a2
                      (fun j => cell_var variables1 j i)
                      (fun j => cell_var variables2 j i) (length futo_grid) L2).
    intros j Lj. now apply Co. }
  split.
  - intros S i Li. split.
    + apply (Row i Li). intros j k Ljk Lk. now apply (S i j k).
    + apply (Col i Li). intros j k Ljk Lk. now apply (S i j k).
  - intros S i j k Li Ljk Lk. destruct (S i Li) as [R C]. split.
    + now apply (Row i Li).
    + now apply (Col i Li).
Qed.

Lemma models_have_same_solutions_witness :
  exists csp1 csp2 variables1 variables2 h1' h2',
    futoshiki_csp_model_1 heap0 given3 = Some (csp1, variables1, h1') /\
    futoshiki_csp_model_2 heap0 given3 = Some (csp2, variables2, h2') /\
    (satisfies csp1 (fill3 latin3) = true <-> satisfies csp2 (fill3 latin3) = true).
Proof.
  eexists _, _, _, _, _, _.
  split; [vm_compute; reflexivity|]. split; [vm_compute; reflexivity|].
  eapply (models_have_same_solutions heap0 heap0 given3);
    [ int_cells_3x5 | reflexivity | simpl; lia
    | vm_compute; reflexivity | vm_compute; reflexivity | | ];
    intros r c x H;
    (destruct r as [|[|[|r]]]; [| | |destruct r; discriminate H]);
    (destruct c as [|[|[|c]]]; [| | |destruct c; discriminate H]);
    injection H as <-; reflexivity.
Defined.

(** ** ord_mrv looks at every variable, assigned or not *)

(** [ord_mrv] walks [get_all_vars], not the unassigned variables, and the
    current domain of an assigned variable is the one value it holds. So
    when the first variable of the CSP is assigned and no variable after
    it has an empty current domain, [ord_mrv] returns that assigned
    variable: nothing beats its count of one, and it comes first. *)
Theorem ord_mrv_returns_assigned_variable (csp : CSP) (st : store)
        (x : var_id) (xs : list var_id) :
  get_all_vars csp = x :: xs ->
  is_assigned st x = true ->
  (forall y, In y xs -> cur_domain st y <> []) ->
  ord_mrv csp st = Some x.
Proof.
  intros E A NE. unfold ord_mrv. rewrite E. f_equal.
  destruct (@mrv_loop_None st x xs x) as (pre & post & H & Hpre & _).
  remember (mrv_loop st (x :: xs) None x) as m eqn:Em. clear Em.
  destruct pre as [|p pre]; simpl in H; injection H as H1 H2; [now subst|].
  subst p. exfalso.
  assert (S1 : length (cur_domain st x) = 1).
  { unfold cur_domain. unfold is_assigned in A.
    now destruct (assigned_value (st x)). }
  specialize (Hpre x (or_introl eq_refl)). rewrite S1 in Hpre.
  apply (NE m); [rewrite H2; apply in_or_app; right; now left|].
  destruct (cur_domain st m); [reflexivity | simpl in Hpre; lia].
Qed.

Lemma ord_mrv_returns_assigned_variable_witness :
  is_assigned ex_st 0 = true /\ ord_mrv ex_csp ex_st = Some 0.
Proof.
  split; [reflexivity|].
  apply (ord_mrv_returns_assigned_variable ex_csp ex_st 0 [1; 2]);
    [reflexivity | reflexivity |].
  intros y [<-|[<-|[]]]; discriminate.
Defined.
